(** * gander: configuration loading (package loader)

    A shallow embedding of the configuration-ingestion code of the
    dashboard: typed variable substitution ([ParseConfigVariables]),
    recursive include expansion ([RecursiveParseYAMLIncludes]), the
    line prefixer of package common ([PrefixStringLines]) and the
    structural validator ([IsConfigStateValid]).

    Go's [[]byte] and [string] values that carry document text are both
    modelled as [list ascii] (a sequence of 8-bit characters); the two Go
    conversions between them are the identity.  The regular expressions
    are run one character at a time, which is how package regexp treats
    ASCII text.  Error values are modelled by their message. *)

From Stdlib Require Import Ascii String.
From stdpp Require Import gmap strings list pretty.

Set Default Proof Using "Type".

Abbreviation bytes := (list ascii).
Abbreviation error := string.

(** [B "text"] is the byte sequence of a literal. *)
Definition B (s : string) : bytes := list_ascii_of_string s.

Definition nl : ascii := "010"%char.
Definition tab : ascii := "009"%char.

(** The message of an error built with a [%s] or [%v] verb on text. *)
Definition fmt (b : bytes) : string := string_of_list_ascii b.

(** ** Package regexp: the fragment used by the loader's patterns *)

Module Regexp.

(** Syntax.  Repetition is only ever applied to a character class in the
    patterns of this package, so [Star] and [Plus] take a class. *)
Inductive regex : Type :=
| BeginText                         (* ^ without the m flag *)
| BeginLine                         (* ^ under (?m) *)
| EndText                           (* $ without the m flag *)
| EndLine                           (* $ under (?m) *)
| Lit (c : ascii)
| Class (p : ascii -> bool)
| Cat (r1 r2 : regex)
| Alt (r1 r2 : regex)
| Quest (r : regex)                 (* r?, greedy *)
| Star (p : ascii -> bool)          (* [p]*, greedy *)
| Plus (p : ascii -> bool)          (* [p]+, greedy *)
| Capture (n : nat) (r : regex).    (* the n-th parenthesised group *)

Definition in_range (lo hi c : ascii) : bool :=
  ((N_of_ascii lo <=? N_of_ascii c) && (N_of_ascii c <=? N_of_ascii hi))%N.

(** [.] without the s flag: any character but a newline. *)
Definition any_not_nl (c : ascii) : bool := negb (Ascii.eqb c nl).

(** Literal text. *)
Fixpoint lits (cs : bytes) (k : regex) : regex :=
  match cs with
  | [] => k
  | c :: cs' => Cat (Lit c) (lits cs' k)
  end.

(** A thread of the backtracking search: the text consumed so far, the
    text still ahead, and the groups recorded on the way. *)
Definition thread : Type := bytes * bytes * list (nat * bytes).

(** The character before the current position, after [m] was consumed. *)
Definition prev_after (prev : option ascii) (m : bytes) : option ascii :=
  match last m with
  | Some c => Some c
  | None => prev
  end.

(** All ways a greedy class repetition can stop, longest first. *)
Fixpoint star (p : ascii -> bool) (s : bytes) : list (bytes * bytes) :=
  match s with
  | c :: s' =>
      if p c
      then map (fun '(m, rest) => (c :: m, rest)) (star p s') ++ [([], s)]
      else [([], s)]
  | [] => [([], [])]
  end.

Definition plus (p : ascii -> bool) (s : bytes) : list (bytes * bytes) :=
  match s with
  | c :: s' =>
      if p c then map (fun '(m, rest) => (c :: m, rest)) (star p s') else []
  | [] => []
  end.

Definition here (s : bytes) : list thread := [([], s, [])].

(** [run r prev s]: every match of [r] at the start of [s], in the order
    of preference of a leftmost-first engine; [prev] is the character
    just before [s] in the whole text ([None] at the start of the text). *)
Fixpoint run (r : regex) (prev : option ascii) (s : bytes) : list thread :=
  match r with
  | BeginText => match prev with None => here s | Some _ => [] end
  | BeginLine =>
      match prev with
      | None => here s
      | Some c => if Ascii.eqb c nl then here s else []
      end
  | EndText => match s with [] => here s | _ :: _ => [] end
  | EndLine =>
      match s with
      | [] => here s
      | c :: _ => if Ascii.eqb c nl then here s else []
      end
  | Lit c =>
      match s with
      | c' :: s' => if Ascii.eqb c' c then [([c'], s', [])] else []
      | [] => []
      end
  | Class p =>
      match s with
      | c' :: s' => if p c' then [([c'], s', [])] else []
      | [] => []
      end
  | Cat r1 r2 =>
      flat_map
        (fun '(m1, s1, g1) =>
           map (fun '(m2, s2, g2) => (m1 ++ m2, s2, g1 ++ g2))
               (run r2 (prev_after prev m1) s1))
        (run r1 prev s)
  | Alt r1 r2 => run r1 prev s ++ run r2 prev s
  | Quest r1 => run r1 prev s ++ here s
  | Star p => map (fun '(m, rest) => (m, rest, [])) (star p s)
  | Plus p => map (fun '(m, rest) => (m, rest, [])) (plus p s)
  | Capture n r1 =>
      map (fun '(m, rest, g) => (m, rest, (n, m) :: g)) (run r1 prev s)
  end.

(** Number of capture groups of a pattern ([NumSubexp]). *)
Fixpoint NumSubexp (r : regex) : nat :=
  match r with
  | Cat r1 r2 | Alt r1 r2 => NumSubexp r1 + NumSubexp r2
  | Quest r1 => NumSubexp r1
  | Capture _ r1 => S (NumSubexp r1)
  | _ => 0
  end.

(** The text of group [n]; a group that took no part is nil. *)
Fixpoint group (g : list (nat * bytes)) (n : nat) : bytes :=
  match g with
  | [] => []
  | (k, m) :: g' => if Nat.eqb k n then m else group g' n
  end.

Definition submatches (re : regex) (t : thread) : list bytes :=
  let '(m, _, g) := t in m :: map (group g) (seq 1 (NumSubexp re)).

(** The leftmost match at or after the current position: the first
    position with a thread, and the preferred thread there. *)
Fixpoint search (re : regex) (prev : option ascii) (s : bytes)
  : option thread :=
  match run re prev s with
  | t :: _ => Some t
  | [] =>
      match s with
      | [] => None
      | c :: s' => search re (Some c) s'
      end
  end.

(** [re.FindSubmatch(b)]: the leftmost match and its groups, nil when
    there is none. *)
Definition FindSubmatch (re : regex) (b : bytes) : list bytes :=
  match search re None b with
  | Some t => submatches re t
  | None => []
  end.

(** [re.MatchString(s)]. *)
Definition MatchString (re : regex) (s : bytes) : bool :=
  match search re None s with
  | Some _ => true
  | None => false
  end.

(** The successive non-overlapping matches of [re] in a text, each with
    the unmatched text before it, and the unmatched text after the last
    one.  [skip] counts the characters of the current match that are
    still to be passed.  The loader's patterns never match the empty
    text ([var_match_nonempty], [include_match_nonempty]); an empty match
    is not recorded. *)
Fixpoint scan (re : regex) (prev : option ascii) (s : bytes) (skip : nat)
  : list (bytes * bytes) * bytes :=
  match skip with
  | S k =>
      match s with
      | c :: s' => scan re (Some c) s' k
      | [] => ([], [])
      end
  | O =>
      match s with
      | [] => ([], [])
      | c :: s' =>
          match run re prev s with
          | ((_ :: _) as m, _, _) :: _ =>
              let '(ms, tl) := scan re (Some c) s' (length m - 1) in
              (([], m) :: ms, tl)
          | _ =>
              match scan re (Some c) s' 0 with
              | ((gap, m) :: ms, tl) => ((c :: gap, m) :: ms, tl)
              | ([], tl) => ([], c :: tl)
              end
          end
      end
  end.

Definition FindAll (re : regex) (src : bytes) : list (bytes * bytes) * bytes :=
  scan re None src 0.

(** The replacements of the matches in turn; the callback is a closure
    over mutable variables, whose state [St] is threaded through. *)
Fixpoint replace_matches {St : Type} (repl : St -> bytes -> bytes * St)
    (ms : list (bytes * bytes)) (st : St) : bytes * St :=
  match ms with
  | [] => ([], st)
  | (gap, m) :: ms' =>
      let '(out, st1) := repl st m in
      let '(rest, st2) := replace_matches repl ms' st1 in
      (gap ++ out ++ rest, st2)
  end.

(** [re.ReplaceAllFunc(src, repl)]. *)
Definition ReplaceAllFunc {St : Type} (re : regex) (src : bytes)
    (repl : St -> bytes -> bytes * St) (st : St) : bytes * St :=
  let '(ms, tl) := FindAll re src in
  let '(out, st') := replace_matches repl ms st in
  (out ++ tl, st').

End Regexp.

Import Regexp.

(** ** Package common *)

(** [strings.Split(s, "\n")]. *)
Fixpoint SplitLines (s : bytes) : list bytes :=
  match s with
  | [] => [[]]
  | c :: s' =>
      if Ascii.eqb c nl then [] :: SplitLines s'
      else match SplitLines s' with
           | l :: ls => (c :: l) :: ls
           | [] => [[c]]
           end
  end.

(** [strings.Join(lines, "\n")]. *)
Fixpoint JoinLines (lines : list bytes) : bytes :=
  match lines with
  | [] => []
  | [l] => l
  | l :: ls => l ++ nl :: JoinLines ls
  end.

Definition PrefixStringLines (prefix s : bytes) : bytes :=
  JoinLines (map (fun line => prefix ++ line) (SplitLines s)).

Definition Ternary {T : Type} (condition : bool) (a b : T) : T :=
  if condition then a else b.

(** ** Package loader: patterns *)

Definition CONFIG_INCLUDE_RECURSION_DEPTH_LIMIT : nat := 20.

Definition configVarTypeEnv : bytes := B "env".
Definition configVarTypeSecret : bytes := B "secret".
Definition configVarTypeFileFromEnv : bytes := B "readFileFromEnv".

Definition upper_digit_us (c : ascii) : bool :=
  in_range "A" "Z" c || in_range "0" "9" c || Ascii.eqb c "_".
Definition letter (c : ascii) : bool :=
  in_range "a" "z" c || in_range "A" "Z" c.
Definition name_char (c : ascii) : bool :=
  in_range "a" "z" c || in_range "A" "Z" c || in_range "0" "9" c
  || Ascii.eqb c "_" || Ascii.eqb c "-".
Definition blank (c : ascii) : bool := Ascii.eqb c " " || Ascii.eqb c tab.

(** The pattern "^[A-Z0-9_]+$". *)
Definition envVariableNamePattern : regex :=
  Cat BeginText (Cat (Plus upper_digit_us) EndText).

(** The pattern "(^|.)\$\{(?:([a-zA-Z]+):)?([a-zA-Z0-9_-]+)\}". *)
Definition configVariablePattern : regex :=
  Cat (Capture 1 (Alt BeginText (Class any_not_nl)))
   (Cat (Lit "$")
    (Cat (Lit "{")
     (Cat (Quest (Cat (Capture 2 (Plus letter)) (Lit ":")))
      (Cat (Capture 3 (Plus name_char))
           (Lit "}"))))).

(** The pattern [(?m)^([ \t]* )(?:-[ \t]* )?(?:!|\$)include:[ \t]*(.+)$]
    (written here with a space after the first two stars, which the
    pattern does not have). *)
Definition configIncludePattern : regex :=
  Cat BeginLine
   (Cat (Capture 1 (Star blank))
    (Cat (Quest (Cat (Lit "-") (Star blank)))
     (Cat (Alt (Lit "!") (Lit "$"))
      (lits (B "include:")
       (Cat (Star blank)
        (Cat (Capture 2 (Plus any_not_nl))
             EndLine)))))).

(** ** The process environment and the file system *)

Inductive result (A : Type) : Type :=
| Ok (a : A)
| Err (e : error).
Arguments Ok {A} a.
Arguments Err {A} e.

(** What the loader asks of packages os and filepath. *)
Record System : Type := {
  LookupEnv : bytes -> option bytes;      (* os.LookupEnv *)
  ReadFile : bytes -> result bytes;       (* os.ReadFile *)
  Exists : bytes -> bool;                 (* os.Stat does not report IsNotExist *)
  IsAbs : bytes -> bool;                  (* filepath.IsAbs *)
  Join : bytes -> bytes -> bytes;         (* filepath.Join *)
  Abs : bytes -> result bytes;            (* filepath.Abs *)
  Dir : bytes -> bytes                    (* filepath.Dir *)
}.

Definition is_space (c : ascii) : bool :=
  in_range tab "013" c || Ascii.eqb c " ".

Fixpoint TrimLeft (s : bytes) : bytes :=
  match s with
  | c :: s' => if is_space c then TrimLeft s' else s
  | [] => []
  end.

(** [strings.TrimSpace] on ASCII text. *)
Definition TrimSpace (s : bytes) : bytes := rev (TrimLeft (rev (TrimLeft s))).

Section Loader.

Variable sys : System.

(** *** Variables *)

Definition ParseConfigVariableOfType (variableType variableName : bytes)
  : bytes * bool * option error :=
  if bool_decide (variableType = configVarTypeEnv) then
    if negb (MatchString envVariableNamePattern variableName) then
      ([], true, None)
    else
      match LookupEnv sys variableName with
      | None =>
          ([], false,
           Some ("environment variable " +:+ fmt variableName +:+ " not found"))
      | Some v => (v, false, None)
      end
  else if bool_decide (variableType = configVarTypeSecret) then
    let secretPath := Join sys (B "/run/secrets") variableName in
    match ReadFile sys secretPath with
    | Err e => ([], false, Some ("reading secret file: " +:+ e))
    | Ok secret => (TrimSpace secret, false, None)
    end
  else if bool_decide (variableType = configVarTypeFileFromEnv) then
    if negb (MatchString envVariableNamePattern variableName) then
      ([], true, None)
    else
      match LookupEnv sys variableName with
      | None =>
          ([], false,
           Some ("readFileFromEnv: environment variable "
                 +:+ fmt variableName +:+ " not found"))
      | Some filePath =>
          if negb (IsAbs sys filePath) then
            ([], false,
             Some ("readFileFromEnv: file path " +:+ fmt filePath
                   +:+ " is not absolute"))
          else
            match ReadFile sys filePath with
            | Err e =>
                ([], false,
                 Some ("readFileFromEnv: reading file from "
                       +:+ fmt variableName +:+ ": " +:+ e))
            | Ok fileContents => (TrimSpace fileContents, false, None)
            end
      end
  else ([], true, None).

(** The function literal given to [ReplaceAllFunc]; the state is the
    captured variable [err]. *)
Definition variable_callback (err : option error) (match_ : bytes)
  : bytes * option error :=
  match err with
  | Some _ => ([], err)
  | None =>
      let groups := FindSubmatch configVariablePattern match_ in
      if negb (length groups =? 4) then (match_, None)
      else
        let prefix := nth 1 groups [] in
        if bool_decide (prefix = B "\") then
          if 2 <=? length match_ then (drop 1 match_, None) else ([], None)
        else
          let typeAsString := nth 2 groups [] in
          let variableName := nth 3 groups [] in
          let variableType :=
            Ternary (bool_decide (typeAsString = [])) configVarTypeEnv
                    typeAsString in
          match ParseConfigVariableOfType variableType variableName with
          | (_, _, Some localErr) =>
              ([], Some ("parsing variable: " +:+ localErr))
          | (parsedValue, returnOriginal, None) =>
              if returnOriginal then (match_, None)
              else (prefix ++ parsedValue, None)
          end
  end.

Definition ParseConfigVariables (contents : bytes) : bytes * option error :=
  let '(replaced, err) :=
    ReplaceAllFunc configVariablePattern contents variable_callback None in
  match err with
  | Some e => ([], Some e)
  | None => (replaced, None)
  end.

(** *** Includes *)

(** What a call returns, [contents], [includes] and [err], and with
    them [visited]: the contents, when the call is over, of the map the
    call worked on (the caller's own map when it passed one, since a Go
    map is shared by reference).  A nil map and a nil slice are [None]
    and [[]]. *)
Record expansion : Type := {
  contents : bytes;
  includes : option (gset bytes);
  err : option error;
  visited : gset bytes
}.

Definition failed (includes : gset bytes) (e : error) : expansion :=
  {| contents := []; includes := None; err := Some e; visited := includes |}.

Definition recursion_limit_error : error :=
  "recursion depth limit of " +:+ pretty CONFIG_INCLUDE_RECURSION_DEPTH_LIMIT
  +:+ " reached".

(** The path an include directive names, as the callback resolves it. *)
Definition resolve_include (mainFileDir path : bytes) : bytes :=
  let includeFilePath := TrimSpace path in
  if negb (IsAbs sys includeFilePath)
  then Join sys mainFileDir includeFilePath
  else includeFilePath.

(** The function literal given to [ReplaceAllFunc]; the state is the
    captured [includesLastErr] and the [includes] map.  [recurse] is the
    recursive call at [depth+1]. *)
Definition include_callback
    (recurse : bytes -> option (gset bytes) -> expansion)
    (mainFileDir : bytes)
    (st : option error * gset bytes) (match_ : bytes)
  : bytes * (option error * gset bytes) :=
  let '(includesLastErr, includes) := st in
  match includesLastErr with
  | Some _ => ([], st)
  | None =>
      let matches := FindSubmatch configIncludePattern match_ in
      if negb (length matches =? 3) then
        (* the message goes on with a listing of [matches] *)
        ([], (Some "invalid include match", includes))
      else
        let indent := nth 1 matches [] in
        let includeFilePath := resolve_include mainFileDir (nth 2 matches []) in
        let includes := {[includeFilePath]} ∪ includes in
        let r := recurse includeFilePath (Some includes) in
        match err r with
        | Some e => ([], (Some e, visited r))
        | None => (PrefixStringLines indent (contents r), (None, visited r))
        end
  end.

(** The recursion is bounded by the depth check; [fuel] makes that
    bound structural ([fuel_enough] below: it never runs out). *)
Fixpoint RecursiveParseYAMLIncludes (fuel : nat) (mainFilePath : bytes)
    (includes : option (gset bytes)) (depth : nat) : expansion :=
  if CONFIG_INCLUDE_RECURSION_DEPTH_LIMIT <? depth then
    failed (default ∅ includes) recursion_limit_error
  else
    match fuel with
    | O => failed (default ∅ includes) "out of fuel"
    | S fuel' =>
        match ReadFile sys mainFilePath with
        | Err e =>
            failed (default ∅ includes)
                   ("reading " +:+ fmt mainFilePath +:+ ": " +:+ e)
        | Ok mainFileContents =>
            match Abs sys mainFilePath with
            | Err e =>
                failed (default ∅ includes)
                       ("getting absolute path of " +:+ fmt mainFilePath
                        +:+ ": " +:+ e)
            | Ok mainFileAbsPath =>
                let mainFileDir := Dir sys mainFileAbsPath in
                let includes := default ∅ includes in
                let '(mainFileContents, (includesLastErr, includes)) :=
                  ReplaceAllFunc configIncludePattern mainFileContents
                    (include_callback
                       (fun p inc =>
                          RecursiveParseYAMLIncludes fuel' p inc (depth + 1))
                       mainFileDir)
                    (None, includes) in
                match includesLastErr with
                | Some e => failed includes e
                | None =>
                    {| contents := mainFileContents;
                       includes := Some includes;
                       err := None;
                       visited := includes |}
                end
            end
        end
    end.

Definition ParseYAMLIncludes (mainFilePath : bytes) : expansion :=
  RecursiveParseYAMLIncludes (S CONFIG_INCLUDE_RECURSION_DEPTH_LIMIT)
                             mainFilePath None 0.

End Loader.

(** ** A small concrete system, for the examples *)

Module Toy.

Fixpoint assoc {V : Type} (l : list (string * V)) (k : bytes) : option V :=
  match l with
  | [] => None
  | (k', v) :: l' => if bool_decide (B k' = k) then Some v else assoc l' k
  end.

(** The directory part of a slash-separated path. *)
Fixpoint dir_of (p : bytes) : bytes :=
  match p with
  | [] => []
  | c :: p' =>
      if existsb (Ascii.eqb "/") p' then c :: dir_of p'
      else if Ascii.eqb c "/" then [c] else []
  end.

Definition trim_slash (d : bytes) : bytes :=
  match rev d with
  | c :: d' => if Ascii.eqb c "/" then rev d' else d
  | [] => d
  end.

(** Files and environment variables listed by name; every listed path
    is absolute. *)
Definition system (files : list (string * bytes)) (env : list (string * string))
  : System :=
  {| LookupEnv := fun k => B <$> assoc env k;
     ReadFile := fun p =>
       match assoc files p with
       | Some c => Ok c
       | None => Err ("open " +:+ fmt p +:+ ": no such file or directory")
       end;
     Exists := fun p => bool_decide (is_Some (assoc files p));
     IsAbs := fun p => match p with c :: _ => Ascii.eqb c "/" | [] => false end;
     Join := fun d p => trim_slash (dir_of (d ++ ["/"%char])) ++ "/"%char :: p;
     Abs := fun p => Ok p;
     Dir := fun p => match trim_slash (dir_of p) with [] => B "/" | d => d end |}.

End Toy.

(** ** Package models: the decoded configuration, as far as it is validated *)

Record User : Type := {
  Password : string;
  PasswordHashString : string
}.

Record Column : Type := { Size : string }.

Record Page : Type := {
  Title : string;
  Width : string;
  DesktopNavigationWidth : string;
  Columns : list Column
}.

Record ServerConfig : Type := { AssetsPath : string }.

(** [Users] lists the entries of the Go map in the order in which the
    [range] loop happens to visit them. *)
Record AuthConfig : Type := {
  SecretKey : string;
  Users : list (string * User)
}.

Record Config : Type := {
  Server : ServerConfig;
  Auth : AuthConfig;
  Pages : list Page
}.

(** ** Validation *)

Section Validation.

Variable sys : System.

(** A loop that returns at the first error. *)
Fixpoint first_error {A : Type} (body : nat -> A -> option error)
    (i : nat) (l : list A) : option error :=
  match l with
  | [] => None
  | x :: l' =>
      match body i x with
      | Some e => Some e
      | None => first_error body (S i) l'
      end
  end.

Definition validate_user (_ : nat) (entry : string * User) : option error :=
  let '(username, user) := entry in
  if String.eqb username "" then Some "user has no name"
  else if String.length username <? 3 then
    Some "usernames must be at least 3 characters"
  else if String.eqb (Password user) "" then
    if String.eqb (PasswordHashString user) "" then
      Some ("user " +:+ username
            +:+ " must have a password or a password-hash set")
    else None
  else if String.length (Password user) <? 6 then
    Some ("the password for " +:+ username
          +:+ " must be at least 6 characters")
  else None.

(** The loop over the columns of page [i]: the size check, and the
    counter [columnSizesCount[size]++]. *)
Fixpoint count_column_sizes (i j : nat) (columns : list Column)
    (columnSizesCount : gmap string nat) : result (gmap string nat) :=
  match columns with
  | [] => Ok columnSizesCount
  | column :: columns' =>
      if negb (String.eqb (Size column) "small")
         && negb (String.eqb (Size column) "full")
      then Err ("column " +:+ pretty (j + 1) +:+ " of page " +:+ pretty (i + 1)
                +:+ ": size can only be either small or full")
      else
        count_column_sizes i (S j) columns'
          (<[Size column := S (default 0 (columnSizesCount !! Size column))]>
             columnSizesCount)
  end.

Definition full_count_error (i : nat) : error :=
  "page " +:+ pretty (i + 1) +:+ " must have either 1 or 2 full width columns".

Definition width_ok (w : string) : bool :=
  String.eqb w "" || String.eqb w "wide" || String.eqb w "slim"
  || String.eqb w "default".

Definition validate_page (i : nat) (page : Page) : option error :=
  if String.eqb (Title page) "" then
    Some ("page " +:+ pretty (i + 1) +:+ " has no name")
  else if negb (width_ok (Width page)) then
    Some ("page " +:+ pretty (i + 1)
          +:+ ": width can only be either wide or slim")
  else if negb (width_ok (DesktopNavigationWidth page)) then
    Some ("page " +:+ pretty (i + 1)
          +:+ ": desktop-navigation-width can only be either wide or slim")
  else if length (Columns page) =? 0 then
    Some ("page " +:+ pretty (i + 1) +:+ " has no columns")
  else
    let column_sizes :=
      match count_column_sizes i 0 (Columns page) ∅ with
      | Err e => Some e
      | Ok columnSizesCount =>
          let full := default 0 (columnSizesCount !! "full") in
          if (2 <? full) || (full =? 0) then Some (full_count_error i)
          else None
      end in
    if String.eqb (Width page) "slim" then
      if 2 <? length (Columns page) then
        Some ("page " +:+ pretty (i + 1)
              +:+ " is slim and cannot have more than 2 columns")
      else column_sizes
    else
      if 3 <? length (Columns page) then
        Some ("page " +:+ pretty (i + 1) +:+ " has more than 3 columns")
      else column_sizes.

Definition IsConfigStateValid (config : Config) : option error :=
  if length (Pages config) =? 0 then Some "no pages configured"
  else if (0 <? length (Users (Auth config)))
          && String.eqb (SecretKey (Auth config)) ""
  then Some "secret-key must be set when users are configured"
  else
    match first_error validate_user 0 (Users (Auth config)) with
    | Some e => Some e
    | None =>
        if negb (String.eqb (AssetsPath (Server config)) "")
           && negb (Exists sys (B (AssetsPath (Server config))))
        then Some ("assets directory does not exist: "
                   +:+ AssetsPath (Server config))
        else first_error validate_page 0 (Pages config)
    end.

End Validation.

(** ** Decoding *)

Section Decode.

Variable sys : System.

(** [yaml.Unmarshal] into a configuration whose port defaults to 8080,
    and the initialisation of the widgets, the theme and its presets. *)
Variable Unmarshal : bytes -> result Config.
Variable Initialize : Config -> option error.

Definition NewConfigFromYAML (contents : bytes) : result Config :=
  match ParseConfigVariables sys contents with
  | (_, Some e) => Err e
  | (contents, None) =>
      match Unmarshal contents with
      | Err e => Err e
      | Ok config =>
          match IsConfigStateValid sys config with
          | Some e => Err e
          | None =>
              match Initialize config with
              | Some e => Err e
              | None => Ok config
              end
          end
      end
  end.

End Decode.

(** The number of columns of a page whose size is "full". *)
Definition full_columns (page : Page) : nat :=
  length (filter (fun column => Size column = "full") (Columns page)).

(** An error message names page [i] (counted from 0) when it contains
    the words "page n" for n = i + 1. *)
Definition names_page (i : nat) (e : error) : Prop :=
  exists pre post : string, e = pre +:+ ("page " +:+ pretty (i + 1)) +:+ post.

(** A configuration with one page of a "full" and a "small" column. *)
Definition one_full_one_small : Config :=
  {| Server := {| AssetsPath := "" |};
     Auth := {| SecretKey := ""; Users := [] |};
     Pages := [ {| Title := "Home"; Width := ""; DesktopNavigationWidth := "";
                   Columns := [ {| Size := "full" |}; {| Size := "small" |} ] |} ] |}.

(** A configuration whose second page has three "full" columns. *)
Definition three_full : Config :=
  {| Server := {| AssetsPath := "" |};
     Auth := {| SecretKey := ""; Users := [] |};
     Pages := [ {| Title := "Home"; Width := ""; DesktopNavigationWidth := "";
                   Columns := [ {| Size := "full" |} ] |};
                {| Title := "Feeds"; Width := "wide"; DesktopNavigationWidth := "";
                   Columns := [ {| Size := "full" |}; {| Size := "full" |};
                                {| Size := "full" |} ] |} ] |}.

(** ** What a pattern matches, as a relation

    [matches r prev s m rest g]: at a position of a text where [prev] is
    the character before and [s] the text ahead, [r] can match [m], leaving
    [rest], with groups [g].  [run] lists exactly these ([run_matches]). *)
Inductive matches : regex -> option ascii -> bytes -> bytes -> bytes
                    -> list (nat * bytes) -> Prop :=
| M_BeginText s : matches BeginText None s [] s []
| M_BeginLine_start s : matches BeginLine None s [] s []
| M_BeginLine_nl s : matches BeginLine (Some nl) s [] s []
| M_EndText prev : matches EndText prev [] [] [] []
| M_EndLine_end prev : matches EndLine prev [] [] [] []
| M_EndLine_nl prev s : matches EndLine prev (nl :: s) [] (nl :: s) []
| M_Lit prev c s : matches (Lit c) prev (c :: s) [c] s []
| M_Class prev p c s : p c = true -> matches (Class p) prev (c :: s) [c] s []
| M_Cat prev r1 r2 s m1 s1 g1 m2 s2 g2 :
    matches r1 prev s m1 s1 g1 ->
    matches r2 (prev_after prev m1) s1 m2 s2 g2 ->
    matches (Cat r1 r2) prev s (m1 ++ m2) s2 (g1 ++ g2)
| M_Alt_l prev r1 r2 s m rest g :
    matches r1 prev s m rest g -> matches (Alt r1 r2) prev s m rest g
| M_Alt_r prev r1 r2 s m rest g :
    matches r2 prev s m rest g -> matches (Alt r1 r2) prev s m rest g
| M_Quest_some prev r s m rest g :
    matches r prev s m rest g -> matches (Quest r) prev s m rest g
| M_Quest_none prev r s : matches (Quest r) prev s [] s []
| M_Star prev p m rest :
    Forall (fun c => p c = true) m -> matches (Star p) prev (m ++ rest) m rest []
| M_Plus prev p m rest :
    m <> [] -> Forall (fun c => p c = true) m ->
    matches (Plus p) prev (m ++ rest) m rest []
| M_Capture prev n r s m rest g :
    matches r prev s m rest g -> matches (Capture n r) prev s m rest ((n, m) :: g).

(** ** The text of a placeholder *)

(** [type:name], or [name] alone when there is no type. *)
Definition typed_name (ty name : bytes) : bytes :=
  match ty with
  | [] => name
  | _ :: _ => ty ++ ":"%char :: name
  end.

(** The text [${name}] or [${type:name}]. *)
Definition placeholder (ty name : bytes) : bytes :=
  "$"%char :: "{"%char :: typed_name ty name ++ ["}"%char].

Definition valid_type (ty : bytes) : Prop := Forall (fun c => letter c = true) ty.

Definition valid_name (name : bytes) : Prop :=
  name <> [] /\ Forall (fun c => name_char c = true) name.

(** What can stand in group 1: nothing at the start of the text, or one
    character that is not a newline. *)
Definition context_ok (prev : option ascii) (pfx : bytes) : Prop :=
  (pfx = [] /\ prev = None) \/ (exists c, pfx = [c] /\ c <> nl).

(** [add_gap pre r]: the scan result [r] of a text, seen from [pre]
    unmatched characters earlier. *)
Definition add_gap (pre : bytes) (r : list (bytes * bytes) * bytes)
  : list (bytes * bytes) * bytes :=
  match r with
  | ((gap, m) :: ms, tl) => ((pre ++ gap, m) :: ms, tl)
  | ([], tl) => ([], pre ++ tl)
  end.

Definition backslash : ascii := "\"%char.
Definition dollar : ascii := "$"%char.

(** A name of the strict form of [envVariableNamePattern]. *)
Definition env_name (name : bytes) : Prop :=
  name <> [] /\ Forall (fun c => upper_digit_us c = true) name.

(** The error, if any, with which the reference in the match [m] fails to
    resolve; an escaped reference is never resolved. *)
Definition resolution_error (sys : System) (m : bytes) : option error :=
  let groups := FindSubmatch configVariablePattern m in
  if bool_decide (nth 1 groups [] = B "\") then None
  else
    snd (ParseConfigVariableOfType sys
           (Ternary (bool_decide (nth 2 groups [] = [])) configVarTypeEnv
                    (nth 2 groups []))
           (nth 3 groups [])).

(** A system with the variables A and B set, and one with none. *)
Definition sys_AB : System := Toy.system [] [("A", "a"); ("B", "b")].
Definition sys_empty : System := Toy.system [] [].

(** ** Assembly *)

(** Modelled from the spec: the caller that runs the two phases is not
    under src/; the document assembler is include expansion followed by
    variable parsing (the first step of [NewConfigFromYAML]), and an
    error of either phase is returned with no document and no set. *)
Definition Assemble (sys : System) (rootPath : bytes)
  : bytes * option (gset bytes) * option error :=
  let r := ParseYAMLIncludes sys rootPath in
  match err r with
  | Some e => ([], None, Some e)
  | None =>
      match ParseConfigVariables sys (contents r) with
      | (_, Some e) => ([], None, Some e)
      | (resolved, None) => (resolved, includes r, None)
      end
  end.

(** The order of the phases as the specification words it, for comparison
    with [Assemble]: each file's variables are resolved on that file's own
    content, before its includes are spliced in, and text that has been
    inlined is not passed through variable substitution again. *)
Fixpoint PerFileExpand (sys : System) (fuel : nat) (path : bytes) (depth : nat)
  : bytes * option error :=
  if CONFIG_INCLUDE_RECURSION_DEPTH_LIMIT <? depth then
    ([], Some (recursion_limit_error))
  else
    match fuel with
    | O => ([], Some "out of fuel")
    | S fuel' =>
        match ReadFile sys path, Abs sys path with
        | Err e, _ => ([], Some ("reading " +:+ fmt path +:+ ": " +:+ e))
        | _, Err e =>
            ([], Some ("getting absolute path of " +:+ fmt path +:+ ": " +:+ e))
        | Ok raw, Ok absPath =>
            match ParseConfigVariables sys raw with
            | (_, Some e) => ([], Some e)
            | (own, None) =>
                let '(out, (lastErr, _)) :=
                  ReplaceAllFunc configIncludePattern own
                    (include_callback sys
                       (fun p inc =>
                          let '(c, e) := PerFileExpand sys fuel' p (depth + 1) in
                          {| contents := c; includes := inc; err := e;
                             visited := default ∅ inc |})
                       (Dir sys absPath))
                    (None, ∅) in
                match lastErr with
                | Some e => ([], Some e)
                | None => (out, None)
                end
            end
        end
    end.

Definition PerFileAssemble (sys : System) (rootPath : bytes) : bytes * option error :=
  PerFileExpand sys (S CONFIG_INCLUDE_RECURSION_DEPTH_LIMIT) rootPath 0.

(** ** Include directives *)

(** The blanks a text starts with. *)
Fixpoint leading_blanks (s : bytes) : bytes :=
  match s with
  | c :: s' => if blank c then c :: leading_blanks s' else []
  | [] => []
  end.

(** The file an include directive [m] names, seen from directory [dir]. *)
Definition include_target (sys : System) (dir m : bytes) : bytes :=
  resolve_include sys dir (nth 2 (FindSubmatch configIncludePattern m) []).

(** Patterns without anchors, and patterns that end in the end-of-line
    anchor after an anchor-free part. *)
Fixpoint anchor_free (r : regex) : bool :=
  match r with
  | BeginText | BeginLine | EndText | EndLine => false
  | Lit _ | Class _ | Star _ | Plus _ => true
  | Cat r1 r2 | Alt r1 r2 => anchor_free r1 && anchor_free r2
  | Quest r1 | Capture _ r1 => anchor_free r1
  end.

Fixpoint end_anchored (r : regex) : bool :=
  match r with
  | EndLine => true
  | Cat r1 r2 => anchor_free r1 && end_anchored r2
  | _ => false
  end.

(** A tree of three files: the root includes /b.yml under two blanks. *)
Definition sys_tree : System :=
  Toy.system
    [("/root.yml", B "  !include: /b.yml");
     ("/b.yml", B "a: 1" ++ nl :: B "${FOO}" ++ nl :: B "c: ${FOO}");
     ("/cycle.yml", B "!include: /cycle.yml");
     ("/broken.yml", B "a: 1" ++ nl :: B "!include: /missing.yml")]
    [("FOO", "bar")].

(** [sys] with another environment and the same file system. *)
Definition with_env (sys : System) (lookup : bytes -> option bytes) : System :=
  {| LookupEnv := lookup;
     ReadFile := ReadFile sys;
     Exists := Exists sys;
     IsAbs := IsAbs sys;
     Join := Join sys;
     Abs := Abs sys;
     Dir := Dir sys |}.

(** The file [q], expanded at depth [d] with all the fuel that depth can
    use, expands without error. *)
Definition expansion_ok (sys : System) (q : bytes) (d : nat) : Prop :=
  err (RecursiveParseYAMLIncludes sys
         (S CONFIG_INCLUDE_RECURSION_DEPTH_LIMIT - d) q None d) = None.

(** While file [p] is expanded at depth [d], a directive that names [q]
    is reached: the directives before it in [p] expand without error. *)
Definition includes_at (sys : System) (d : nat) (p q : bytes) : Prop :=
  exists doc abs ms1 gap m ms2 tl,
    ReadFile sys p = Ok doc /\ Abs sys p = Ok abs
    /\ FindAll configIncludePattern doc = (ms1 ++ (gap, m) :: ms2, tl)
    /\ include_target sys (Dir sys abs) m = q
    /\ Forall (fun gm => expansion_ok sys (include_target sys (Dir sys abs) (snd gm))
                                      (d + 1)) ms1.

(** A file system in which every file includes another one, with a longer
    name: an include chain without end and without a cycle. *)
Definition sys_long : System :=
  {| LookupEnv := fun _ => None;
     ReadFile := fun p => Ok (B "!include: " ++ p ++ B "x");
     Exists := fun _ => true;
     IsAbs := fun _ => true;
     Join := fun d p => d ++ "/"%char :: p;
     Abs := fun p => Ok p;
     Dir := fun _ => B "/" |}.

(** Two expansions with the same error and the same contents. *)
Definition same_outcome (r1 r2 : expansion) : Prop :=
  err r1 = err r2 /\ contents r1 = contents r2.

(** The files of the endless chain of [sys_long]. *)
Definition long_chain (d : nat) : bytes := B "/a" ++ repeat "x"%char d.

(** ** What validation accepts *)

(** A user entry that passes the checks of the loop over the users. *)
Definition user_ok (entry : string * User) : Prop :=
  3 <= String.length (fst entry)
  /\ (if String.eqb (Password (snd entry)) ""
      then PasswordHashString (snd entry) <> ""
      else 6 <= String.length (Password (snd entry))).

Definition size_ok (column : Column) : Prop :=
  Size column = "small" \/ Size column = "full".

(** A page that passes the checks of the loop over the pages. *)
Definition page_ok (page : Page) : Prop :=
  Title page <> ""
  /\ width_ok (Width page) = true
  /\ width_ok (DesktopNavigationWidth page) = true
  /\ 1 <= length (Columns page)
     <= (if String.eqb (Width page) "slim" then 2 else 3)
  /\ Forall size_ok (Columns page)
  /\ 1 <= full_columns page <= 2.

Definition config_ok (sys : System) (config : Config) : Prop :=
  Pages config <> []
  /\ (Users (Auth config) <> [] -> SecretKey (Auth config) <> "")
  /\ Forall user_ok (Users (Auth config))
  /\ (AssetsPath (Server config) <> ""
      -> Exists sys (B (AssetsPath (Server config))) = true)
  /\ Forall page_ok (Pages config).

(** [config] with the users visited in another order, or other users. *)
Definition with_users (config : Config) (users : list (string * User)) : Config :=
  {| Server := Server config;
     Auth := {| SecretKey := SecretKey (Auth config); Users := users |};
     Pages := Pages config |}.

(** A configuration with two users and one page. *)
Definition two_users : Config :=
  {| Server := {| AssetsPath := "" |};
     Auth := {| SecretKey := "c2VjcmV0";
                Users := [ ("alice", {| Password := "hunter22"; PasswordHashString := "" |});
                           ("bob", {| Password := ""; PasswordHashString := "$2a$10$x" |}) ] |};
     Pages := [ {| Title := "Home"; Width := "slim"; DesktopNavigationWidth := "wide";
                   Columns := [ {| Size := "small" |}; {| Size := "full" |} ] |} ] |}.

(** A configuration whose second page has no title and whose third page
    has no columns. *)
Definition bad_second_page : Config :=
  {| Server := {| AssetsPath := "" |};
     Auth := {| SecretKey := ""; Users := [] |};
     Pages := [ {| Title := "Home"; Width := ""; DesktopNavigationWidth := "";
                   Columns := [ {| Size := "full" |} ] |};
                {| Title := ""; Width := ""; DesktopNavigationWidth := "";
                   Columns := [ {| Size := "full" |} ] |};
                {| Title := "Third"; Width := ""; DesktopNavigationWidth := "";
                   Columns := [] |} ] |}.

(** A decoder for the examples: it yields the same configuration for
    every text. *)
Definition decode_to (config : Config) (contents : bytes) : result Config :=
  Ok config.

(** The three known variable types. *)
Definition known_type (ty : bytes) : Prop :=
  ty = configVarTypeEnv \/ ty = configVarTypeSecret
  \/ ty = configVarTypeFileFromEnv.

(** Where a reference can stand to be matched: at the very start of the
    text, or after a character that is not a newline. *)
Definition reference_context (pre : bytes) : Prop :=
  pre = [] \/ exists c, last pre = Some c /\ c <> nl.

(** A system with a secret file, a key file named by a variable, and a
    variable whose value looks like a reference. *)
Definition sys_secret : System :=
  Toy.system
    [("/run/secrets/db-pass", B " s3cr3t" ++ [nl]);
     ("/etc/gander/key", B "k3y" ++ [nl])]
    [("KEY_FILE", "/etc/gander/key"); ("REL", "key"); ("NEST", "${A}")].

(** ** Package common: strings and slices *)

(** [strings.ToLower] on ASCII text. *)
Definition to_lower (c : ascii) : ascii :=
  if in_range "A" "Z" c then ascii_of_N (N_of_ascii c + 32) else c.

Definition ToLower (s : bytes) : bytes := map to_lower s.

Definition NormalizeVersionFormat (version : bytes) : bytes :=
  let version := ToLower (TrimSpace version) in
  match version with
  | c :: _ => if negb (Ascii.eqb c "v") then "v"%char :: version else version
  | [] => version
  end.

(** [re.ReplaceAllString(src, repl)] for a replacement text without a
    dollar sign (no group is expanded in it). *)
Definition ReplaceAllString (re : regex) (src repl : bytes) : bytes :=
  fst (ReplaceAllFunc re src (fun (st : unit) (_ : bytes) => (repl, st)) tt).

Definition lower_letter (c : ascii) : bool := in_range "a" "z" c.

(** The pattern [^[a-z]+:\/\/]. *)
Definition urlSchemePattern : regex :=
  Cat BeginText (Cat (Plus lower_letter) (Cat (Lit ":") (Cat (Lit "/") (Lit "/")))).

Definition StripURLScheme (url : bytes) : bytes :=
  ReplaceAllString urlSchemePattern url [].

(** The class [\s] of package regexp: tab, newline, form feed, carriage
    return and space. *)
Definition re_space (c : ascii) : bool :=
  Ascii.eqb c tab || Ascii.eqb c nl || Ascii.eqb c "012" || Ascii.eqb c "013"
  || Ascii.eqb c " ".

(** The pattern [\s+]. *)
Definition SequentialWhitespacePattern : regex := Plus re_space.

Fixpoint TrimLeftChar (cut : ascii) (s : bytes) : bytes :=
  match s with
  | c :: s' => if Ascii.eqb c cut then TrimLeftChar cut s' else s
  | [] => []
  end.

(** [strings.Trim(s, cutset)] for a cutset of one character. *)
Definition Trim (s : bytes) (cut : ascii) : bytes :=
  rev (TrimLeftChar cut (rev (TrimLeftChar cut s))).

Definition TitleToSlug (s : bytes) : bytes :=
  let s := ToLower s in
  let s := ReplaceAllString SequentialWhitespacePattern s (B "-") in
  Trim s "-".

(** [LimitStringLength] on the runes of the string; [None] is the panic
    of the slice expression when [max] is negative. *)
Definition LimitStringLength {rune : Type} (s : list rune) (max : Z)
  : option (list rune * bool) :=
  if (max <? Z.of_nat (length s))%Z then
    if (max <? 0)%Z then None
    else Some (take (Z.to_nat max) s, true)
  else Some (s, false).

(** The inner loop of [MaybeCopySliceWithoutZeroValues]: the values that
    are not zero, appended one by one. *)
Fixpoint append_nonzero (c values : list Z) : list Z :=
  match values with
  | [] => c
  | v :: values' =>
      append_nonzero (if (v =? 0)%Z then c else c ++ [v]) values'
  end.

(** The outer loop, at the values still to visit: at the first zero the
    copy is made and returned. *)
Fixpoint copy_at_first_zero (values rest : list Z) : list Z :=
  match rest with
  | [] => values
  | v :: rest' =>
      if negb (v =? 0)%Z then copy_at_first_zero values rest'
      else append_nonzero [] values
  end.

(** [MaybeCopySliceWithoutZeroValues] at type int. *)
Definition MaybeCopySliceWithoutZeroValues (values : list Z) : list Z :=
  if length values =? 0 then values else copy_at_first_zero values values.

(** ** Forms of an include directive *)

(** The preferred thread of a pattern at a position. *)
Definition head_thread (r : regex) (prev : option ascii) (s : bytes) (t : thread)
  : Prop :=
  exists l, run r prev s = t :: l.

(** A directive line: the indentation, an optional list dash with the
    blanks after it, the mark ([!] or [$]), the blanks after the colon
    and the path. *)
Definition directive (indent dash : bytes) (mark : ascii) (ws path : bytes)
  : bytes :=
  indent ++ dash ++ mark :: B "include:" ++ ws ++ path.

Definition list_dash (dash : bytes) : Prop :=
  dash = [] \/ exists w, dash = "-"%char :: w /\ Forall (fun c => blank c = true) w.

(** ** The watcher of the configuration files *)

(** The calls made on the fsnotify watcher. *)
Inductive watcher_call : Type :=
| WatcherRemove (filePath : bytes)
| WatcherAdd (filePath : bytes).

(** What the watcher code does that is seen from outside, in order:
    calls on the fsnotify watcher, lines written to the log, and the two
    callbacks. *)
Inductive effect : Type :=
| Call (c : watcher_call)
| Log (filePath : bytes) (e : error)
| OnChange (newContents : bytes)
| OnErr (e : error).

(** The variables [lastContents] and [lastIncludes] the closures share. *)
Record watcher_state : Type := {
  lastContents : bytes;
  lastIncludes : gset bytes
}.

(** An fsnotify event: the name and the operations of its bit mask that
    the loop looks at. *)
Record Event : Type := {
  Name : bytes;
  HasWrite : bool;
  HasRename : bool;
  HasRemove : bool
}.

Section Watcher.

Variable sys : System.

(** The error [watcher.Add] returns for a path, if any. *)
Variable addErr : bytes -> option error.

(** The closure [updateWatchedFiles].  The two loops range over maps,
    in an order Go leaves open; [elements] fixes one. *)
Definition updateWatchedFiles (previousWatched newWatched : gset bytes)
  : list effect :=
  map (fun filePath => Call (WatcherRemove filePath))
      (List.filter (fun filePath => negb (bool_decide (filePath ∈ newWatched)))
                   (elements previousWatched))
  ++ flat_map
       (fun filePath =>
          Call (WatcherAdd filePath)
          :: match addErr filePath with
             | Some e => [Log filePath e]
             | None => []
             end)
       (List.filter (fun filePath => negb (bool_decide (filePath ∈ previousWatched)))
                    (elements newWatched)).

(** The closure [parseAndCompareBeforeCallback]. *)
Definition parseAndCompareBeforeCallback (mainFilePath mainFileAbsPath : bytes)
    (st : watcher_state) : watcher_state * list effect :=
  let r := ParseYAMLIncludes sys mainFilePath in
  match err r with
  | Some e =>
      (st, [OnErr ("parsing main file contents for comparison: " +:+ e)])
  | None =>
      let currentContents := contents r in
      let currentIncludes := {[mainFileAbsPath]} ∪ default ∅ (includes r) in
      let '(includes', calls) :=
        if negb (bool_decide (currentIncludes = lastIncludes st))
        then (currentIncludes, updateWatchedFiles (lastIncludes st) currentIncludes)
        else (lastIncludes st, []) in
      let '(contents', changed) :=
        if negb (bool_decide (lastContents st = currentContents))
        then (currentContents, [OnChange currentContents])
        else (lastContents st, []) in
      ({| lastContents := contents'; lastIncludes := includes' |},
       calls ++ changed)
  end.

(** The closure [deleteLastInclude]; the error of [filepath.Abs] is
    dropped, and the path is then empty. *)
Definition deleteLastInclude (st : watcher_state) (filePath : bytes)
  : watcher_state :=
  let fileAbsPath :=
    match Abs sys filePath with
    | Ok a => a
    | Err _ => []
    end in
  {| lastContents := lastContents st;
     lastIncludes := lastIncludes st ∖ {[fileAbsPath]} |}.

(** One turn of the event loop on an event of the watcher: the state
    after it, and whether the debounced reload was asked for. *)
Definition handle_event (st : watcher_state) (event : Event)
  : watcher_state * bool :=
  if HasWrite event then (st, true)
  else if HasRename event then (deleteLastInclude st (Name event), true)
  else if HasRemove event then (deleteLastInclude st (Name event), true)
  else (st, false).

(** [ConfigFilesWatcher] up to its return: the state the closures start
    from and what was done; [newWatcherErr] is the error of
    [fsnotify.NewWatcher], if any. *)
Definition ConfigFilesWatcher (newWatcherErr : option error)
    (mainFilePath lastContents0 : bytes) (lastIncludes0 : gset bytes)
  : result (watcher_state * list effect) :=
  match Abs sys mainFilePath with
  | Err e => Err ("getting absolute path of main file: " +:+ e)
  | Ok mainFileAbsPath =>
      let lastIncludes1 := {[mainFileAbsPath]} ∪ lastIncludes0 in
      match newWatcherErr with
      | Some e => Err ("creating watcher: " +:+ e)
      | None =>
          Ok ({| lastContents := lastContents0; lastIncludes := lastIncludes1 |},
              updateWatchedFiles ∅ lastIncludes1 ++ [OnChange lastContents0])
      end
  end.

End Watcher.

(** ** Package auth: session tokens *)

Definition AUTH_TOKEN_SECRET_LENGTH : nat := 32.
Definition AUTH_USERNAME_HASH_LENGTH : nat := 32.
Definition AUTH_SECRET_KEY_LENGTH : nat :=
  AUTH_TOKEN_SECRET_LENGTH + AUTH_USERNAME_HASH_LENGTH.
Definition AUTH_TIMESTAMP_LENGTH : nat := 4.
Definition AUTH_TOKEN_DATA_LENGTH : nat :=
  AUTH_USERNAME_HASH_LENGTH + AUTH_TIMESTAMP_LENGTH.

(** A [time.Time] is the number of nanoseconds since the epoch; a
    [time.Duration] is a number of nanoseconds. *)
Definition second : Z := 1000000000.
Definition AUTH_TOKEN_VALID_PERIOD : Z := 14 * 24 * 3600 * second.
Definition AUTH_TOKEN_REGEN_BEFORE : Z := 7 * 24 * 3600 * second.

(** [t.Unix()]. *)
Definition Unix (t : Z) : Z := (t / second)%Z.

(** The conversion [uint32(x)] of an int64. *)
Definition uint32 (x : Z) : Z := (x mod 2 ^ 32)%Z.

Definition byte_of_Z (z : Z) : ascii := ascii_of_N (Z.to_N z).
Definition Z_of_byte (c : ascii) : Z := Z.of_N (N_of_ascii c).

(** [binary.LittleEndian.PutUint32], as the four bytes written. *)
Definition PutUint32 (v : Z) : bytes :=
  [byte_of_Z (v mod 256); byte_of_Z ((v / 2 ^ 8) mod 256);
   byte_of_Z ((v / 2 ^ 16) mod 256); byte_of_Z ((v / 2 ^ 24) mod 256)]%Z.

(** [binary.LittleEndian.Uint32] on a slice of at least four bytes. *)
Definition Uint32 (b : bytes) : Z :=
  match b with
  | b0 :: b1 :: b2 :: b3 :: _ =>
      (Z_of_byte b0 + Z_of_byte b1 * 2 ^ 8 + Z_of_byte b2 * 2 ^ 16
       + Z_of_byte b3 * 2 ^ 24)%Z
  | _ => 0%Z
  end.

Definition zero_byte : ascii := "000"%char.

Definition secret_length_error : error :=
  "secret key length is not " +:+ pretty AUTH_SECRET_KEY_LENGTH +:+ " bytes".

Section Auth.

(** HMAC-SHA256 of a message under a key, and the standard base64
    encoding with its decoder. *)
Variable hmac_sha256 : bytes -> bytes -> bytes.
Variable EncodeToString : bytes -> bytes.
Variable DecodeString : bytes -> result bytes.

Definition ComputeUsernameHash (username secret : bytes) : result bytes :=
  if negb (length secret =? AUTH_SECRET_KEY_LENGTH) then Err secret_length_error
  else Ok (hmac_sha256 (drop AUTH_TOKEN_SECRET_LENGTH secret) username).

Definition GenerateSessionToken (username secret : bytes) (now : Z)
  : result bytes :=
  if negb (length secret =? AUTH_SECRET_KEY_LENGTH) then Err secret_length_error
  else
    match ComputeUsernameHash username secret with
    | Err e => Err e
    | Ok usernameHash =>
        (* copy(data, usernameHash) into the zeroed buffer *)
        let data :=
          take AUTH_TOKEN_DATA_LENGTH
               (usernameHash ++ repeat zero_byte AUTH_TOKEN_DATA_LENGTH) in
        let expires := Unix (now + AUTH_TOKEN_VALID_PERIOD) in
        let data :=
          take AUTH_USERNAME_HASH_LENGTH data ++ PutUint32 (uint32 expires) in
        let signature :=
          hmac_sha256 (take AUTH_TOKEN_SECRET_LENGTH secret) data in
        Ok (EncodeToString (data ++ signature))
    end.

Definition VerifySessionToken (token secretBytes : bytes) (now : Z)
  : result (bytes * bool) :=
  match DecodeString token with
  | Err e => Err e
  | Ok tokenBytes =>
      if negb (length tokenBytes =? AUTH_TOKEN_DATA_LENGTH + 32) then
        Err "token length is invalid"
      else if negb (length secretBytes =? AUTH_SECRET_KEY_LENGTH) then
        Err secret_length_error
      else
        let usernameHashBytes := take AUTH_USERNAME_HASH_LENGTH tokenBytes in
        let timestampBytes :=
          take AUTH_TIMESTAMP_LENGTH (drop AUTH_USERNAME_HASH_LENGTH tokenBytes) in
        let providedSignatureBytes := drop AUTH_TOKEN_DATA_LENGTH tokenBytes in
        let expectedSignatureBytes :=
          hmac_sha256 (take 32 secretBytes)
                      (take AUTH_TOKEN_DATA_LENGTH tokenBytes) in
        if negb (bool_decide (expectedSignatureBytes = providedSignatureBytes))
        then Err "signature does not match"
        else
          let expiresTimestamp := Uint32 timestampBytes in
          if (expiresTimestamp <? Unix now)%Z then Err "token has expired"
          else
            Ok (usernameHashBytes,
                ((expiresTimestamp * second - AUTH_TOKEN_REGEN_BEFORE <? now)%Z))
  end.

End Auth.

(** * Properties *)

Example var_groups_plain :
  FindSubmatch configVariablePattern (B "a: ${FOO}")
  = [B " ${FOO}"; B " "; []; B "FOO"].
Proof. vm_compute. reflexivity. Qed.

Example var_groups_typed :
  FindSubmatch configVariablePattern (B "${secret:db-pass} x")
  = [B "${secret:db-pass}"; []; B "secret"; B "db-pass"].
Proof. vm_compute. reflexivity. Qed.

Example include_groups :
  FindSubmatch configIncludePattern (B "a: 1" ++ nl :: B "  - !include:  b.yml ")
  = [B "  - !include:  b.yml "; B "  "; B "b.yml "].
Proof. vm_compute. reflexivity. Qed.

Example scan_two :
  FindAll configVariablePattern (B "x${A}${B} ${C}.")
  = ([([], B "x${A}"); (B "${B}", B " ${C}")], B ".").
Proof. vm_compute. reflexivity. Qed.


(** ** Validation of the column sizes *)

Section ValidationFacts.

Variable sys : System.

Lemma append_assoc (a b c : string) : (a +:+ b) +:+ c = a +:+ (b +:+ c).
Proof. induction a as [|x a IH]; [reflexivity | exact (f_equal (String x) IH)]. Qed.

Lemma names_page_head i rest : names_page i ("page " +:+ pretty (i + 1) +:+ rest).
Proof. exists "", rest. exact (eq_sym (append_assoc _ _ _)). Qed.

Lemma first_error_None {A : Type} (body : nat -> A -> option error) l :
  forall k, first_error body k l = None ->
  forall i x, l !! i = Some x -> body (k + i) x = None.
Proof.
  induction l as [|y l IH]; intros k H i x Hi; [discriminate|].
  simpl in H. destruct (body k y) eqn:Hy; [discriminate|].
  destruct i as [|i]; simpl in Hi.
  - injection Hi as <-. now rewrite Nat.add_0_r.
  - replace (k + S i) with (S k + i) by lia. now apply IH.
Qed.

Lemma first_error_Some {A : Type} (body : nat -> A -> option error) l :
  forall k i x e, l !! i = Some x -> body (k + i) x = Some e ->
  exists e', first_error body k l = Some e'.
Proof.
  induction l as [|y l IH]; intros k i x e Hi Hx; [discriminate|].
  simpl. destruct (body k y) eqn:Hy; [eauto|].
  destruct i as [|i]; simpl in Hi.
  - injection Hi as <-. rewrite Nat.add_0_r in Hx. congruence.
  - apply (IH (S k) i x e Hi). now replace (S k + i) with (k + S i) by lia.
Qed.

(** The counter under "full" ends up at the number of "full" columns. *)
Lemma count_column_sizes_full i columns :
  forall j (m m' : gmap string nat),
    count_column_sizes i j columns m = Ok m' ->
    default 0 (m' !! "full")
    = default 0 (m !! "full")
      + length (filter (fun column => Size column = "full") columns).
Proof.
  induction columns as [|c columns IH]; intros j m m' H; simpl in H.
  - injection H as <-. simpl. lia.
  - destruct (negb (Size c =? "small")%string && negb (Size c =? "full")%string);
      [discriminate|].
    apply IH in H. rewrite H. rewrite filter_cons.
    destruct (decide (Size c = "full")) as [Hc|Hc].
    + rewrite Hc, lookup_insert_eq. simpl. lia.
    + rewrite lookup_insert_ne by done. reflexivity.
Qed.

Lemma count_column_sizes_error i columns :
  forall j (m : gmap string nat) e,
    count_column_sizes i j columns m = Err e -> names_page i e.
Proof.
  induction columns as [|c columns IH]; intros j m e H; simpl in H;
    [discriminate|].
  destruct (negb (Size c =? "small")%string && negb (Size c =? "full")%string).
  - injection H as <-.
    exists ("column " +:+ pretty (j + 1) +:+ " of "),
           ": size can only be either small or full".
    now rewrite !append_assoc.
  - eauto.
Qed.

Lemma count_column_sizes_ok i columns :
  Forall (fun column => Size column = "small" \/ Size column = "full") columns ->
  forall j (m : gmap string nat),
  exists m', count_column_sizes i j columns m = Ok m'.
Proof.
  induction 1 as [|c l Hc _ IH]; intros j m; simpl; [eauto|].
  destruct Hc as [-> | ->]; simpl; apply IH.
Qed.

Lemma validate_page_names i page e :
  validate_page i page = Some e -> names_page i e.
Proof.
  unfold validate_page, full_count_error.
  repeat match goal with
         | |- context [if ?b then _ else _] => destruct b
         | |- context [match count_column_sizes ?i ?j ?c ?m with _ => _ end] =>
             destruct (count_column_sizes i j c m) eqn:Hcount
         end;
    intros [= <-]; eauto using names_page_head, count_column_sizes_error.
Qed.

Lemma validate_page_full i page :
  validate_page i page = None ->
  full_columns page = 1 \/ full_columns page = 2.
Proof.
  unfold validate_page, full_columns. intros H.
  destruct (count_column_sizes i 0 (Columns page) ∅) as [m|e] eqn:Hcount.
  - apply count_column_sizes_full in Hcount.
    rewrite lookup_empty in Hcount. simpl in Hcount. rewrite Hcount in H.
    set (n := length _) in *.
    destruct (2 <? n) eqn:H2; destruct (n =? 0) eqn:H0; simpl in H;
      repeat match type of H with
             | context [if ?b then _ else _] => destruct b
             end; try discriminate H;
      apply Nat.ltb_ge in H2; apply Nat.eqb_neq in H0; lia.
  - repeat match type of H with
           | context [if ?b then _ else _] => destruct b
           end; discriminate H.
Qed.

(** A page that passes every other check and has no or too many "full"
    columns is refused with the message of the count check. *)
Lemma validate_page_count_message i page :
  Title page <> "" ->
  width_ok (Width page) = true ->
  width_ok (DesktopNavigationWidth page) = true ->
  0 < length (Columns page) <= (if String.eqb (Width page) "slim" then 2 else 3) ->
  Forall (fun column => Size column = "small" \/ Size column = "full")
         (Columns page) ->
  full_columns page = 0 \/ 2 < full_columns page ->
  validate_page i page = Some (full_count_error i).
Proof.
  intros Ht Hw Hd Hlen Hsizes Hfull. unfold validate_page.
  apply String.eqb_neq in Ht. rewrite Ht, Hw, Hd. simpl.
  destruct (length (Columns page) =? 0) eqn:H0;
    [apply Nat.eqb_eq in H0; lia|].
  destruct (count_column_sizes_ok i _ Hsizes 0 ∅) as [m Hm]. rewrite Hm.
  apply count_column_sizes_full in Hm. rewrite lookup_empty in Hm.
  simpl in Hm. rewrite Hm. fold (full_columns page).
  assert (Hbad : (2 <? full_columns page) || (full_columns page =? 0) = true).
  { destruct Hfull as [-> | H2]; [reflexivity|].
    apply Nat.ltb_lt in H2. now rewrite H2. }
  rewrite Hbad.
  destruct (Width page =? "slim")%string.
  - destruct (2 <? length (Columns page)) eqn:H2; [|reflexivity].
    apply Nat.ltb_lt in H2. lia.
  - destruct (3 <? length (Columns page)) eqn:H3; [|reflexivity].
    apply Nat.ltb_lt in H3. lia.
Qed.

(** C8. For every decoded configuration and every page in it: when
    validation succeeds the page has exactly one or two columns of size
    "full"; a page with none or with more than two is refused by its
    own check with an error that names the page, and the configuration
    is rejected. *)
Theorem IsConfigStateValid_full_columns (config : Config) (i : nat) (page : Page) :
  Pages config !! i = Some page ->
  (IsConfigStateValid sys config = None ->
   full_columns page = 1 \/ full_columns page = 2)
  /\ (full_columns page = 0 \/ 2 < full_columns page ->
      (exists e, validate_page i page = Some e /\ names_page i e)
      /\ exists e, IsConfigStateValid sys config = Some e).
Proof.
  intros Hpage.
  assert (Hvalid : IsConfigStateValid sys config = None ->
                   validate_page i page = None).
  { unfold IsConfigStateValid.
    repeat match goal with
           | |- context [if ?b then _ else _] => destruct b
           | |- context [match first_error validate_user ?k ?l with _ => _ end] =>
               destruct (first_error validate_user k l)
           end; try discriminate;
      intros H; apply (first_error_None _ _ 0 H i page Hpage). }
  split.
  - intros H. apply (validate_page_full i), Hvalid, H.
  - intros Hbad.
    destruct (validate_page i page) as [e|] eqn:He.
    + split; [eauto using validate_page_names|].
      destruct (IsConfigStateValid sys config) as [e'|] eqn:Hc; [eauto|].
      specialize (Hvalid eq_refl). congruence.
    + apply validate_page_full in He. lia.
Qed.

End ValidationFacts.

Lemma IsConfigStateValid_full_columns_witness :
  let sys := Toy.system [] [] in
  (full_columns (nth 0 (Pages one_full_one_small) (Build_Page "" "" "" [])) = 1
   \/ full_columns (nth 0 (Pages one_full_one_small) (Build_Page "" "" "" [])) = 2)
  /\ exists e, IsConfigStateValid sys three_full = Some e.
Proof.
  intros sys. split.
  - apply (proj1 (IsConfigStateValid_full_columns sys one_full_one_small 0 _ eq_refl)).
    vm_compute. reflexivity.
  - apply (proj2 (IsConfigStateValid_full_columns sys three_full 1 _ eq_refl)).
    right. vm_compute. lia.
Defined.

(** ** The matcher and the matching relation *)

Section RegexpFacts.

Lemma star_nil p s : In ([], s) (star p s).
Proof.
  destruct s as [|c s]; simpl; [now left|].
  destruct (p c); [apply in_or_app; right|]; now left.
Qed.

Lemma in_star p s m rest :
  In (m, rest) (star p s) <-> s = m ++ rest /\ Forall (fun c => p c = true) m.
Proof.
  split.
  - revert m rest. induction s as [|c s IH]; intros m rest H; simpl in H.
    + destruct H as [[= <- <-]|[]]. now split.
    + destruct (p c) eqn:Hc.
      * apply in_app_or in H. destruct H as [H|[[= <- <-]|[]]]; [|now split].
        apply in_map_iff in H. destruct H as [[m' rest'] [[= <- <-] H]].
        apply IH in H. destruct H as [-> H]. split; [reflexivity|].
        now constructor.
      * destruct H as [[= <- <-]|[]]. now split.
  - intros [-> H]. induction H as [|c m Hc _ IH]; simpl; [apply star_nil|].
    rewrite Hc. apply in_or_app. left.
    apply in_map_iff. exists (m, rest). now split.
Qed.

Lemma in_plus p s m rest :
  In (m, rest) (plus p s)
  <-> s = m ++ rest /\ m <> [] /\ Forall (fun c => p c = true) m.
Proof.
  split.
  - destruct s as [|c s]; simpl; [intros []|].
    destruct (p c) eqn:Hc; [|intros []]. intros H.
    apply in_map_iff in H. destruct H as [[m' rest'] [[= <- <-] H]].
    apply in_star in H. destruct H as [-> H].
    split; [reflexivity|]. split; [discriminate|]. now constructor.
  - intros (-> & Hne & H). destruct H as [|c m Hc H]; [congruence|].
    simpl. rewrite Hc. apply in_map_iff. exists (m, rest).
    split; [reflexivity|]. now apply in_star.
Qed.

Lemma ascii_eqb_true a b : Ascii.eqb a b = true -> a = b.
Proof. apply Ascii.eqb_eq. Qed.

(** [run] lists the threads of the matching relation, and only those. *)
Lemma run_matches r :
  forall prev s m rest g,
    In (m, rest, g) (run r prev s) <-> matches r prev s m rest g.
Proof.
  induction r as [| | | |c|p|r1 IH1 r2 IH2|r1 IH1 r2 IH2|r1 IH1|p|p|n r1 IH1];
    intros prev s m rest g; simpl.
  - split.
    + destruct prev; [intros []|]. intros [[= <- <- <-]|[]]. constructor.
    + inversion 1; subst. now left.
  - split.
    + destruct prev as [c|].
      * destruct (Ascii.eqb c nl) eqn:Hc; [|intros []].
        apply ascii_eqb_true in Hc. subst c.
        intros [[= <- <- <-]|[]]. constructor.
      * intros [[= <- <- <-]|[]]. constructor.
    + inversion 1; subst; [now left|]. rewrite Ascii.eqb_refl. now left.
  - split.
    + destruct s; [|intros []]. intros [[= <- <- <-]|[]]. constructor.
    + inversion 1; subst. now left.
  - split.
    + destruct s as [|c s].
      * intros [[= <- <- <-]|[]]. constructor.
      * destruct (Ascii.eqb c nl) eqn:Hc; [|intros []].
        apply ascii_eqb_true in Hc. subst c.
        intros [[= <- <- <-]|[]]. constructor.
    + inversion 1; subst; [now left|]. rewrite Ascii.eqb_refl. now left.
  - split.
    + destruct s as [|c' s]; [intros []|].
      destruct (Ascii.eqb c' c) eqn:Hc; [|intros []].
      apply ascii_eqb_true in Hc. subst c'.
      intros [[= <- <- <-]|[]]. constructor.
    + inversion 1; subst. rewrite Ascii.eqb_refl. now left.
  - split.
    + destruct s as [|c' s]; [intros []|].
      destruct (p c') eqn:Hc; [|intros []].
      intros [[= <- <- <-]|[]]. now constructor.
    + inversion 1 as [| | | | | | |? ? ? ? Hp| | | | | | | |]; subst.
      rewrite Hp. now left.
  - rewrite in_flat_map. split.
    + intros [[[m1 s1] g1] [H1 H2]].
      apply in_map_iff in H2. destruct H2 as [[[m2 s2] g2] [[= <- <- <-] H2]].
      apply IH1 in H1. apply IH2 in H2. econstructor; eassumption.
    + inversion 1; subst. exists (m1, s1, g1). split; [now apply IH1|].
      apply in_map_iff. exists (m2, rest, g2). split; [reflexivity|].
      now apply IH2.
  - rewrite in_app_iff, IH1, IH2. split.
    + intros [H|H]; [now apply M_Alt_l | now apply M_Alt_r].
    + inversion 1; subst; auto.
  - rewrite in_app_iff, IH1. split.
    + intros [H|[[= <- <- <-]|[]]]; [now apply M_Quest_some | apply M_Quest_none].
    + inversion 1; subst; [now left | right; now left].
  - rewrite in_map_iff. split.
    + intros [[m' rest'] [[= <- <- <-] H]].
      apply in_star in H. destruct H as [-> H]. now constructor.
    + inversion 1; subst. exists (m, rest). split; [reflexivity|].
      now apply in_star.
  - rewrite in_map_iff. split.
    + intros [[m' rest'] [[= <- <- <-] H]].
      apply in_plus in H. destruct H as (-> & Hne & H). now constructor.
    + inversion 1; subst. exists (m, rest). split; [reflexivity|].
      now apply in_plus.
  - rewrite in_map_iff. split.
    + intros [[[m' rest'] g'] [[= <- <- <-] H]].
      apply IH1 in H. now constructor.
    + inversion 1; subst. exists (m, rest, g0). split; [reflexivity|].
      now apply IH1.
Qed.

(** A match splits the text ahead. *)
Lemma matches_split r prev s m rest g :
  matches r prev s m rest g -> s = m ++ rest.
Proof.
  induction 1; subst; simpl; try reflexivity.
  now rewrite <- app_assoc.
Qed.

Lemma M_Cat_eq prev r1 r2 s m1 s1 g1 m2 s2 g2 m g :
  matches r1 prev s m1 s1 g1 ->
  matches r2 (prev_after prev m1) s1 m2 s2 g2 ->
  m = m1 ++ m2 -> g = g1 ++ g2 ->
  matches (Cat r1 r2) prev s m s2 g.
Proof. intros H1 H2 -> ->. econstructor; eassumption. Qed.

Lemma M_Star_eq prev p s m rest :
  s = m ++ rest -> Forall (fun c => p c = true) m ->
  matches (Star p) prev s m rest [].
Proof. intros ->. apply M_Star. Qed.

Lemma M_Plus_eq prev p s m rest :
  s = m ++ rest -> m <> [] -> Forall (fun c => p c = true) m ->
  matches (Plus p) prev s m rest [].
Proof. intros ->. apply M_Plus. Qed.

Lemma run_nil r prev s :
  run r prev s = [] <-> forall m rest g, ~ matches r prev s m rest g.
Proof.
  split.
  - intros H m rest g Hm. apply run_matches in Hm. now rewrite H in Hm.
  - intros H. destruct (run r prev s) as [|[[m rest] g] l] eqn:Hr; [reflexivity|].
    exfalso. apply (H m rest g), run_matches. rewrite Hr. now left.
Qed.

Lemma run_head r prev s m rest g l :
  run r prev s = (m, rest, g) :: l -> matches r prev s m rest g.
Proof. intros H. apply run_matches. rewrite H. now left. Qed.

End RegexpFacts.

(** ** The variable pattern *)

Ltac inv_matches :=
  repeat match goal with
         | H : matches ?r _ _ _ _ _ |- _ =>
             lazymatch r with
             | Cat _ _ => idtac | Alt _ _ => idtac | Quest _ => idtac
             | Capture _ _ => idtac | Lit _ => idtac | Class _ => idtac
             | Star _ => idtac | Plus _ => idtac | BeginText => idtac
             | BeginLine => idtac | EndText => idtac | EndLine => idtac
             end;
             inversion H; subst; clear H
         end.

Section VariablePattern.

(** Two texts cut at the first character outside a class are equal
    piece by piece. *)
Lemma app_sep_inj (P : ascii -> Prop) w1 w2 c1 c2 (r1 r2 : bytes) :
  Forall P w1 -> Forall P w2 -> ~ P c1 -> ~ P c2 ->
  w1 ++ c1 :: r1 = w2 ++ c2 :: r2 ->
  w1 = w2 /\ c1 = c2 /\ r1 = r2.
Proof.
  intros H1. revert w2. induction H1 as [|x w1 Hx _ IH]; intros w2 H2 N1 N2 E.
  - destruct H2 as [|y w2 Hy _]; simpl in E.
    + injection E as -> ->. auto.
    + injection E as -> _. contradiction.
  - destruct H2 as [|y w2 Hy H2]; simpl in E.
    + injection E as -> _. contradiction.
    + injection E as -> E. destruct (IH w2 H2 N1 N2 E) as (-> & -> & ->). auto.
Qed.

Lemma letter_name_char c : letter c = true -> name_char c = true.
Proof. unfold letter, name_char. intros ->. reflexivity. Qed.

Lemma valid_type_name_chars ty :
  valid_type ty -> Forall (fun c => name_char c = true) ty.
Proof.
  intros H. eapply Forall_impl; [exact H|]. exact letter_name_char.
Qed.

Lemma var_inv prev s m rest g :
  matches configVariablePattern prev s m rest g ->
  exists pfx ty name,
    m = pfx ++ placeholder ty name /\ context_ok prev pfx
    /\ valid_type ty /\ valid_name name
    /\ group g 1 = pfx /\ group g 2 = ty /\ group g 3 = name.
Proof.
  unfold configVariablePattern. intros H. inv_matches.
  all: lazymatch goal with
       | Hn : Forall (fun c => name_char c = true) ?name,
         Ht : Forall (fun c => letter c = true) ?ty
         |- context [[(1, ?pfx)]] => exists pfx, ty, name
       | Hn : Forall (fun c => name_char c = true) ?name
         |- context [[(1, ?pfx)]] => exists pfx, [], name
       end.
  all: repeat split; auto; try (now constructor).
  all: try (left; now split).
  all: try (right; eexists; split; [reflexivity|]; intros ->; discriminate).
  all: match goal with
       | H : ?ty <> [] |- context [placeholder ?ty _] =>
           destruct ty; [congruence|]; unfold placeholder; simpl;
           rewrite <- !app_assoc; reflexivity
       end.
Qed.

Lemma placeholder_app ty name rest :
  placeholder ty name ++ rest
  = "$"%char :: "{"%char :: typed_name ty name ++ "}"%char :: rest.
Proof. unfold placeholder. simpl. now rewrite <- app_assoc. Qed.

Lemma var_name_intro prev name rest :
  valid_name name ->
  matches (Cat (Capture 3 (Plus name_char)) (Lit "}"))
          prev (name ++ "}"%char :: rest) (name ++ ["}"%char]) rest
          [(3, name)].
Proof.
  intros [Hne Hname].
  apply (M_Cat_eq _ _ _ _ name ("}"%char :: rest) [(3, name)] ["}"%char] rest []);
    [|apply M_Lit|reflexivity|reflexivity].
  apply M_Capture, M_Plus; assumption.
Qed.

Lemma var_body_intro prev ty name rest :
  valid_type ty -> valid_name name ->
  exists g,
    matches
      (Cat (Lit "$")
        (Cat (Lit "{")
          (Cat (Quest (Cat (Capture 2 (Plus letter)) (Lit ":")))
               (Cat (Capture 3 (Plus name_char)) (Lit "}")))))
      prev (placeholder ty name ++ rest) (placeholder ty name) rest g.
Proof.
  intros Hty Hname. rewrite placeholder_app. unfold placeholder.
  assert (Hbody : exists g,
    matches (Cat (Quest (Cat (Capture 2 (Plus letter)) (Lit ":")))
                 (Cat (Capture 3 (Plus name_char)) (Lit "}")))
            (Some "{"%char) (typed_name ty name ++ "}"%char :: rest)
            (typed_name ty name ++ ["}"%char]) rest g).
  { destruct ty as [|t ty]; simpl typed_name.
    - eexists.
      apply (M_Cat_eq _ _ _ _ [] (name ++ "}"%char :: rest) [] (name ++ ["}"%char])
               rest [(3, name)]);
        [apply M_Quest_none|now apply var_name_intro|reflexivity|reflexivity].
    - eexists.
      apply (M_Cat_eq _ _ _ _ (t :: ty ++ [":"%char]) (name ++ "}"%char :: rest)
               [(2, t :: ty)] (name ++ ["}"%char]) rest [(3, name)]);
        [|now apply var_name_intro| |reflexivity].
      + apply M_Quest_some.
        apply (M_Cat_eq _ _ _ _ (t :: ty) (":"%char :: name ++ "}"%char :: rest)
                 [(2, t :: ty)] [":"%char] (name ++ "}"%char :: rest) []);
          [|apply M_Lit|reflexivity|reflexivity].
        apply M_Capture, M_Plus_eq; [|discriminate|exact Hty].
        simpl. now rewrite <- app_assoc.
      + simpl. now rewrite <- !app_assoc. }
  destruct Hbody as [g Hg]. eexists.
  eapply (M_Cat_eq _ _ _ _ ["$"%char] _ [] _ rest);
    [apply M_Lit| |reflexivity|reflexivity].
  eapply (M_Cat_eq _ _ _ _ ["{"%char] _ [] _ rest);
    [apply M_Lit|exact Hg|reflexivity|reflexivity].
Qed.

(** The variable pattern never matches the empty text. *)
Lemma var_match_nonempty prev s m rest g :
  matches configVariablePattern prev s m rest g -> m <> [].
Proof.
  intros H. destruct (var_inv _ _ _ _ _ H) as (pfx & ty & name & -> & _).
  unfold placeholder. now destruct pfx.
Qed.

Lemma var_intro prev pfx ty name rest :
  context_ok prev pfx -> valid_type ty -> valid_name name ->
  exists g,
    matches configVariablePattern prev (pfx ++ placeholder ty name ++ rest)
            (pfx ++ placeholder ty name) rest g.
Proof.
  intros Hp Hty Hname. unfold configVariablePattern.
  destruct (var_body_intro (prev_after prev pfx) ty name rest Hty Hname)
    as [g Hg].
  eexists.
  eapply (M_Cat_eq _ _ _ _ pfx); [|exact Hg|reflexivity|reflexivity].
  apply M_Capture. destruct Hp as [[-> ->]|(c & -> & Hc)].
  - apply M_Alt_l, M_BeginText.
  - apply M_Alt_r, M_Class. unfold any_not_nl.
    destruct (Ascii.eqb_spec c nl); [contradiction|reflexivity].
Qed.

Lemma not_name_char_close : name_char "}" <> true.
Proof. discriminate. Qed.
Lemma not_name_char_colon : name_char ":" <> true.
Proof. discriminate. Qed.
Lemma not_letter_colon : letter ":" <> true.
Proof. discriminate. Qed.

(** A placeholder's text determines its type and its name. *)
Lemma placeholder_inj ty name rest ty' name' rest' :
  valid_type ty -> valid_name name -> valid_type ty' -> valid_name name' ->
  placeholder ty name ++ rest = placeholder ty' name' ++ rest' ->
  ty = ty' /\ name = name' /\ rest = rest'.
Proof.
  intros Hty [_ Hn] Hty' [_ Hn'] E. rewrite !placeholder_app in E.
  injection E as E.
  pose proof (valid_type_name_chars _ Hty) as Hc.
  pose proof (valid_type_name_chars _ Hty') as Hc'.
  destruct ty as [|t ty], ty' as [|t' ty']; simpl typed_name in E.
  - destruct (app_sep_inj _ _ _ _ _ _ _ Hn Hn' not_name_char_close
                not_name_char_close E) as (-> & _ & ->). auto.
  - simpl in E. rewrite <- app_assoc in E. simpl in E.
    destruct (app_sep_inj _ _ _ _ _ _ _ Hn Hc' not_name_char_close
                not_name_char_colon E) as (_ & [=] & _).
  - simpl in E. rewrite <- app_assoc in E. simpl in E.
    destruct (app_sep_inj _ _ _ _ _ _ _ Hc Hn' not_name_char_colon
                not_name_char_close E) as (_ & [=] & _).
  - simpl in E. rewrite <- !app_assoc in E. simpl in E.
    destruct (app_sep_inj _ _ _ _ _ _ _ Hty Hty' not_letter_colon
                not_letter_colon E) as (Et & _ & E').
    destruct (app_sep_inj _ _ _ _ _ _ _ Hn Hn' not_name_char_close
                not_name_char_close E') as (-> & _ & ->).
    rewrite Et. auto.
Qed.

Lemma context_unique prev prev' pfx pfx' ty name rest ty' name' rest' :
  context_ok prev pfx -> context_ok prev' pfx' ->
  pfx ++ placeholder ty name ++ rest = pfx' ++ placeholder ty' name' ++ rest' ->
  pfx = pfx'.
Proof.
  intros [[-> _]|(c & -> & _)] [[-> _]|(c' & -> & _)];
    rewrite !placeholder_app; simpl; intros [=]; subst; reflexivity.
Qed.

(** At a placeholder with its context, every thread of the pattern reads
    the same match and the same groups. *)
Lemma var_threads prev pfx ty name rest m rest' g :
  context_ok prev pfx -> valid_type ty -> valid_name name ->
  matches configVariablePattern prev (pfx ++ placeholder ty name ++ rest) m rest' g ->
  m = pfx ++ placeholder ty name /\ rest' = rest
  /\ group g 1 = pfx /\ group g 2 = ty /\ group g 3 = name.
Proof.
  intros Hp Hty Hn H.
  pose proof (matches_split _ _ _ _ _ _ H) as Hs.
  destruct (var_inv _ _ _ _ _ H) as (pfx' & ty' & name' & -> & Hp' & Hty' & Hn' & G1 & G2 & G3).
  rewrite <- app_assoc in Hs.
  pose proof (context_unique _ _ _ _ _ _ _ _ _ _ Hp Hp' Hs) as <-.
  apply app_inv_head in Hs.
  destruct (placeholder_inj _ _ _ _ _ _ Hty Hn Hty' Hn' Hs) as (<- & <- & <-).
  auto.
Qed.

Lemma var_run_head prev pfx ty name rest :
  context_ok prev pfx -> valid_type ty -> valid_name name ->
  exists g l,
    run configVariablePattern prev (pfx ++ placeholder ty name ++ rest)
    = (pfx ++ placeholder ty name, rest, g) :: l
    /\ group g 1 = pfx /\ group g 2 = ty /\ group g 3 = name.
Proof.
  intros Hp Hty Hn.
  destruct (run configVariablePattern prev (pfx ++ placeholder ty name ++ rest))
    as [|[[m rest'] g] l] eqn:Hr.
  - destruct (var_intro prev pfx ty name rest Hp Hty Hn) as [g Hg].
    apply run_matches in Hg. rewrite Hr in Hg. destruct Hg.
  - apply run_head in Hr.
    destruct (var_threads _ _ _ _ _ _ _ _ Hp Hty Hn Hr) as (-> & -> & G).
    eauto.
Qed.

Lemma search_cases re prev s t :
  search re prev s = Some t ->
  (exists l, run re prev s = t :: l)
  \/ (exists c s', s = c :: s' /\ run re prev s = []
                  /\ search re (Some c) s' = Some t).
Proof.
  destruct s as [|c s]; simpl; destruct (run re prev _) as [|t' l] eqn:Hr;
    intros H; try discriminate.
  - injection H as ->. eauto.
  - right. eauto.
  - injection H as ->. eauto.
Qed.

Lemma search_head re prev s t l :
  run re prev s = t :: l -> search re prev s = Some t.
Proof. intros H. destruct s; simpl; now rewrite H. Qed.

(** What the callback reads back from a match it is given. *)
Lemma FindSubmatch_placeholder pfx ty name :
  context_ok None pfx -> valid_type ty -> valid_name name ->
  FindSubmatch configVariablePattern (pfx ++ placeholder ty name)
  = [pfx ++ placeholder ty name; pfx; ty; name].
Proof.
  intros Hp Hty Hn.
  destruct (var_run_head None pfx ty name [] Hp Hty Hn) as (g & l & Hr & G1 & G2 & G3).
  rewrite app_nil_r in Hr. unfold FindSubmatch.
  rewrite (search_head _ _ _ _ _ Hr). simpl. now rewrite G1, G2, G3.
Qed.

End VariablePattern.

(** ** Scanning a text for the matches of a pattern *)

Section ScanFacts.

Variable re : regex.

Lemma prev_after_cons prev c m :
  prev_after prev (c :: m) = prev_after (Some c) m.
Proof.
  unfold prev_after. rewrite last_cons. now destruct (last m).
Qed.

Lemma prev_after_app prev a b :
  prev_after prev (a ++ b) = prev_after (prev_after prev a) b.
Proof.
  revert prev. induction a as [|c a IH]; intros prev; [reflexivity|].
  simpl. now rewrite !prev_after_cons, IH.
Qed.

Lemma add_gap_nil r : add_gap [] r = r.
Proof. now destruct r as [[|[gap m] ms] tl]. Qed.

Lemma add_gap_app a b r : add_gap a (add_gap b r) = add_gap (a ++ b) r.
Proof. destruct r as [[|[gap m] ms] tl]; simpl; now rewrite app_assoc. Qed.

Lemma scan_skip m : forall prev rest,
  scan re prev (m ++ rest) (length m) = scan re (prev_after prev m) rest 0.
Proof.
  induction m as [|c m IH]; intros prev rest; [reflexivity|].
  simpl. now rewrite IH, prev_after_cons.
Qed.

(** At a position where the pattern matches, the preferred thread is
    taken and the scan resumes after it. *)
Lemma scan_match prev s m rest g l :
  run re prev s = (m, rest, g) :: l -> m <> [] ->
  scan re prev s 0
  = let '(ms, tl) := scan re (prev_after prev m) rest 0 in (([], m) :: ms, tl).
Proof.
  intros Hr Hm. pose proof (matches_split _ _ _ _ _ _ (run_head _ _ _ _ _ _ _ Hr)) as ->.
  destruct m as [|c m]; [congruence|].
  change ((c :: m) ++ rest) with (c :: m ++ rest) in *.
  cbn [scan]. rewrite Hr. cbn [length]. rewrite Nat.sub_1_r. cbn [Nat.pred].
  now rewrite scan_skip, prev_after_cons.
Qed.

Lemma scan_no_match prev c s :
  run re prev (c :: s) = [] ->
  scan re prev (c :: s) 0 = add_gap [c] (scan re (Some c) s 0).
Proof.
  intros Hr. cbn [scan]. rewrite Hr.
  now destruct (scan re (Some c) s 0) as [[|[gap m] ms] tl].
Qed.

(** Text in which the pattern matches nowhere is passed over. *)
Lemma scan_gap pre : forall prev s,
  (forall p1 p2, pre = p1 ++ p2 -> p2 <> [] ->
                 run re (prev_after prev p1) (p2 ++ s) = []) ->
  scan re prev (pre ++ s) 0 = add_gap pre (scan re (prev_after prev pre) s 0).
Proof.
  induction pre as [|c pre IH]; intros prev s H.
  - now rewrite add_gap_nil.
  - change ((c :: pre) ++ s) with (c :: pre ++ s).
    rewrite scan_no_match by (apply (H [] (c :: pre)); [reflexivity|discriminate]).
    rewrite IH; [now rewrite add_gap_app, (prev_after_cons prev c pre)|].
    intros p1 p2 -> Hp2. rewrite <- (prev_after_cons prev).
    apply (H (c :: p1) p2); [reflexivity|assumption].
Qed.

Lemma scan_nil prev : scan re prev [] 0 = ([], []).
Proof. reflexivity. Qed.

(** Without a match anywhere the scan finds nothing. *)
Lemma search_none_scan s : forall prev,
  search re prev s = None -> scan re prev s 0 = ([], s).
Proof.
  induction s as [|c s IH]; intros prev H; [reflexivity|].
  simpl in H. destruct (run re prev (c :: s)) eqn:Hr; [|discriminate].
  rewrite scan_no_match by assumption. now rewrite (IH _ H).
Qed.

(** Every match the scan records is a non-empty match of the pattern
    at its position. *)
Lemma scan_sound s : forall prev skip gap m,
  In (gap, m) (fst (scan re prev s skip)) ->
  m <> [] /\ exists prev' rest g, matches re prev' (m ++ rest) m rest g.
Proof.
  induction s as [|c s IH]; intros prev skip gap m H.
  - destruct skip; destruct H.
  - destruct skip as [|k]; [|exact (IH _ _ _ _ H)].
    cbn [scan] in H.
    destruct (run re prev (c :: s)) as [|[[m' rest'] g'] l] eqn:Hr.
    + destruct (scan re (Some c) s 0) as [[|[gap' m''] ms] tl] eqn:Hs; [destruct H|].
      destruct H as [[= <- <-]|H].
      * apply (IH (Some c) 0 gap' m''). rewrite Hs. now left.
      * apply (IH (Some c) 0 gap m). rewrite Hs. now right.
    + destruct m' as [|d m'].
      * destruct (scan re (Some c) s 0) as [[|[gap' m''] ms] tl] eqn:Hs; [destruct H|].
        destruct H as [[= <- <-]|H].
        -- apply (IH (Some c) 0 gap' m''). rewrite Hs. now left.
        -- apply (IH (Some c) 0 gap m). rewrite Hs. now right.
      * destruct (scan re (Some c) s (length (d :: m') - 1)) as [ms tl] eqn:Hs.
        destruct H as [[= <- <-]|H].
        -- split; [discriminate|]. apply run_head in Hr.
           pose proof (matches_split _ _ _ _ _ _ Hr) as E.
           exists prev, rest', g'. now rewrite <- E.
        -- apply (IH (Some c) (length (d :: m') - 1) gap m). rewrite Hs. exact H.
Qed.

End ScanFacts.

(** ** Environment variables *)

Section EnvFacts.

Variable sys : System.

Lemma env_pattern_inv prev s m rest g :
  matches envVariableNamePattern prev s m rest g ->
  prev = None /\ m = s /\ rest = [] /\ env_name s.
Proof.
  unfold envVariableNamePattern. intros H. inv_matches.
  simpl. rewrite !app_nil_r. repeat split; assumption.
Qed.

Lemma env_pattern_spec name :
  MatchString envVariableNamePattern name = true <-> env_name name.
Proof.
  unfold MatchString. split.
  - destruct (search envVariableNamePattern None name) as [[[m rest] g]|] eqn:Hs;
      [intros _|discriminate].
    assert (Hnone : forall s c, search envVariableNamePattern (Some c) s = None).
    { induction s as [|d s IH]; intros c; simpl; [reflexivity|]. apply IH. }
    destruct (search_cases _ _ _ _ Hs) as [[l Hr]|(c & s' & -> & _ & Hs')].
    + apply run_head, env_pattern_inv in Hr. tauto.
    + now rewrite Hnone in Hs'.
  - intros [Hne Hall].
    assert (Hm : matches envVariableNamePattern None name name [] []).
    { unfold envVariableNamePattern.
      apply (M_Cat_eq _ _ _ _ [] name [] name [] []);
        [apply M_BeginText| |reflexivity|reflexivity].
      apply (M_Cat_eq _ _ _ _ name [] [] [] [] []);
        [|apply M_EndText|now rewrite app_nil_r|reflexivity].
      apply M_Plus_eq; [now rewrite app_nil_r|assumption..]. }
    apply run_matches in Hm.
    destruct (run envVariableNamePattern None name) as [|t l] eqn:Hr; [destruct Hm|].
    now rewrite (search_head _ _ _ _ _ Hr).
Qed.

Lemma env_pattern_false name :
  ~ env_name name -> MatchString envVariableNamePattern name = false.
Proof.
  intros H. destruct (MatchString envVariableNamePattern name) eqn:E; [|reflexivity].
  now apply env_pattern_spec in E.
Qed.

Lemma valid_name_of_env name : env_name name -> valid_name name.
Proof.
  intros [Hne H]. split; [assumption|]. eapply Forall_impl; [exact H|].
  intros c. unfold upper_digit_us, name_char.
  destruct (in_range "a" "z" c), (in_range "A" "Z" c), (in_range "0" "9" c),
    (Ascii.eqb c "_"); simpl; congruence.
Qed.

(** What the callback does with a match, by its context character. *)
Lemma variable_callback_escaped ty name :
  valid_type ty -> valid_name name ->
  variable_callback sys None (backslash :: placeholder ty name)
  = (placeholder ty name, None).
Proof.
  intros Hty Hn. unfold variable_callback.
  change (backslash :: placeholder ty name) with ([backslash] ++ placeholder ty name).
  rewrite FindSubmatch_placeholder; [reflexivity| |assumption..].
  right. exists backslash. split; [reflexivity|discriminate].
Qed.

Lemma variable_callback_plain pfx ty name :
  context_ok None pfx -> pfx <> [backslash] ->
  valid_type ty -> valid_name name ->
  variable_callback sys None (pfx ++ placeholder ty name)
  = match ParseConfigVariableOfType sys
            (Ternary (bool_decide (ty = [])) configVarTypeEnv ty) name with
    | (_, _, Some localErr) => ([], Some ("parsing variable: " +:+ localErr))
    | (parsedValue, returnOriginal, None) =>
        if returnOriginal then (pfx ++ placeholder ty name, None)
        else (pfx ++ parsedValue, None)
    end.
Proof.
  intros Hp Hb Hty Hn. unfold variable_callback.
  rewrite FindSubmatch_placeholder by assumption. cbn [length nth Nat.eqb negb].
  rewrite bool_decide_eq_false_2 by exact Hb. reflexivity.
Qed.

Lemma env_resolves name v :
  env_name name -> LookupEnv sys name = Some v ->
  ParseConfigVariableOfType sys configVarTypeEnv name = (v, false, None).
Proof.
  intros H Hl. unfold ParseConfigVariableOfType.
  rewrite bool_decide_eq_true_2 by reflexivity.
  apply env_pattern_spec in H. now rewrite H, Hl.
Qed.

(** C6. For an env-type reference: a name that is not of the strict form
    is left as it is, with no error (and the callback then returns the
    placeholder unchanged); a name of the strict form that is not in the
    environment fails with a "not found" error; one that is set
    resolves to its value. *)
Theorem ParseConfigVariableOfType_env (name : bytes) :
  (~ env_name name ->
   ParseConfigVariableOfType sys configVarTypeEnv name = ([], true, None)
   /\ forall pfx, context_ok None pfx -> pfx <> [backslash] -> valid_name name ->
        variable_callback sys None (pfx ++ placeholder [] name)
        = (pfx ++ placeholder [] name, None))
  /\ (env_name name -> LookupEnv sys name = None ->
      ParseConfigVariableOfType sys configVarTypeEnv name
      = ([], false, Some ("environment variable " +:+ fmt name +:+ " not found")))
  /\ (env_name name -> forall v, LookupEnv sys name = Some v ->
      ParseConfigVariableOfType sys configVarTypeEnv name = (v, false, None)).
Proof.
  unfold ParseConfigVariableOfType. rewrite bool_decide_eq_true_2 by reflexivity.
  split; [|split].
  - intros H. assert (E : ParseConfigVariableOfType sys configVarTypeEnv name
                          = ([], true, None)).
    { unfold ParseConfigVariableOfType.
      rewrite bool_decide_eq_true_2 by reflexivity.
      now rewrite (env_pattern_false _ H). }
    split; [now rewrite (env_pattern_false _ H)|].
    intros pfx Hp Hb Hn.
    rewrite variable_callback_plain by (assumption || constructor).
    cbn [bool_decide decide_rel Ternary]. rewrite bool_decide_eq_true_2 by reflexivity.
    cbn [Ternary]. now rewrite E.
  - intros H Hl. apply env_pattern_spec in H. now rewrite H, Hl.
  - intros H v Hl. apply env_pattern_spec in H. now rewrite H, Hl.
Qed.

End EnvFacts.

Lemma ParseConfigVariableOfType_env_witness :
  (ParseConfigVariableOfType sys_AB configVarTypeEnv (B "home") = ([], true, None)
   /\ variable_callback sys_AB None (B " ${home}") = (B " ${home}", None))
  /\ ParseConfigVariableOfType sys_AB configVarTypeEnv (B "HOME")
     = ([], false, Some "environment variable HOME not found")
  /\ ParseConfigVariableOfType sys_AB configVarTypeEnv (B "A") = (B "a", false, None).
Proof.
  assert (Hlow : ~ env_name (B "home")).
  { intros [_ H]. inversion H. discriminate. }
  assert (HA : env_name (B "A")) by (split; [discriminate|repeat constructor]).
  assert (HH : env_name (B "HOME")) by (split; [discriminate|repeat constructor]).
  split; [|split].
  - destruct (proj1 (ParseConfigVariableOfType_env sys_AB (B "home")) Hlow) as [E1 E2].
    split; [exact E1|].
    apply (E2 (B " ")).
    + right. exists " "%char. split; [reflexivity|discriminate].
    + discriminate.
    + split; [discriminate|repeat constructor].
  - apply (proj1 (proj2 (ParseConfigVariableOfType_env sys_AB (B "HOME"))) HH).
    reflexivity.
  - apply (proj2 (proj2 (ParseConfigVariableOfType_env sys_AB (B "A"))) HA).
    reflexivity.
Defined.

(** ** Scanning for placeholders *)

Section VariableScan.

Variable sys : System.

Lemma var_needs_dollar prev s m rest g :
  matches configVariablePattern prev s m rest g ->
  (prev = None /\ head s = Some dollar) \/ s !! 1 = Some dollar.
Proof.
  intros H. pose proof (matches_split _ _ _ _ _ _ H) as ->.
  destruct (var_inv _ _ _ _ _ H)
    as (pfx & ty & name & -> & [[-> ->]|(c & -> & _)] & _).
  - left. split; reflexivity.
  - right. reflexivity.
Qed.

Lemma var_gap_no_match prev p2 s :
  p2 <> [] -> Forall (fun c => c <> dollar) p2 -> head s <> Some dollar ->
  run configVariablePattern prev (p2 ++ s) = [].
Proof.
  intros Hne Hp Hs. apply run_nil. intros m rest g Hm.
  apply var_needs_dollar in Hm.
  destruct p2 as [|c p2]; [congruence|].
  apply Forall_cons in Hp. destruct Hp as [Hc Hp].
  destruct Hm as [[_ [= E]]|E]; [congruence|].
  destruct p2 as [|d p2]; simpl in E.
  - destruct s; simpl in *; congruence.
  - apply Forall_cons in Hp. destruct Hp as [Hd _]. congruence.
Qed.

(** Text without a dollar sign holds no placeholder. *)
Lemma var_scan_gap pre s prev :
  Forall (fun c => c <> dollar) pre -> head s <> Some dollar ->
  scan configVariablePattern prev (pre ++ s) 0
  = add_gap pre (scan configVariablePattern (prev_after prev pre) s 0).
Proof.
  intros Hp Hs. apply scan_gap. intros p1 p2 -> Hne.
  apply var_gap_no_match; [assumption| |assumption].
  apply Forall_app in Hp. tauto.
Qed.

Lemma var_scan_plain t prev :
  Forall (fun c => c <> dollar) t ->
  scan configVariablePattern prev t 0 = ([], t).
Proof.
  intros H. rewrite <- (app_nil_r t) at 1.
  rewrite var_scan_gap; [|assumption|discriminate].
  simpl. now rewrite app_nil_r.
Qed.

(** A dollar sign that follows a match opens no placeholder when no
    other dollar sign comes after it. *)
Lemma var_scan_dollar_tail t c :
  Forall (fun c => c <> dollar) t ->
  scan configVariablePattern (Some c) (dollar :: t) 0 = ([], dollar :: t).
Proof.
  intros H. rewrite scan_no_match.
  - now rewrite var_scan_plain.
  - apply run_nil. intros m rest g Hm. apply var_needs_dollar in Hm.
    destruct Hm as [[[=] _]|E]. destruct t as [|d t]; [discriminate|].
    apply Forall_cons in H. simpl in E. destruct H. congruence.
Qed.

Lemma placeholder_not_nil ty name : placeholder ty name <> [].
Proof. discriminate. Qed.

(** A match that begins with a backslash is an escaped placeholder. *)
Lemma escaped_match prev rest g m :
  matches configVariablePattern prev (m ++ rest) m rest g ->
  head m = Some backslash ->
  exists ty name,
    m = backslash :: placeholder ty name /\ valid_type ty /\ valid_name name.
Proof.
  intros H Hh.
  destruct (var_inv _ _ _ _ _ H)
    as (pfx & ty & name & -> & [[-> _]|(c & -> & _)] & Hty & Hn & _).
  - discriminate Hh.
  - injection Hh as ->. eauto.
Qed.

(** C3. A placeholder preceded by a backslash is never resolved and
    never an error: in any text, the callback returns a match that begins
    with a backslash without that backslash, whatever the environment
    holds; and a text that has no other dollar sign comes out with just
    the backslash removed. *)
Theorem escaped_placeholder (pre ty name post : bytes) :
  valid_type ty -> valid_name name ->
  Forall (fun c => c <> dollar) pre -> Forall (fun c => c <> dollar) post ->
  (forall contents gap m,
     In (gap, m) (fst (FindAll configVariablePattern contents)) ->
     head m = Some backslash ->
     variable_callback sys None m = (drop 1 m, None))
  /\ variable_callback sys None (backslash :: placeholder ty name)
     = (placeholder ty name, None)
  /\ ParseConfigVariables sys (pre ++ backslash :: placeholder ty name ++ post)
     = (pre ++ placeholder ty name ++ post, None).
Proof.
  intros Hty Hn Hpre Hpost.
  split; [|split; [now apply variable_callback_escaped|]].
  { intros contents gap m Hin Hh.
    destruct (scan_sound _ _ _ _ _ _ Hin) as (_ & prev & rest & g & Hm).
    destruct (escaped_match _ _ _ _ Hm Hh) as (ty' & name' & -> & Hty' & Hn').
    now apply variable_callback_escaped. }
  unfold ParseConfigVariables, ReplaceAllFunc, FindAll.
  rewrite var_scan_gap by (assumption || discriminate).
  assert (Hctx : context_ok (prev_after None pre) [backslash]).
  { right. exists backslash. split; [reflexivity|discriminate]. }
  destruct (var_run_head _ _ ty name post Hctx Hty Hn) as (g & l & Hr & _).
  change (backslash :: placeholder ty name ++ post)
    with ([backslash] ++ placeholder ty name ++ post).
  rewrite (scan_match _ _ _ _ _ _ _ Hr) by discriminate.
  rewrite var_scan_plain by assumption.
  cbn [add_gap replace_matches].
  change ([backslash] ++ placeholder ty name) with (backslash :: placeholder ty name).
  rewrite variable_callback_escaped by assumption.
  rewrite !app_nil_r, <- app_assoc. reflexivity.
Qed.

(** C10 (amended). Two adjacent placeholders of set variables, the first
    at the start of the text or after a character that is neither a
    newline nor a backslash: only the first is substituted, the second
    stays as it is, and there is no error. *)
Theorem adjacent_placeholders (pre A Bn vA vB post : bytes) :
  env_name A -> env_name Bn ->
  LookupEnv sys A = Some vA -> LookupEnv sys Bn = Some vB ->
  Forall (fun c => c <> dollar) pre -> Forall (fun c => c <> dollar) post ->
  last pre <> Some nl -> last pre <> Some backslash ->
  ParseConfigVariables sys (pre ++ placeholder [] A ++ placeholder [] Bn ++ post)
  = (pre ++ vA ++ placeholder [] Bn ++ post, None).
Proof.
  intros HA HB HvA HvB Hpre Hpost Hnl Hbs.
  pose proof (valid_name_of_env _ HA) as HnA.
  pose proof (valid_name_of_env _ HB) as [_ HnB].
  assert (Htail : forall c,
    scan configVariablePattern (Some c) (placeholder [] Bn ++ post) 0
    = ([], placeholder [] Bn ++ post)).
  { intros c. rewrite placeholder_app. apply var_scan_dollar_tail.
    constructor; [discriminate|]. apply Forall_app. split.
    - eapply Forall_impl; [exact HnB|]. intros x Hx ->. discriminate.
    - constructor; [discriminate|assumption]. }
  assert (Hresolve :
    ParseConfigVariableOfType sys configVarTypeEnv A = (vA, false, None)).
  { now apply env_resolves. }
  assert (Hlast : forall pfx, prev_after None (pfx ++ placeholder [] A)
                              = Some "}"%char).
  { intros pfx. unfold prev_after, placeholder.
    change ("$"%char :: "{"%char :: typed_name [] A ++ ["}"%char])
      with (["$"%char; "{"%char] ++ typed_name [] A ++ ["}"%char]).
    now rewrite !app_assoc, last_snoc. }
  unfold ParseConfigVariables, ReplaceAllFunc, FindAll.
  destruct pre as [|c0 pre0] using rev_ind.
  - destruct (var_run_head None [] [] A (placeholder [] Bn ++ post))
      as (g & l & Hr & _); [left; now split|constructor|assumption|].
    cbn [app] in *.
    rewrite (scan_match _ _ _ _ _ _ _ Hr) by discriminate.
    pose proof (Hlast []) as Hlast0. cbn [app] in Hlast0.
    rewrite Hlast0, Htail. cbn [replace_matches].
    pose proof (variable_callback_plain sys [] [] A) as Hcb.
    cbn [app] in Hcb.
    rewrite Hcb; [|left; now split|discriminate|constructor|assumption].
    cbn [bool_decide decide_rel Ternary].
    rewrite bool_decide_eq_true_2 by reflexivity. cbn [Ternary].
    rewrite Hresolve. cbn [app]. now rewrite !app_nil_r.
  - clear IHpre0. rewrite last_snoc in Hnl, Hbs.
    apply Forall_app in Hpre. destruct Hpre as [Hpre0 Hc0].
    apply Forall_cons in Hc0. destruct Hc0 as [Hc0 _].
    assert (Hctx : forall prev, context_ok prev [c0]).
    { intros prev. right. exists c0. split; [reflexivity|congruence]. }
    rewrite <- !app_assoc.
    rewrite var_scan_gap; [|assumption|simpl; congruence].
    destruct (var_run_head (prev_after None pre0) [c0] [] A
                (placeholder [] Bn ++ post) (Hctx _))
      as (g & l & Hr & _); [constructor|assumption|].
    rewrite (scan_match _ _ _ _ _ _ _ Hr) by discriminate.
    rewrite <- prev_after_app.
    assert (Hlast' : prev_after None (pre0 ++ [c0] ++ placeholder [] A)
                     = Some "}"%char).
    { rewrite app_assoc. apply Hlast. }
    rewrite Hlast', Htail. cbn [add_gap replace_matches].
    rewrite (variable_callback_plain sys [c0] [] A);
      [|apply Hctx|congruence|constructor|assumption].
    cbn [bool_decide decide_rel Ternary].
    rewrite bool_decide_eq_true_2 by reflexivity. cbn [Ternary].
    rewrite Hresolve. now rewrite !app_nil_r, <- !app_assoc.
Qed.

End VariableScan.

Lemma escaped_placeholder_witness :
  ParseConfigVariables sys_empty (B "\${FOO}") = (B "${FOO}", None)
  /\ ParseConfigVariables sys_AB (B "key: \${A}!") = (B "key: ${A}!", None).
Proof.
  split.
  - apply (escaped_placeholder sys_empty [] [] (B "FOO") []).
    + constructor.
    + split; [discriminate|repeat constructor].
    + constructor.
    + constructor.
  - apply (escaped_placeholder sys_AB (B "key: ") [] (B "A") (B "!")).
    + constructor.
    + split; [discriminate|repeat constructor].
    + repeat constructor; discriminate.
    + repeat constructor; discriminate.
Defined.

Lemma adjacent_placeholders_witness :
  ParseConfigVariables sys_AB (B "k: ${A}${B}") = (B "k: a${B}", None).
Proof.
  apply (adjacent_placeholders sys_AB (B "k: ") (B "A") (B "B") (B "a") (B "b") []).
  - split; [discriminate|repeat constructor].
  - split; [discriminate|repeat constructor].
  - reflexivity.
  - reflexivity.
  - repeat constructor; discriminate.
  - constructor.
  - discriminate.
  - discriminate.
Defined.

(** C10 as stated, for every text around the two placeholders, fails
    after a newline: there the first placeholder is left as it is and the
    second one is substituted. *)
Lemma adjacent_placeholders_counterexample :
  ParseConfigVariables sys_AB (nl :: B "${A}${B}") = (nl :: B "${A}b", None)
  /\ ~ (forall sys pre A Bn vA vB post,
          env_name A -> env_name Bn ->
          LookupEnv sys A = Some vA -> LookupEnv sys Bn = Some vB ->
          Forall (fun c => c <> dollar) pre -> Forall (fun c => c <> dollar) post ->
          ParseConfigVariables sys (pre ++ placeholder [] A ++ placeholder [] Bn ++ post)
          = (pre ++ vA ++ placeholder [] Bn ++ post, None)).
Proof.
  split; [vm_compute; reflexivity|].
  intros H.
  specialize (H sys_AB [nl] (B "A") (B "B") (B "a") (B "b") []).
  assert (E : ParseConfigVariables sys_AB (nl :: B "${A}${B}")
              = (nl :: B "a${B}", None)).
  { apply H.
    - split; [discriminate|repeat constructor].
    - split; [discriminate|repeat constructor].
    - reflexivity.
    - reflexivity.
    - repeat constructor; discriminate.
    - constructor. }
  vm_compute in E. discriminate E.
Qed.

(** ** All or nothing *)

Section AllOrNothing.

Variable sys : System.

Lemma variable_callback_sticky e m :
  variable_callback sys (Some e) m = ([], Some e).
Proof. reflexivity. Qed.

Lemma replace_matches_failed ms e :
  snd (replace_matches (variable_callback sys) ms (Some e)) = Some e.
Proof.
  induction ms as [|[gap m] ms IH]; [reflexivity|].
  cbn [replace_matches]. rewrite variable_callback_sticky.
  destruct (replace_matches _ ms (Some e)) as [out st]. exact IH.
Qed.

Lemma FindSubmatch_length re s :
  FindSubmatch re s = [] \/ length (FindSubmatch re s) = S (NumSubexp re).
Proof.
  unfold FindSubmatch. destruct (search re None s) as [[[m rest] g]|]; [right|now left].
  simpl. now rewrite length_map, length_seq.
Qed.

(** A reference that fails to resolve makes the callback record an error. *)
Lemma variable_callback_error m e :
  resolution_error sys m = Some e ->
  variable_callback sys None m = ([], Some ("parsing variable: " +:+ e)).
Proof.
  unfold resolution_error, variable_callback.
  destruct (FindSubmatch_length configVariablePattern m) as [E|E].
  - rewrite E. cbn. discriminate.
  - rewrite E. cbn [NumSubexp configVariablePattern Nat.add Nat.eqb negb].
    destruct (bool_decide (nth 1 _ [] = B "\")); [discriminate|].
    destruct (ParseConfigVariableOfType _ _ _) as [[v orig] [e'|]];
      simpl; [intros [= ->]; reflexivity|discriminate].
Qed.

Lemma replace_matches_error ms :
  forall gap m e,
    In (gap, m) ms -> resolution_error sys m = Some e ->
    exists e', snd (replace_matches (variable_callback sys) ms None) = Some e'.
Proof.
  induction ms as [|[gap0 m0] ms IH]; intros gap m e Hin He; [destruct Hin|].
  cbn [replace_matches].
  destruct (variable_callback sys None m0) as [out [e0|]] eqn:Hcb.
  - exists e0. pose proof (replace_matches_failed ms e0) as Hf.
    destruct (replace_matches _ ms (Some e0)) as [out' st]. exact Hf.
  - destruct Hin as [[= <- <-]|Hin].
    + rewrite (variable_callback_error _ _ He) in Hcb. discriminate.
    + destruct (IH gap m e Hin He) as [e' He'].
      exists e'. destruct (replace_matches _ ms None) as [out' st]. exact He'.
Qed.

(** C4 (amended). Variable resolution is all or nothing over the
    references the variable pattern matches in the text: a parse that
    reports an error returns no bytes, and when any matched reference
    that is not escaped fails to resolve, the parse reports an error and
    returns no bytes. *)
Theorem ParseConfigVariables_all_or_nothing (contents : bytes) :
  (forall out e, ParseConfigVariables sys contents = (out, Some e) -> out = [])
  /\ (forall gap m e,
        In (gap, m) (fst (FindAll configVariablePattern contents)) ->
        resolution_error sys m = Some e ->
        exists e', ParseConfigVariables sys contents = ([], Some e')).
Proof.
  unfold ParseConfigVariables, ReplaceAllFunc. split.
  - intros out e.
    destruct (FindAll configVariablePattern contents) as [ms tl].
    destruct (replace_matches _ ms None) as [out' [e'|]]; intros [= <- <-];
      reflexivity.
  - intros gap m e Hin He.
    destruct (FindAll configVariablePattern contents) as [ms tl].
    destruct (replace_matches_error ms gap m e Hin He) as [e' He'].
    destruct (replace_matches _ ms None) as [out' st]. simpl in He'. subst st.
    eauto.
Qed.

End AllOrNothing.

Lemma ParseConfigVariables_all_or_nothing_witness :
  exists e',
    ParseConfigVariables sys_AB (B "a: ${A} b: ${MISSING} c: ${B}") = ([], Some e').
Proof.
  apply (proj2 (ParseConfigVariables_all_or_nothing sys_AB
                  (B "a: ${A} b: ${MISSING} c: ${B}"))
           (B " b:") (B " ${MISSING}") "environment variable MISSING not found").
  - vm_compute. right. left. reflexivity.
  - vm_compute. reflexivity.
Defined.

(** C4 as stated, for every reference of the text, fails for a reference
    the pattern does not match: right after a newline the reference to
    the unset variable is left where it is, the reference before it is
    substituted, and the parse reports no error. *)
Lemma ParseConfigVariables_all_or_nothing_counterexample :
  ParseConfigVariables sys_AB (B "a: ${A}" ++ nl :: B "${MISSING}")
  = (B "a: a" ++ nl :: B "${MISSING}", None)
  /\ snd (ParseConfigVariableOfType sys_AB configVarTypeEnv (B "MISSING"))
     = Some "environment variable MISSING not found"
  /\ ~ (forall sys pre ty name post e,
          valid_type ty -> valid_name name ->
          last pre <> Some backslash ->
          snd (ParseConfigVariableOfType sys
                 (Ternary (bool_decide (ty = [])) configVarTypeEnv ty) name)
          = Some e ->
          exists e',
            ParseConfigVariables sys (pre ++ placeholder ty name ++ post)
            = ([], Some e')).
Proof.
  split; [vm_compute; reflexivity|]. split; [vm_compute; reflexivity|].
  intros H.
  destruct (H sys_AB (B "a: ${A}" ++ [nl]) [] (B "MISSING") []
              "environment variable MISSING not found") as [e' E].
  - constructor.
  - split; [discriminate|repeat constructor].
  - vm_compute. discriminate.
  - vm_compute. reflexivity.
  - vm_compute in E. discriminate E.
Qed.

Example unreadable_secret :
  ParseConfigVariables sys_AB (B "a: ${A} p: ${secret:db}")
  = ([], Some "parsing variable: reading secret file: open /run/secrets/db: no such file or directory").
Proof. vm_compute. reflexivity. Qed.

Example relative_file_from_env :
  ParseConfigVariables (Toy.system [] [("P", "conf/key")]) (B "k: ${readFileFromEnv:P}")
  = ([], Some "parsing variable: readFileFromEnv: file path conf/key is not absolute").
Proof. vm_compute. reflexivity. Qed.

(** ** The include pattern *)

Section IncludePattern.

(** An anchor-free pattern matches the same text wherever it stands. *)
Lemma matches_local r prev s m rest g :
  matches r prev s m rest g -> anchor_free r = true ->
  forall prev' rest', matches r prev' (m ++ rest') m rest' g.
Proof.
  induction 1; simpl; intros Hfree prev' rest'; try discriminate;
    try (constructor; auto; fail).
  - apply andb_prop in Hfree. destruct Hfree as [F1 F2].
    rewrite <- app_assoc. econstructor; eauto.
  - apply andb_prop in Hfree. apply M_Alt_l. now apply IHmatches.
  - apply andb_prop in Hfree. apply M_Alt_r. now apply IHmatches.
Qed.

Lemma matches_end_anchored r :
  end_anchored r = true ->
  forall prev s m rest g, matches r prev s m rest g ->
  forall prev', matches r prev' m m [] g.
Proof.
  induction r; simpl; try discriminate; intros Hend prev s m rest g H prev'.
  - inversion H; subst; constructor.
  - apply andb_prop in Hend. destruct Hend as [F1 F2].
    inversion H; subst.
    eapply M_Cat_eq; [|eapply IHr2; eauto|reflexivity|reflexivity].
    now apply (matches_local r1 prev s m1 s1 g1).
Qed.

(** A match of the include pattern, taken out of its text, is a match
    of the pattern on its own: this is what the callback relies on when
    it reads the groups back. *)
Lemma include_rematch prev s m rest g :
  matches configIncludePattern prev s m rest g ->
  matches configIncludePattern None m m [] g.
Proof.
  unfold configIncludePattern. intros H.
  inversion H as [| | | | | | | |? ? ? ? ? ? ? ? ? ? H1 H2| | | | | | |]; subst.
  assert (m1 = [] /\ g1 = []) as [-> ->] by (inversion H1; subst; auto).
  eapply M_Cat_eq; [apply M_BeginLine_start| |reflexivity|reflexivity].
  eapply matches_end_anchored; [reflexivity|exact H2].
Qed.

Lemma blank_not_nl c : blank c = true -> c <> nl.
Proof. intros H ->. discriminate. Qed.

Lemma any_not_nl_spec c : any_not_nl c = true -> c <> nl.
Proof. intros H ->. discriminate. Qed.

Lemma leading_blanks_app w c r :
  Forall (fun c => blank c = true) w -> blank c = false ->
  leading_blanks (w ++ c :: r) = w.
Proof.
  intros Hw Hc. induction Hw as [|x w Hx _ IH]; simpl.
  - now rewrite Hc.
  - now rewrite Hx, IH.
Qed.

Lemma include_inv prev s m rest g :
  matches configIncludePattern prev s m rest g ->
  group g 1 = leading_blanks m
  /\ Forall (fun c => c <> nl) m
  /\ (rest = [] \/ head rest = Some nl).
Proof.
  unfold configIncludePattern. cbn [lits B list_ascii_of_string].
  intros H. inv_matches.
  all: split; [|split].
  all: try (left; reflexivity); try (right; reflexivity).
  all: try (cbn [app group Nat.eqb];
            match goal with
            | H : Forall (fun c => blank c = true) ?w |- ?w = leading_blanks (?w ++ _) =>
                symmetry; apply leading_blanks_app; [exact H|reflexivity]
            end).
  all: repeat (apply Forall_app; split); repeat apply Forall_cons_2;
    try apply Forall_nil_2; try discriminate.
  all: try (eapply Forall_impl; [eassumption|]; first [exact blank_not_nl | exact any_not_nl_spec]).
Qed.

(** The include pattern never matches the empty text. *)
Lemma include_match_nonempty prev s m rest g :
  matches configIncludePattern prev s m rest g -> m <> [].
Proof.
  unfold configIncludePattern. cbn [lits B list_ascii_of_string].
  intros H. inv_matches.
  all: intros E; apply (f_equal length) in E; rewrite !length_app in E;
    simpl in E; lia.
Qed.

End IncludePattern.

(** ** Re-indentation of inlined text *)

Section Indentation.

Variable sys : System.

Lemma FindSubmatch_include prev rest g m :
  matches configIncludePattern prev (m ++ rest) m rest g ->
  exists path,
    FindSubmatch configIncludePattern m = [m; leading_blanks m; path].
Proof.
  intros H. destruct (include_inv _ _ _ _ _ H) as (_ & Hnl & _).
  apply include_rematch in H. apply run_matches in H.
  destruct (run configIncludePattern None m) as [|[[m' rest'] g'] l] eqn:Hr;
    [destruct H|].
  unfold FindSubmatch. rewrite (search_head _ _ _ _ _ Hr).
  apply run_head in Hr. pose proof (matches_split _ _ _ _ _ _ Hr) as E.
  destruct (include_inv _ _ _ _ _ Hr) as (G1 & _ & Hend).
  assert (rest' = []) as ->.
  { destruct Hend as [->|Hh]; [reflexivity|].
    destruct rest' as [|c rest']; [reflexivity|]. injection Hh as ->.
    rewrite E in Hnl. apply Forall_app in Hnl. destruct Hnl as [_ Hnl].
    apply Forall_cons in Hnl. destruct Hnl as [Hnl _]. congruence. }
  rewrite app_nil_r in E. subst m'.
  exists (group g' 2). simpl. now rewrite G1.
Qed.

(** What the callback does with an include directive. *)
Lemma include_callback_match recurse dir inc prev rest g m :
  matches configIncludePattern prev (m ++ rest) m rest g ->
  include_callback sys recurse dir (None, inc) m
  = let p := include_target sys dir m in
    let r := recurse p (Some ({[p]} ∪ inc)) in
    match err r with
    | Some e => ([], (Some e, visited r))
    | None =>
        (PrefixStringLines (leading_blanks m) (contents r), (None, visited r))
    end.
Proof.
  intros H. destruct (FindSubmatch_include _ _ _ _ H) as [path E].
  unfold include_callback, include_target. rewrite E. reflexivity.
Qed.

Lemma SplitLines_not_nil s : SplitLines s <> [].
Proof.
  destruct s as [|c s]; simpl; [discriminate|].
  destruct (Ascii.eqb c nl); [discriminate|].
  destruct (SplitLines s); discriminate.
Qed.

Lemma SplitLines_line (l s : bytes) :
  Forall (fun c => c <> nl) l ->
  SplitLines (l ++ nl :: s) = l :: SplitLines s.
Proof.
  induction 1 as [|c l Hc _ IH]; simpl.
  - reflexivity.
  - destruct (Ascii.eqb_spec c nl); [contradiction|]. now rewrite IH.
Qed.

Lemma SplitLines_last (l : bytes) :
  Forall (fun c => c <> nl) l -> SplitLines l = [l].
Proof.
  induction 1 as [|c l Hc _ IH]; simpl; [reflexivity|].
  destruct (Ascii.eqb_spec c nl); [contradiction|]. now rewrite IH.
Qed.

Lemma SplitLines_lines s : Forall (Forall (fun c => c <> nl)) (SplitLines s).
Proof.
  induction s as [|c s IH]; simpl; [repeat constructor|].
  destruct (Ascii.eqb_spec c nl) as [->|Hc]; [constructor; [constructor|exact IH]|].
  destruct (SplitLines s) as [|l ls]; [repeat constructor; assumption|].
  apply Forall_cons in IH. destruct IH as [Hl Hls].
  constructor; [constructor; assumption|assumption].
Qed.

Lemma SplitLines_JoinLines ls :
  ls <> [] -> Forall (Forall (fun c => c <> nl)) ls ->
  SplitLines (JoinLines ls) = ls.
Proof.
  intros Hne H. induction H as [|l ls Hl Hls IH]; [congruence|].
  destruct ls as [|l' ls].
  - simpl. now apply SplitLines_last.
  - change (JoinLines (l :: l' :: ls)) with (l ++ nl :: JoinLines (l' :: ls)).
    rewrite SplitLines_line by assumption. now rewrite IH.
Qed.

Lemma JoinLines_SplitLines s : JoinLines (SplitLines s) = s.
Proof.
  induction s as [|c s IH]; [reflexivity|]. simpl.
  destruct (Ascii.eqb_spec c nl) as [->|Hc].
  - pose proof (SplitLines_not_nil s).
    destruct (SplitLines s) as [|l ls] eqn:E; [congruence|].
    change (JoinLines ([] :: l :: ls)) with (nl :: JoinLines (l :: ls)).
    now rewrite IH.
  - pose proof (SplitLines_not_nil s).
    destruct (SplitLines s) as [|l ls] eqn:E; [congruence|].
    destruct ls as [|l' ls]; simpl in *; now rewrite <- IH.
Qed.

(** Every line of the result is the prefix followed by the
    corresponding line of the text. *)
Lemma PrefixStringLines_lines prefix s :
  Forall (fun c => c <> nl) prefix ->
  SplitLines (PrefixStringLines prefix s)
  = map (fun line => prefix ++ line) (SplitLines s).
Proof.
  intros Hp. unfold PrefixStringLines. apply SplitLines_JoinLines.
  - pose proof (SplitLines_not_nil s). destruct (SplitLines s); [congruence|discriminate].
  - apply Forall_map. eapply Forall_impl; [apply SplitLines_lines|].
    intros l Hl. simpl. apply Forall_app. now split.
Qed.



End Indentation.


(** ** Include expansion *)

Section Expansion.

Variable sys : System.

Lemma replace_matches_app {St : Type} (f : St -> bytes -> bytes * St) ms1 :
  forall ms2 st,
    replace_matches f (ms1 ++ ms2) st
    = let '(o1, st1) := replace_matches f ms1 st in
      let '(o2, st2) := replace_matches f ms2 st1 in
      (o1 ++ o2, st2).
Proof.
  induction ms1 as [|[gap m] ms1 IH]; intros ms2 st; simpl.
  - now destruct (replace_matches f ms2 st).
  - destruct (f st m) as [out st']. rewrite IH.
    destruct (replace_matches f ms1 st') as [o1 st1].
    destruct (replace_matches f ms2 st1) as [o2 st2].
    now rewrite <- !app_assoc.
Qed.

Lemma replace_matches_ext {St : Type} (f g : St -> bytes -> bytes * St) ms :
  (forall st gap m, In (gap, m) ms -> f st m = g st m) ->
  forall st, replace_matches f ms st = replace_matches g ms st.
Proof.
  induction ms as [|[gap m] ms IH]; intros H st; [reflexivity|].
  simpl. rewrite (H st gap m) by now left.
  destruct (g st m) as [out st']. rewrite IH; [reflexivity|].
  intros st0 gap0 m0 Hin. apply (H st0 gap0 m0). now right.
Qed.

(** One level of the expansion of a readable file. *)
Lemma RecursiveParseYAMLIncludes_step fuel p inc d doc abs :
  d <= CONFIG_INCLUDE_RECURSION_DEPTH_LIMIT ->
  ReadFile sys p = Ok doc -> Abs sys p = Ok abs ->
  RecursiveParseYAMLIncludes sys (S fuel) p inc d
  = let '(c, (e, i)) :=
      ReplaceAllFunc configIncludePattern doc
        (include_callback sys
           (fun p' inc' => RecursiveParseYAMLIncludes sys fuel p' inc' (d + 1))
           (Dir sys abs))
        (None, default ∅ inc) in
    match e with
    | Some e => failed i e
    | None => {| contents := c; includes := Some i; err := None; visited := i |}
    end.
Proof.
  intros Hd Hr Ha. cbn [RecursiveParseYAMLIncludes].
  apply Nat.ltb_ge in Hd. rewrite Hd, Hr, Ha.
  destruct (ReplaceAllFunc _ _ _ _) as [c [e i]]. reflexivity.
Qed.

Lemma RecursiveParseYAMLIncludes_limit fuel p inc d :
  CONFIG_INCLUDE_RECURSION_DEPTH_LIMIT < d ->
  RecursiveParseYAMLIncludes sys fuel p inc d
  = failed (default ∅ inc) recursion_limit_error.
Proof.
  intros Hd. apply Nat.ltb_lt in Hd.
  destruct fuel; cbn [RecursiveParseYAMLIncludes]; now rewrite Hd.
Qed.

Lemma MatchString_false_FindAll re doc :
  MatchString re doc = false -> FindAll re doc = ([], doc).
Proof.
  unfold MatchString, FindAll. intros H. apply search_none_scan.
  now destruct (search re None doc).
Qed.

(** C9. A document with no include directive and no placeholder (the
    two patterns match nowhere in it) is assembled to itself, with an
    empty include set and no error. *)
Theorem Assemble_identity (root doc abs : bytes) :
  ReadFile sys root = Ok doc -> Abs sys root = Ok abs ->
  MatchString configIncludePattern doc = false ->
  MatchString configVariablePattern doc = false ->
  Assemble sys root = (doc, Some ∅, None).
Proof.
  intros Hr Ha Hi Hv. unfold Assemble, ParseYAMLIncludes.
  rewrite (RecursiveParseYAMLIncludes_step _ _ _ _ doc abs)
    by (assumption || apply Nat.le_0_l).
  unfold ReplaceAllFunc. rewrite (MatchString_false_FindAll _ _ Hi).
  cbn. unfold ParseConfigVariables, ReplaceAllFunc.
  rewrite (MatchString_false_FindAll _ _ Hv). reflexivity.
Qed.

End Expansion.

Lemma Assemble_identity_witness :
  Assemble (Toy.system [("/plain.yml", B "pages:" ++ nl :: B "  - name: Home $5")] [])
           (B "/plain.yml")
  = (B "pages:" ++ nl :: B "  - name: Home $5", Some ∅, None).
Proof.
  apply (Assemble_identity _ _ _ (B "/plain.yml")); vm_compute; reflexivity.
Defined.

(** ** The visited set *)

Section Visited.

Variable sys : System.

Lemma include_callback_sticky recurse dir e inc m :
  include_callback sys recurse dir (Some e, inc) m = ([], (Some e, inc)).
Proof. reflexivity. Qed.

Lemma replace_matches_include_failed recurse dir ms e inc :
  snd (replace_matches (include_callback sys recurse dir) ms (Some e, inc))
  = (Some e, inc).
Proof.
  induction ms as [|[gap m] ms IH]; [reflexivity|].
  cbn [replace_matches]. rewrite include_callback_sticky.
  destruct (replace_matches _ ms (Some e, inc)) as [out st]. exact IH.
Qed.

(** The callback only ever adds to the map, when the recursive call does. *)
Lemma include_callback_mono recurse dir st m :
  (forall p inc, default ∅ inc ⊆ visited (recurse p inc)) ->
  snd st ⊆ snd (snd (include_callback sys recurse dir st m)).
Proof.
  intros Hrec. destruct st as [[e|] inc]; [reflexivity|].
  unfold include_callback.
  destruct (negb (length (FindSubmatch configIncludePattern m) =? 3)); [reflexivity|].
  set (p := resolve_include sys dir _).
  specialize (Hrec p (Some ({[p]} ∪ inc))). simpl in Hrec.
  destruct (err (recurse p _)); simpl; set_solver.
Qed.

Lemma replace_matches_include_mono recurse dir ms :
  (forall p inc, default ∅ inc ⊆ visited (recurse p inc)) ->
  forall st, snd st ⊆ snd (snd (replace_matches (include_callback sys recurse dir) ms st)).
Proof.
  intros Hrec. induction ms as [|[gap m] ms IH]; intros st; [reflexivity|].
  cbn [replace_matches].
  pose proof (include_callback_mono recurse dir st m Hrec) as H1.
  destruct (include_callback sys recurse dir st m) as [out st1].
  specialize (IH st1).
  destruct (replace_matches _ ms st1) as [rest st2]. simpl in *. set_solver.
Qed.

(** The map a call works on only grows. *)
Lemma visited_mono fuel :
  forall p inc d,
    default ∅ inc ⊆ visited (RecursiveParseYAMLIncludes sys fuel p inc d).
Proof.
  induction fuel as [|fuel IH]; intros p inc d; cbn [RecursiveParseYAMLIncludes];
    destruct (CONFIG_INCLUDE_RECURSION_DEPTH_LIMIT <? d); try reflexivity.
  destruct (ReadFile sys p) as [doc|e]; [|reflexivity].
  destruct (Abs sys p) as [abs|e]; [|reflexivity].
  unfold ReplaceAllFunc. destruct (FindAll configIncludePattern doc) as [ms tl].
  pose proof (replace_matches_include_mono
                (fun p' inc' => RecursiveParseYAMLIncludes sys fuel p' inc' (d + 1))
                (Dir sys abs) ms (fun p' inc' => IH p' inc' (d + 1))
                (None, default ∅ inc)) as H.
  destruct (replace_matches _ ms _) as [out [[e|] i]]; exact H.
Qed.

(** After the callback has handled a directive, the path it names is in
    the map, whether the expansion of that path failed or not. *)
Lemma include_callback_adds recurse dir inc prev rest g m :
  (forall p inc, default ∅ inc ⊆ visited (recurse p inc)) ->
  matches configIncludePattern prev (m ++ rest) m rest g ->
  include_target sys dir m
  ∈ snd (snd (include_callback sys recurse dir (None, inc) m)).
Proof.
  intros Hrec Hm. rewrite (include_callback_match _ _ _ _ _ _ _ _ Hm). cbn zeta.
  set (p := include_target sys dir m).
  specialize (Hrec p (Some ({[p]} ∪ inc))). simpl in Hrec.
  destruct (err (recurse p _)); simpl; set_solver.
Qed.

(** When all the directives are handled without error, each of their
    paths is in the final map. *)
Lemma replace_matches_include_all recurse dir ms :
  (forall p inc, default ∅ inc ⊆ visited (recurse p inc)) ->
  (forall gap m, In (gap, m) ms ->
     exists prev rest g, matches configIncludePattern prev (m ++ rest) m rest g) ->
  forall inc out inc',
    replace_matches (include_callback sys recurse dir) ms (None, inc)
    = (out, (None, inc')) ->
    forall gap m, In (gap, m) ms -> include_target sys dir m ∈ inc'.
Proof.
  intros Hrec. induction ms as [|[gap0 m0] ms IH]; intros Hms inc out inc' E gap m Hin;
    [destruct Hin|].
  cbn [replace_matches] in E.
  destruct (Hms gap0 m0 (or_introl eq_refl)) as (prev & rest & g & Hm0).
  pose proof (include_callback_adds recurse dir inc _ _ _ _ Hrec Hm0) as Hadd.
  destruct (include_callback sys recurse dir (None, inc) m0) as [o1 [[e1|] i1]].
  - pose proof (replace_matches_include_failed recurse dir ms e1 i1) as Hf.
    destruct (replace_matches _ ms (Some e1, i1)) as [o2 st2].
    simpl in Hf. subst st2. discriminate E.
  - pose proof (replace_matches_include_mono recurse dir ms Hrec (None, i1)) as Hmono.
    destruct (replace_matches _ ms (None, i1)) as [o2 [e2 i2]] eqn:E2.
    injection E as _ -> ->. simpl in *.
    destruct Hin as [[= <- <-]|Hin].
    + set_solver.
    + apply (IH (fun gap m H => Hms gap m (or_intror H)) i1 o2 inc' E2 gap m Hin).
Qed.

(** C5 (amended). Every resolved include path is added to the visited
    set before the recursive call: after the callback has handled a
    directive the map holds its path whether or not the expansion of that
    path failed.  The set returned by a successful expansion holds the
    path of every directive of the file; a failed expansion returns a nil
    set. *)
Theorem include_path_visited (fuel : nat) (p : bytes) (inc : option (gset bytes))
    (d : nat) (doc abs gap m : bytes) :
  d <= CONFIG_INCLUDE_RECURSION_DEPTH_LIMIT ->
  ReadFile sys p = Ok doc -> Abs sys p = Ok abs ->
  In (gap, m) (fst (FindAll configIncludePattern doc)) ->
  let recurse := fun p' inc' => RecursiveParseYAMLIncludes sys fuel p' inc' (d + 1) in
  let r := RecursiveParseYAMLIncludes sys (S fuel) p inc d in
  (forall inc0,
     include_target sys (Dir sys abs) m
     ∈ snd (snd (include_callback sys recurse (Dir sys abs) (None, inc0) m)))
  /\ (err r = None ->
      exists s, includes r = Some s /\ include_target sys (Dir sys abs) m ∈ s)
  /\ (err r <> None -> includes r = None).
Proof.
  intros Hd Hr Ha Hin recurse r.
  assert (Hrec : forall p' inc', default ∅ inc' ⊆ visited (recurse p' inc'))
    by (intros; apply visited_mono).
  destruct (scan_sound _ _ _ _ _ _ Hin) as (_ & prev & rest & g & Hm).
  split; [|split].
  - intros inc0. now apply (include_callback_adds recurse _ inc0 prev rest g).
  - subst r. rewrite (RecursiveParseYAMLIncludes_step _ _ _ _ _ doc abs) by assumption.
    unfold ReplaceAllFunc. fold recurse.
    destruct (FindAll configIncludePattern doc) as [ms tl] eqn:Hf.
    destruct (replace_matches _ ms (None, default ∅ inc)) as [out [[e|] i]] eqn:E;
      [discriminate|]. intros _. exists i. split; [reflexivity|].
    apply (replace_matches_include_all recurse (Dir sys abs) ms Hrec) with
      (inc := default ∅ inc) (out := out) (gap := gap); [|exact E|exact Hin].
    intros gap' m' Hin'.
    assert (Hin2 : In (gap', m') (fst (FindAll configIncludePattern doc)))
      by now rewrite Hf.
    destruct (scan_sound _ _ _ _ _ _ Hin2) as (_ & pr & re & g' & Hm'). eauto.
  - subst r. rewrite (RecursiveParseYAMLIncludes_step _ _ _ _ _ doc abs) by assumption.
    destruct (ReplaceAllFunc _ _ _ _) as [c [[e|] i]]; intros H;
      [reflexivity|now destruct H].
Qed.

End Visited.

Lemma include_path_visited_witness :
  (B "/missing.yml"
   ∈ snd (snd (include_callback sys_tree
                 (fun p inc => RecursiveParseYAMLIncludes sys_tree 20 p inc 1)
                 (B "/") (None, ∅) (B "!include: /missing.yml"))))
  /\ exists s, includes (ParseYAMLIncludes sys_tree (B "/root.yml")) = Some s
               /\ B "/b.yml" ∈ s.
Proof.
  split.
  - apply (proj1 (include_path_visited sys_tree 20 (B "/broken.yml") None 0
                    (B "a: 1" ++ nl :: B "!include: /missing.yml") (B "/broken.yml")
                    (B "a: 1" ++ [nl]) (B "!include: /missing.yml")
                    ltac:(vm_compute; lia) eq_refl eq_refl
                    ltac:(vm_compute; left; reflexivity)) ∅).
  - apply (proj1 (proj2 (include_path_visited sys_tree 20 (B "/root.yml") None 0
                    (B "  !include: /b.yml") (B "/root.yml")
                    [] (B "  !include: /b.yml")
                    ltac:(vm_compute; lia) eq_refl eq_refl
                    ltac:(vm_compute; left; reflexivity)))).
    vm_compute. reflexivity.
Defined.

(** C5 as stated fails when the expansion of the path fails: the whole
    expansion then returns a nil set. *)
Lemma include_path_visited_counterexample :
  includes (ParseYAMLIncludes sys_tree (B "/broken.yml")) = None
  /\ err (ParseYAMLIncludes sys_tree (B "/broken.yml"))
     = Some "reading /missing.yml: open /missing.yml: no such file or directory"
  /\ ~ (forall sys root doc abs gap m,
          ReadFile sys root = Ok doc -> Abs sys root = Ok abs ->
          In (gap, m) (fst (FindAll configIncludePattern doc)) ->
          exists s, includes (ParseYAMLIncludes sys root) = Some s
                    /\ include_target sys (Dir sys abs) m ∈ s).
Proof.
  split; [vm_compute; reflexivity|]. split; [vm_compute; reflexivity|].
  intros H.
  destruct (H sys_tree (B "/broken.yml")
              (B "a: 1" ++ nl :: B "!include: /missing.yml") (B "/broken.yml")
              (B "a: 1" ++ [nl]) (B "!include: /missing.yml") eq_refl eq_refl)
    as (s & Hs & _).
  - vm_compute. left. reflexivity.
  - vm_compute in Hs. discriminate Hs.
Qed.

(** ** Expansion does not substitute *)

Section Order.

Variable sys : System.

(** Include expansion never consults the environment: the two sides
    unfold to the same reads of the file system. *)
Lemma with_env_expand lookup fuel p inc d :
  RecursiveParseYAMLIncludes (with_env sys lookup) fuel p inc d
  = RecursiveParseYAMLIncludes sys fuel p inc d.
Proof. reflexivity. Qed.

Lemma lits_intro cs k s m g :
  (forall prev, matches k prev s m [] g) ->
  forall prev, matches (lits cs k) prev (cs ++ s) (cs ++ m) [] g.
Proof.
  intros Hk. induction cs as [|c cs IH]; intros prev; [apply Hk|].
  cbn [lits]. eapply (M_Cat_eq _ _ _ _ [c] (cs ++ s) [] (cs ++ m) [] g);
    [apply M_Lit|apply IH|reflexivity|reflexivity].
Qed.

(** A line that is an include directive is matched as a whole. *)
Lemma include_intro indent ws path :
  Forall (fun c => blank c = true) indent ->
  Forall (fun c => blank c = true) ws ->
  path <> [] -> Forall (fun c => c <> nl) path ->
  exists g,
    matches configIncludePattern None
            (indent ++ B "!include:" ++ ws ++ path)
            (indent ++ B "!include:" ++ ws ++ path) [] g.
Proof.
  intros Hi Hw Hne Hp.
  assert (Hany : Forall (fun c => any_not_nl c = true) path).
  { eapply Forall_impl; [exact Hp|]. intros c Hc. unfold any_not_nl.
    destruct (Ascii.eqb_spec c nl); [contradiction|reflexivity]. }
  assert (H7 : forall prev,
    matches (Cat (Capture 2 (Plus any_not_nl)) EndLine) prev path path [] [(2, path)]).
  { intros prev.
    apply (M_Cat_eq _ _ _ _ path [] [(2, path)] [] [] []);
      [|apply M_EndLine_end|now rewrite app_nil_r|reflexivity].
    apply M_Capture, M_Plus_eq; [now rewrite app_nil_r|assumption..]. }
  assert (H6 : forall prev,
    matches (Cat (Star blank) (Cat (Capture 2 (Plus any_not_nl)) EndLine))
            prev (ws ++ path) (ws ++ path) [] [(2, path)]).
  { intros prev.
    apply (M_Cat_eq _ _ _ _ ws path [] path [] [(2, path)]);
      [now apply M_Star|apply H7|reflexivity|reflexivity]. }
  pose proof (lits_intro (B "include:") _ _ _ _ H6) as H5.
  exists ([(1, indent)] ++ [] ++ [] ++ [(2, path)]).
  unfold configIncludePattern.
  apply (M_Cat_eq _ _ _ _ [] (indent ++ B "!include:" ++ ws ++ path) []
           (indent ++ B "!include:" ++ ws ++ path) []
           ([(1, indent)] ++ [] ++ [] ++ [(2, path)]));
    [apply M_BeginLine_start| |reflexivity|reflexivity].
  apply (M_Cat_eq _ _ _ _ indent (B "!include:" ++ ws ++ path) [(1, indent)]
           (B "!include:" ++ ws ++ path) [] ([] ++ [] ++ [(2, path)]));
    [now apply M_Capture, M_Star| |reflexivity|reflexivity].
  apply (M_Cat_eq _ _ _ _ [] (B "!include:" ++ ws ++ path) []
           (B "!include:" ++ ws ++ path) [] ([] ++ [(2, path)]));
    [apply M_Quest_none| |reflexivity|reflexivity].
  apply (M_Cat_eq _ _ _ _ ["!"%char] (B "include:" ++ ws ++ path) []
           (B "include:" ++ ws ++ path) [] [(2, path)]);
    [apply M_Alt_l, M_Lit|apply H5|reflexivity|reflexivity].
Qed.

Lemma include_line_scan line g :
  matches configIncludePattern None line line [] g -> line <> [] ->
  FindAll configIncludePattern line = ([([], line)], []).
Proof.
  intros Hm Hne. unfold FindAll.
  destruct (include_inv _ _ _ _ _ Hm) as (_ & Hnl & _).
  apply run_matches in Hm.
  destruct (run configIncludePattern None line) as [|[[m' rest'] g'] l] eqn:Hr;
    [destruct Hm|].
  pose proof (run_head _ _ _ _ _ _ _ Hr) as Hh.
  pose proof (matches_split _ _ _ _ _ _ Hh) as E.
  destruct (include_inv _ _ _ _ _ Hh) as (_ & _ & Hend).
  assert (rest' = []) as ->.
  { destruct Hend as [->|Hd]; [reflexivity|].
    destruct rest' as [|c rest']; [reflexivity|]. injection Hd as ->.
    rewrite E in Hnl. apply Forall_app in Hnl. destruct Hnl as [_ Hnl].
    apply Forall_cons in Hnl. destruct Hnl as [Hnl _]. congruence. }
  rewrite app_nil_r in E. subst m'.
  now rewrite (scan_match _ _ _ _ _ _ _ Hr Hne).
Qed.

(** A root that is one include directive naming a file without
    directives: the file's text is inlined as it is, and substitution
    then runs over the inlined text. *)
Lemma single_include root abs indent ws path c qabs :
  let line := indent ++ B "!include:" ++ ws ++ path in
  let q := include_target sys (Dir sys abs) line in
  ReadFile sys root = Ok line -> Abs sys root = Ok abs ->
  Forall (fun c => blank c = true) indent ->
  Forall (fun c => blank c = true) ws ->
  path <> [] -> Forall (fun c => c <> nl) path ->
  ReadFile sys q = Ok c -> Abs sys q = Ok qabs ->
  MatchString configIncludePattern c = false ->
  ParseYAMLIncludes sys root
  = {| contents := PrefixStringLines indent c; includes := Some {[q]};
       err := None; visited := {[q]} |}.
Proof.
  intros line q Hr Ha Hi Hw Hne Hp Hq Hqa Hc.
  destruct (include_intro indent ws path Hi Hw Hne Hp) as [g Hm]. fold line in Hm.
  assert (Hline : line <> []).
  { unfold line. destruct indent; discriminate. }
  unfold ParseYAMLIncludes.
  rewrite (RecursiveParseYAMLIncludes_step _ _ _ _ _ line abs)
    by (assumption || apply Nat.le_0_l).
  unfold ReplaceAllFunc. rewrite (include_line_scan line g Hm Hline).
  cbn [replace_matches].
  assert (Hm' : matches configIncludePattern None (line ++ []) line [] g)
    by now rewrite app_nil_r.
  rewrite (include_callback_match _ _ _ _ _ _ _ _ Hm'). cbn zeta. fold q.
  change (RecursiveParseYAMLIncludes sys CONFIG_INCLUDE_RECURSION_DEPTH_LIMIT)
    with (RecursiveParseYAMLIncludes sys (S 19)).
  rewrite (RecursiveParseYAMLIncludes_step _ _ _ _ _ c qabs)
    by (assumption || (unfold CONFIG_INCLUDE_RECURSION_DEPTH_LIMIT; lia)).
  unfold ReplaceAllFunc. rewrite (MatchString_false_FindAll _ _ Hc).
  cbn [replace_matches default err contents visited app].
  assert (Hind : leading_blanks line = indent)
    by (apply leading_blanks_app; [assumption|reflexivity]).
  rewrite Hind, !app_nil_r.
  assert (Hset : {[q]} ∪ (∅ : gset bytes) = {[q]}) by apply union_empty_r_L.
  rewrite Hset. reflexivity.
Qed.

(** C1 (amended). Include expansion splices the files as they are: it
    resolves no variable and its result does not depend on the
    environment.  Variable substitution is applied once, to the expanded
    document as a whole, so text that came from an included file is
    passed through it after inlining: for a root that is one directive
    naming a file without directives, the result is the substitution of
    the file's re-indented text. *)
Theorem Assemble_substitutes_after_expansion (rootPath : bytes) :
  (forall lookup,
     ParseYAMLIncludes (with_env sys lookup) rootPath = ParseYAMLIncludes sys rootPath)
  /\ (forall expanded incs,
        ParseYAMLIncludes sys rootPath
        = {| contents := expanded; includes := Some incs; err := None;
             visited := incs |} ->
        Assemble sys rootPath
        = match ParseConfigVariables sys expanded with
          | (_, Some e) => ([], None, Some e)
          | (resolved, None) => (resolved, Some incs, None)
          end)
  /\ (forall abs indent ws path c qabs,
        let line := indent ++ B "!include:" ++ ws ++ path in
        let q := include_target sys (Dir sys abs) line in
        ReadFile sys rootPath = Ok line -> Abs sys rootPath = Ok abs ->
        Forall (fun c => blank c = true) indent ->
        Forall (fun c => blank c = true) ws ->
        path <> [] -> Forall (fun c => c <> nl) path ->
        ReadFile sys q = Ok c -> Abs sys q = Ok qabs ->
        MatchString configIncludePattern c = false ->
        contents (ParseYAMLIncludes sys rootPath) = PrefixStringLines indent c
        /\ Assemble sys rootPath
           = match ParseConfigVariables sys (PrefixStringLines indent c) with
             | (_, Some e) => ([], None, Some e)
             | (resolved, None) => (resolved, Some {[q]}, None)
             end).
Proof.
  split; [|split].
  - intros lookup. apply with_env_expand.
  - intros expanded incs E. unfold Assemble. rewrite E. reflexivity.
  - intros abs indent ws path c qabs line q Hr Ha Hi Hw Hne Hp Hq Hqa Hc.
    pose proof (single_include rootPath abs indent ws path c qabs
                  Hr Ha Hi Hw Hne Hp Hq Hqa Hc) as E.
    fold line in E. fold q in E. split; [now rewrite E|].
    unfold Assemble. rewrite E. reflexivity.
Qed.

End Order.

Lemma Assemble_substitutes_after_expansion_witness :
  Assemble sys_tree (B "/root.yml")
  = (B "  a: 1" ++ nl :: B "  bar" ++ nl :: B "  c: bar", Some {[B "/b.yml"]}, None).
Proof.
  destruct (proj2 (proj2 (Assemble_substitutes_after_expansion sys_tree (B "/root.yml")))
              (B "/root.yml") (B "  ") (B " ") (B "/b.yml")
              (B "a: 1" ++ nl :: B "${FOO}" ++ nl :: B "c: ${FOO}") (B "/b.yml"))
    as [_ E].
  - reflexivity.
  - reflexivity.
  - repeat constructor.
  - repeat constructor.
  - discriminate.
  - repeat constructor; discriminate.
  - vm_compute. reflexivity.
  - vm_compute. reflexivity.
  - vm_compute. reflexivity.
  - rewrite E. vm_compute. reflexivity.
Defined.

(** C1 as stated fails: the second line of /b.yml is no placeholder in
    the file's own text (it stands at the start of a line), but becomes
    one behind the indentation of the include site, and is resolved. *)
Lemma Assemble_substitutes_after_expansion_counterexample :
  ParseConfigVariables sys_tree (B "a: 1" ++ nl :: B "${FOO}" ++ nl :: B "c: ${FOO}")
  = (B "a: 1" ++ nl :: B "${FOO}" ++ nl :: B "c: bar", None)
  /\ PerFileAssemble sys_tree (B "/root.yml")
     = (B "  a: 1" ++ nl :: B "  ${FOO}" ++ nl :: B "  c: bar", None)
  /\ fst (fst (Assemble sys_tree (B "/root.yml")))
     = B "  a: 1" ++ nl :: B "  bar" ++ nl :: B "  c: bar"
  /\ ~ (forall sys root,
          (fst (fst (Assemble sys root)), snd (Assemble sys root))
          = PerFileAssemble sys root).
Proof.
  split; [vm_compute; reflexivity|]. split; [vm_compute; reflexivity|].
  split; [vm_compute; reflexivity|].
  intros H. specialize (H sys_tree (B "/root.yml")). vm_compute in H. discriminate H.
Qed.

(** ** The recursion limit *)

Section RecursionLimit.

Variable sys : System.

Lemma replace_matches_outcome recurse1 recurse2 dir ms :
  (forall p i1 i2, same_outcome (recurse1 p i1) (recurse2 p i2)) ->
  forall e i1 i2,
    fst (replace_matches (include_callback sys recurse1 dir) ms (e, i1))
    = fst (replace_matches (include_callback sys recurse2 dir) ms (e, i2))
    /\ fst (snd (replace_matches (include_callback sys recurse1 dir) ms (e, i1)))
       = fst (snd (replace_matches (include_callback sys recurse2 dir) ms (e, i2))).
Proof.
  intros Hrec. induction ms as [|[gap m] ms IH]; intros e i1 i2; [now split|].
  cbn [replace_matches].
  assert (Hcb : exists out e' j1 j2,
    include_callback sys recurse1 dir (e, i1) m = (out, (e', j1))
    /\ include_callback sys recurse2 dir (e, i2) m = (out, (e', j2))).
  { destruct e as [e|]; [now exists [], (Some e), i1, i2|].
    unfold include_callback.
    destruct (negb (length (FindSubmatch configIncludePattern m) =? 3));
      [now exists [], (Some "invalid include match"), i1, i2|].
    set (p := resolve_include sys dir _).
    destruct (Hrec p (Some ({[p]} ∪ i1)) (Some ({[p]} ∪ i2))) as [He Hc].
    rewrite He, Hc.
    destruct (err (recurse2 p _)); do 4 eexists; split; reflexivity. }
  destruct Hcb as (out & e' & j1 & j2 & -> & ->).
  specialize (IH e' j1 j2).
  destruct (replace_matches _ ms (e', j1)) as [o1 [e1 k1]].
  destruct (replace_matches _ ms (e', j2)) as [o2 [e2 k2]].
  simpl in *. destruct IH as [-> ->]. now split.
Qed.

(** The contents and the error of an expansion depend neither on the map
    it is given nor on the fuel, once there is enough of it. *)
Lemma expansion_outcome fuel1 :
  forall fuel2 p inc1 inc2 d,
    S CONFIG_INCLUDE_RECURSION_DEPTH_LIMIT - d <= fuel1 ->
    S CONFIG_INCLUDE_RECURSION_DEPTH_LIMIT - d <= fuel2 ->
    same_outcome (RecursiveParseYAMLIncludes sys fuel1 p inc1 d)
                 (RecursiveParseYAMLIncludes sys fuel2 p inc2 d).
Proof.
  induction fuel1 as [|fuel1 IH]; intros fuel2 p inc1 inc2 d H1 H2.
  - rewrite !RecursiveParseYAMLIncludes_limit by lia. now split.
  - destruct (le_lt_dec d CONFIG_INCLUDE_RECURSION_DEPTH_LIMIT) as [Hd|Hd];
      [|rewrite !RecursiveParseYAMLIncludes_limit by lia; now split].
    destruct fuel2 as [|fuel2]; [lia|].
    cbn [RecursiveParseYAMLIncludes].
    replace (CONFIG_INCLUDE_RECURSION_DEPTH_LIMIT <? d) with false
      by (symmetry; now apply Nat.ltb_ge).
    destruct (ReadFile sys p) as [doc|e]; [|now split].
    destruct (Abs sys p) as [abs|e]; [|now split].
    unfold ReplaceAllFunc. destruct (FindAll configIncludePattern doc) as [ms tl].
    destruct (replace_matches_outcome
                (fun p' inc' => RecursiveParseYAMLIncludes sys fuel1 p' inc' (d + 1))
                (fun p' inc' => RecursiveParseYAMLIncludes sys fuel2 p' inc' (d + 1))
                (Dir sys abs) ms
                (fun p' i1 i2 => IH fuel2 p' i1 i2 (d + 1) ltac:(lia) ltac:(lia))
                None (default ∅ inc1) (default ∅ inc2)) as [Ho He].
    destruct (replace_matches _ ms (None, default ∅ inc1)) as [o1 [e1 k1]].
    destruct (replace_matches _ ms (None, default ∅ inc2)) as [o2 [e2 k2]].
    simpl in Ho, He. subst o2 e2. destruct e1; now split.
Qed.

(** The fuel of [ParseYAMLIncludes] never runs out: more changes nothing. *)
Lemma fuel_enough fuel p :
  S CONFIG_INCLUDE_RECURSION_DEPTH_LIMIT <= fuel ->
  same_outcome (RecursiveParseYAMLIncludes sys fuel p None 0)
               (ParseYAMLIncludes sys p).
Proof. intros H. apply expansion_outcome; [lia|apply Nat.le_refl]. Qed.

(** Directives whose files expand without error leave no error behind. *)
Lemma replace_matches_no_error fuel d dir ms :
  S CONFIG_INCLUDE_RECURSION_DEPTH_LIMIT - (d + 1) <= fuel ->
  (forall gap m, In (gap, m) ms ->
     exists prev rest g, matches configIncludePattern prev (m ++ rest) m rest g) ->
  Forall (fun gm => expansion_ok sys (include_target sys dir (snd gm)) (d + 1)) ms ->
  forall inc,
    fst (snd (replace_matches
                (include_callback sys
                   (fun p' inc' => RecursiveParseYAMLIncludes sys fuel p' inc' (d + 1))
                   dir) ms (None, inc))) = None.
Proof.
  intros Hfuel Hms Hok. induction Hok as [|[gap m] ms Hm _ IH]; intros inc;
    [reflexivity|].
  cbn [replace_matches].
  destruct (Hms gap m (or_introl eq_refl)) as (prev & rest & g & Hg).
  rewrite (include_callback_match _ _ _ _ _ _ _ _ Hg). cbn zeta.
  set (p := include_target sys dir m).
  destruct (expansion_outcome fuel
              (S CONFIG_INCLUDE_RECURSION_DEPTH_LIMIT - (d + 1)) p
              (Some ({[p]} ∪ inc)) None (d + 1) Hfuel (Nat.le_refl _)) as [He _].
  unfold expansion_ok in Hm. simpl in Hm. fold p in Hm. rewrite Hm in He.
  rewrite He.
  specialize (IH (fun gap m H => Hms gap m (or_intror H))
                 (visited (RecursiveParseYAMLIncludes sys fuel p
                             (Some ({[p]} ∪ inc)) (d + 1)))).
  destruct (replace_matches _ ms _) as [o [e k]]. exact IH.
Qed.

Lemma chain_limit (chain : nat -> bytes) :
  (forall d, d <= CONFIG_INCLUDE_RECURSION_DEPTH_LIMIT ->
             includes_at sys d (chain d) (chain (S d))) ->
  forall k d fuel inc,
    d + k = S CONFIG_INCLUDE_RECURSION_DEPTH_LIMIT ->
    S CONFIG_INCLUDE_RECURSION_DEPTH_LIMIT - d <= fuel ->
    let r := RecursiveParseYAMLIncludes sys fuel (chain d) inc d in
    err r = Some recursion_limit_error /\ contents r = [] /\ includes r = None.
Proof.
  intros Hchain. induction k as [|k IH]; intros d fuel inc Hk Hfuel r; subst r.
  - rewrite RecursiveParseYAMLIncludes_limit by lia. now repeat split.
  - destruct fuel as [|fuel]; [lia|].
    destruct (Hchain d ltac:(lia))
      as (doc & abs & ms1 & gap & m & ms2 & tl & Hr & Ha & Hf & Ht & Hok).
    rewrite (RecursiveParseYAMLIncludes_step _ _ _ _ _ doc abs) by (assumption || lia).
    unfold ReplaceAllFunc. rewrite Hf, replace_matches_app.
    assert (Hgen : forall gap' m', In (gap', m') (ms1 ++ (gap, m) :: ms2) ->
              exists prev rest g,
                matches configIncludePattern prev (m' ++ rest) m' rest g).
    { intros gap' m' Hin.
      assert (Hin2 : In (gap', m') (fst (FindAll configIncludePattern doc)))
        by now rewrite Hf.
      destruct (scan_sound _ _ _ _ _ _ Hin2) as (_ & pr & re & g' & Hm'). eauto. }
    pose proof (replace_matches_no_error fuel d (Dir sys abs) ms1 ltac:(lia)
                  (fun gap' m' H => Hgen gap' m' (in_or_app _ _ _ (or_introl H)))
                  Hok (default ∅ inc)) as Hpre.
    destruct (replace_matches _ ms1 (None, default ∅ inc)) as [o1 [e1 i1]].
    simpl in Hpre. subst e1. cbn [replace_matches].
    destruct (Hgen gap m (in_elt _ _ _)) as (prev & rest & g & Hg).
    rewrite (include_callback_match _ _ _ _ _ _ _ _ Hg). cbn zeta. rewrite Ht.
    destruct (IH (d + 1) fuel (Some ({[chain (S d)]} ∪ i1)) ltac:(lia) ltac:(lia))
      as (He & _ & _).
    replace (d + 1) with (S d) in He by lia.
    replace (d + 1) with (S d) by lia. rewrite He.
    pose proof (replace_matches_include_failed sys
                  (fun p' inc' => RecursiveParseYAMLIncludes sys fuel p' inc' (S d))
                  (Dir sys abs) ms2 recursion_limit_error
                  (visited (RecursiveParseYAMLIncludes sys fuel (chain (S d))
                              (Some ({[chain (S d)]} ∪ i1)) (S d)))) as Hpost.
    destruct (replace_matches _ ms2 _) as [o2 [e2 i2]].
    simpl in Hpost. injection Hpost as -> ->. now repeat split.
Qed.

(** C2. Along an include chain deeper than the limit (each file of the
    chain reaches a directive naming the next one, whether the files
    repeat in a cycle or are all different) expansion fails with the
    recursion-limit error, whose message holds the limit, and returns
    neither bytes nor an include set. *)
Theorem recursion_limit (chain : nat -> bytes) :
  (forall d, d <= CONFIG_INCLUDE_RECURSION_DEPTH_LIMIT ->
             includes_at sys d (chain d) (chain (S d))) ->
  let r := ParseYAMLIncludes sys (chain 0) in
  err r = Some recursion_limit_error
  /\ contents r = [] /\ includes r = None
  /\ exists pre post,
       recursion_limit_error
       = pre +:+ pretty CONFIG_INCLUDE_RECURSION_DEPTH_LIMIT +:+ post.
Proof.
  intros Hchain r.
  destruct (chain_limit chain Hchain (S CONFIG_INCLUDE_RECURSION_DEPTH_LIMIT) 0
              (S CONFIG_INCLUDE_RECURSION_DEPTH_LIMIT) None eq_refl (Nat.le_refl _))
    as (He & Hc & Hi).
  repeat split; try assumption.
  exists "recursion depth limit of ", " reached". reflexivity.
Qed.

End RecursionLimit.

Lemma recursion_limit_witness :
  (err (ParseYAMLIncludes sys_tree (B "/cycle.yml"))
   = Some "recursion depth limit of 20 reached"
   /\ contents (ParseYAMLIncludes sys_tree (B "/cycle.yml")) = []
   /\ includes (ParseYAMLIncludes sys_tree (B "/cycle.yml")) = None)
  /\ (err (ParseYAMLIncludes sys_long (B "/a"))
      = Some "recursion depth limit of 20 reached"
      /\ includes (ParseYAMLIncludes sys_long (B "/a")) = None).
Proof.
  split.
  - destruct (recursion_limit sys_tree (fun _ => B "/cycle.yml"))
      as (He & Hc & Hi & _).
    + intros d _.
      exists (B "!include: /cycle.yml"), (B "/cycle.yml"), [], [],
             (B "!include: /cycle.yml"), [], [].
      repeat split; try (vm_compute; reflexivity). constructor.
    + repeat split; assumption.
  - destruct (recursion_limit sys_long long_chain) as (He & _ & Hi & _).
    + intros d Hd.
      exists (B "!include: " ++ long_chain d ++ B "x"), (long_chain d), [], [],
             (B "!include: " ++ long_chain d ++ B "x"), [], [].
      split; [reflexivity|]. split; [reflexivity|].
      do 21 (destruct d as [|d];
             [split; [vm_compute; reflexivity|];
              split; [vm_compute; reflexivity|constructor]|]).
      unfold CONFIG_INCLUDE_RECURSION_DEPTH_LIMIT in Hd. lia.
    + split; assumption.
Defined.

(** * Further properties of the code *)

(** ** What validation accepts and refuses *)

Section ValidationMore.

Variable sys : System.

Lemma first_error_None_iff {A : Type} (body : nat -> A -> option error)
    (ok : A -> Prop) l :
  (forall i x, body i x = None <-> ok x) ->
  forall k, first_error body k l = None <-> Forall ok l.
Proof.
  intros Hbody. induction l as [|x l IH]; intros k; simpl.
  - split; [constructor|reflexivity].
  - destruct (body k x) eqn:Hx.
    + split; [discriminate|]. intros H. apply Forall_cons in H.
      destruct H as [H _]. apply (Hbody k) in H. congruence.
    + rewrite IH. split.
      * intros H. constructor; [now apply (Hbody k)|assumption].
      * intros H. apply Forall_cons in H. tauto.
Qed.

Lemma validate_user_ok i entry : validate_user i entry = None <-> user_ok entry.
Proof.
  destruct entry as [username user]. unfold validate_user, user_ok. simpl.
  destruct (String.eqb_spec username "") as [->|Hn].
  - split; [discriminate|]. simpl. lia.
  - destruct (String.length username <? 3) eqn:H3.
    + apply Nat.ltb_lt in H3. split; [discriminate|lia].
    + apply Nat.ltb_ge in H3.
      destruct (String.eqb_spec (Password user) "") as [Hp|Hp].
      * destruct (String.eqb_spec (PasswordHashString user) "") as [Hh|Hh].
        -- split; [discriminate|tauto].
        -- split; [now split|reflexivity].
      * destruct (String.length (Password user) <? 6) eqn:H6.
        -- apply Nat.ltb_lt in H6. split; [discriminate|lia].
        -- apply Nat.ltb_ge in H6. split; [now split|reflexivity].
Qed.

Lemma count_column_sizes_sizes i columns :
  forall j (m : gmap string nat) m',
    count_column_sizes i j columns m = Ok m' -> Forall size_ok columns.
Proof.
  induction columns as [|c columns IH]; intros j m m' H; [constructor|].
  simpl in H.
  destruct (String.eqb_spec (Size c) "small") as [Hs|Hs];
    destruct (String.eqb_spec (Size c) "full") as [Hf|Hf]; simpl in H;
    try discriminate; (constructor; [unfold size_ok; tauto|eauto]).
Qed.

Lemma validate_page_ok i page : validate_page i page = None <-> page_ok page.
Proof.
  split.
  - intros H. pose proof (validate_page_full i page H) as Hfull.
    unfold validate_page in H. unfold page_ok.
    destruct (String.eqb_spec (Title page) "") as [Ht|Ht]; [discriminate|].
    destruct (width_ok (Width page)); [|discriminate].
    destruct (width_ok (DesktopNavigationWidth page)); [|discriminate].
    simpl in H.
    destruct (length (Columns page) =? 0) eqn:H0; [discriminate|].
    apply Nat.eqb_neq in H0.
    destruct (count_column_sizes i 0 (Columns page) ∅) as [m|e] eqn:Hc.
    + apply count_column_sizes_sizes in Hc.
      destruct (Width page =? "slim")%string.
      * destruct (2 <? length (Columns page)) eqn:H2; [discriminate|].
        apply Nat.ltb_ge in H2. repeat split; auto; lia.
      * destruct (3 <? length (Columns page)) eqn:H3; [discriminate|].
        apply Nat.ltb_ge in H3. repeat split; auto; lia.
    + destruct (Width page =? "slim")%string;
        [destruct (2 <? length (Columns page))
        |destruct (3 <? length (Columns page))]; discriminate.
  - intros (Ht & Hw & Hd & Hlen & Hsizes & Hfull). unfold validate_page.
    apply String.eqb_neq in Ht. rewrite Ht, Hw, Hd. simpl.
    destruct (length (Columns page) =? 0) eqn:H0;
      [apply Nat.eqb_eq in H0; lia|].
    destruct (count_column_sizes_ok i _ Hsizes 0 ∅) as [m Hm]. rewrite Hm.
    apply count_column_sizes_full in Hm. rewrite lookup_empty in Hm.
    simpl in Hm. rewrite Hm. fold (full_columns page).
    assert (Hgood : (2 <? full_columns page) || (full_columns page =? 0) = false).
    { apply orb_false_intro; [apply Nat.ltb_ge|apply Nat.eqb_neq]; lia. }
    rewrite Hgood.
    destruct (Width page =? "slim")%string.
    + destruct (2 <? length (Columns page)) eqn:H2; [|reflexivity].
      apply Nat.ltb_lt in H2. lia.
    + destruct (3 <? length (Columns page)) eqn:H3; [|reflexivity].
      apply Nat.ltb_lt in H3. lia.
Qed.

(** What validation checks, condition by condition. *)
Lemma IsConfigStateValid_None_iff (config : Config) :
  IsConfigStateValid sys config = None <-> config_ok sys config.
Proof.
  unfold IsConfigStateValid, config_ok.
  pose proof (first_error_None_iff validate_user user_ok (Users (Auth config))
                validate_user_ok 0) as Hu.
  pose proof (first_error_None_iff validate_page page_ok (Pages config)
                validate_page_ok 0) as Hp.
  destruct (Pages config) as [|p ps] eqn:Hpages; simpl length; cbn [Nat.eqb].
  { split; [discriminate|]. intros [H _]. congruence. }
  destruct (Users (Auth config)) as [|u us] eqn:Husers; simpl length; cbn [Nat.ltb Nat.leb andb].
  - cbn [first_error].
    destruct (String.eqb_spec (AssetsPath (Server config)) "") as [Ha|Ha]; simpl.
    + rewrite Hp. split; [intros H; repeat split; auto; congruence|tauto].
    + destruct (Exists sys (B (AssetsPath (Server config)))) eqn:He; simpl.
      * rewrite Hp. split; [intros H; repeat split; auto; congruence|tauto].
      * split; [discriminate|]. intros (_ & _ & _ & H & _).
        specialize (H Ha). discriminate.
  - change (0 <? S (length us)) with true. cbn [andb].
    destruct (String.eqb_spec (SecretKey (Auth config)) "") as [Hk|Hk].
    { split; [discriminate|]. intros (_ & H & _). exfalso. now apply H. }
    destruct (first_error validate_user 0 (u :: us)) as [e|] eqn:Hfe.
    { split; [discriminate|]. intros (_ & _ & H & _). apply Hu in H. discriminate. }
    assert (Hus : Forall user_ok (u :: us)) by now apply Hu.
    destruct (String.eqb_spec (AssetsPath (Server config)) "") as [Ha|Ha]; simpl.
    + rewrite Hp. split; [intros H; repeat split; auto; congruence|tauto].
    + destruct (Exists sys (B (AssetsPath (Server config)))) eqn:He; simpl.
      * rewrite Hp. split; [intros H; repeat split; auto; congruence|tauto].
      * split; [discriminate|]. intros (_ & _ & _ & H & _).
        specialize (H Ha). discriminate.
Qed.

(** X1. Validation accepts exactly the configurations that have at least
    one page, a secret key when there are users, well-formed users, an
    existing assets directory when one is named, and well-formed pages.
    (The user entries are records here; a nil entry of the Go map is
    never accepted, the loop over the users dereferences it.) *)
Theorem IsConfigStateValid_accepts (config : Config) :
  IsConfigStateValid sys config = None <-> config_ok sys config.
Proof.
  split; intros H.
  - now apply IsConfigStateValid_None_iff.
  - now apply IsConfigStateValid_None_iff.
Qed.

(** X2. Whether a configuration is accepted does not depend on the order
    in which the loop happens to visit the users of the Go map. *)
Theorem IsConfigStateValid_user_order (config : Config)
    (users users' : list (string * User)) :
  users ≡ₚ users' ->
  (IsConfigStateValid sys (with_users config users) = None
   <-> IsConfigStateValid sys (with_users config users') = None).
Proof.
  intros Hperm. rewrite !IsConfigStateValid_None_iff. unfold config_ok. simpl.
  assert (Hnil : users <> [] <-> users' <> []).
  { split; intros H E; apply H; subst.
    - now apply Permutation_nil_r.
    - symmetry in Hperm. now apply Permutation_nil_r. }
  assert (Hall : Forall user_ok users <-> Forall user_ok users')
    by now rewrite Hperm.
  tauto.
Qed.

Lemma first_error_at {A : Type} (body : nat -> A -> option error) l :
  forall k i x e,
    first_error body k (take i l) = None ->
    l !! i = Some x -> body (k + i) x = Some e ->
    first_error body k l = Some e.
Proof.
  induction l as [|y l IH]; intros k i x e Hpre Hi Hx; [discriminate|].
  destruct i as [|i]; simpl in *.
  - injection Hi as <-. rewrite Nat.add_0_r in Hx. now rewrite Hx.
  - destruct (body k y); [discriminate|].
    apply (IH (S k) i x e Hpre Hi). now replace (S k + i) with (k + S i) by lia.
Qed.

(** X3. The first violation wins: when everything before page [i] is in
    order and page [i] is not, the error returned is the one of that
    page's own check, and it names the page. *)
Theorem IsConfigStateValid_first_bad_page (config : Config) (i : nat) (page : Page) :
  (Users (Auth config) <> [] -> SecretKey (Auth config) <> "") ->
  Forall user_ok (Users (Auth config)) ->
  (AssetsPath (Server config) <> ""
   -> Exists sys (B (AssetsPath (Server config))) = true) ->
  Forall page_ok (take i (Pages config)) ->
  Pages config !! i = Some page -> ~ page_ok page ->
  exists e, IsConfigStateValid sys config = Some e
            /\ validate_page i page = Some e /\ names_page i e.
Proof.
  intros Hkey Husers Hassets Hbefore Hpage Hbad.
  destruct (validate_page i page) as [e|] eqn:He;
    [|now apply validate_page_ok in He].
  exists e. split; [|split; [reflexivity|now apply (validate_page_names i page)]].
  unfold IsConfigStateValid.
  destruct (Pages config) as [|p ps] eqn:Hpages; [discriminate|].
  cbn [length Nat.eqb].
  apply (first_error_None_iff validate_user user_ok _ validate_user_ok 0) in Husers.
  rewrite Husers.
  destruct (Users (Auth config)) as [|u us] eqn:Hu.
  - cbn [length Nat.ltb Nat.leb andb].
    destruct (String.eqb_spec (AssetsPath (Server config)) "") as [Ha|Ha]; simpl.
    + apply (first_error_at validate_page (p :: ps) 0 i page e); auto.
      now apply (first_error_None_iff validate_page page_ok _ validate_page_ok 0).
    + rewrite (Hassets Ha). simpl.
      apply (first_error_at validate_page (p :: ps) 0 i page e); auto.
      now apply (first_error_None_iff validate_page page_ok _ validate_page_ok 0).
  - change (0 <? length (u :: us)) with true. cbn [andb].
    destruct (String.eqb_spec (SecretKey (Auth config)) "") as [Hk|Hk];
      [exfalso; now apply Hkey|].
    destruct (String.eqb_spec (AssetsPath (Server config)) "") as [Ha|Ha]; simpl.
    + apply (first_error_at validate_page (p :: ps) 0 i page e); auto.
      now apply (first_error_None_iff validate_page page_ok _ validate_page_ok 0).
    + rewrite (Hassets Ha). simpl.
      apply (first_error_at validate_page (p :: ps) 0 i page e); auto.
      now apply (first_error_None_iff validate_page page_ok _ validate_page_ok 0).
Qed.

(** X4. [NewConfigFromYAML] only returns a configuration when the
    substituted text decodes to it, validation accepts it and
    initialisation succeeds; a text in which the variable pattern matches
    a reference that fails to resolve is refused before it is decoded,
    whatever the decoder would do. *)
Theorem NewConfigFromYAML_valid
    (Unmarshal : bytes -> result Config) (Initialize : Config -> option error)
    (contents : bytes) :
  (forall config,
     NewConfigFromYAML sys Unmarshal Initialize contents = Ok config ->
     config_ok sys config
     /\ Initialize config = None
     /\ exists resolved,
          ParseConfigVariables sys contents = (resolved, None)
          /\ Unmarshal resolved = Ok config)
  /\ (forall gap m e,
        In (gap, m) (fst (FindAll configVariablePattern contents)) ->
        resolution_error sys m = Some e ->
        exists e', NewConfigFromYAML sys Unmarshal Initialize contents = Err e').
Proof.
  unfold NewConfigFromYAML. split.
  - intros config.
    destruct (ParseConfigVariables sys contents) as [resolved [e|]]; [discriminate|].
    destruct (Unmarshal resolved) as [c|e] eqn:Hu; [|discriminate].
    destruct (IsConfigStateValid sys c) as [e|] eqn:Hv; [discriminate|].
    destruct (Initialize c) as [e|] eqn:Hi; [discriminate|].
    intros [= <-]. apply IsConfigStateValid_None_iff in Hv. eauto.
  - intros gap m e Hin He.
    unfold ParseConfigVariables, ReplaceAllFunc.
    destruct (FindAll configVariablePattern contents) as [ms tl]. simpl in Hin.
    destruct (replace_matches_error sys ms gap m e Hin He) as [e' He'].
    destruct (replace_matches _ ms None) as [out st]. simpl in He'. subst st.
    eauto.
Qed.

End ValidationMore.

Lemma IsConfigStateValid_user_order_witness :
  IsConfigStateValid sys_empty two_users = None
  <-> IsConfigStateValid sys_empty
        (with_users two_users (rev (Users (Auth two_users)))) = None.
Proof.
  apply (IsConfigStateValid_user_order sys_empty two_users
           (Users (Auth two_users)) (rev (Users (Auth two_users)))).
  apply Permutation_rev.
Defined.

Lemma IsConfigStateValid_first_bad_page_witness :
  exists e, IsConfigStateValid sys_empty bad_second_page = Some e
            /\ e = "page 2 has no name".
Proof.
  destruct (IsConfigStateValid_first_bad_page sys_empty bad_second_page 1
              {| Title := ""; Width := ""; DesktopNavigationWidth := "";
                 Columns := [ {| Size := "full" |} ] |})
    as (e & He & Hv & _).
  - intros H. now destruct H.
  - constructor.
  - intros H. now destruct H.
  - repeat constructor; try discriminate; vm_compute; lia.
  - reflexivity.
  - intros (H & _). now apply H.
  - exists e. split; [exact He|]. vm_compute in Hv. congruence.
Defined.

Lemma NewConfigFromYAML_valid_witness :
  config_ok sys_AB one_full_one_small
  /\ exists e',
       NewConfigFromYAML sys_AB (decode_to one_full_one_small) (fun _ => None)
                         (B "title: ${MISSING}") = Err e'.
Proof.
  split.
  - apply (proj1 (NewConfigFromYAML_valid sys_AB (decode_to one_full_one_small)
                    (fun _ => None) (B "title: ${A}")) one_full_one_small).
    vm_compute. reflexivity.
  - apply (proj2 (NewConfigFromYAML_valid sys_AB (decode_to one_full_one_small)
                    (fun _ => None) (B "title: ${MISSING}"))
             (B "title:") (B " ${MISSING}") "environment variable MISSING not found").
    + vm_compute. left. reflexivity.
    + vm_compute. reflexivity.
Defined.

(** ** Trimming *)

Section Trim.

Lemma last_rev (l : bytes) : last (rev l) = head l.
Proof. destruct l as [|c l]; [reflexivity|]. simpl. apply last_snoc. Qed.

Lemma head_rev (l : bytes) : head (rev l) = last l.
Proof. rewrite <- (rev_involutive l) at 2. now rewrite last_rev. Qed.

Lemma TrimLeft_head s c : head (TrimLeft s) = Some c -> is_space c = false.
Proof.
  induction s as [|d s IH]; simpl; [discriminate|].
  destruct (is_space d) eqn:Hd; [exact IH|]. simpl. now intros [= <-].
Qed.

Lemma TrimLeft_suffix s :
  exists w, s = w ++ TrimLeft s /\ Forall (fun c => is_space c = true) w.
Proof.
  induction s as [|d s (w & E & Hw)]; [now exists []|]. simpl.
  destruct (is_space d) eqn:Hd.
  - exists (d :: w). split; [now rewrite E at 1|now constructor].
  - now exists [].
Qed.

Lemma TrimLeft_last s c : last (TrimLeft s) = Some c -> last s = Some c.
Proof.
  destruct (TrimLeft_suffix s) as (w & E & _). intros H. rewrite E.
  destruct (TrimLeft s) as [|d t]; [discriminate|]. now rewrite last_app_cons.
Qed.

Lemma TrimLeft_fixed s :
  (forall c, head s = Some c -> is_space c = false) -> TrimLeft s = s.
Proof.
  destruct s as [|c s]; [reflexivity|]. intros H. simpl.
  now rewrite (H c eq_refl).
Qed.

Lemma TrimLeft_blanks w s :
  Forall (fun c => is_space c = true) w -> TrimLeft (w ++ s) = TrimLeft s.
Proof. induction 1 as [|c w Hc _ IH]; simpl; [reflexivity|]. now rewrite Hc. Qed.

(** The result of [TrimSpace] neither starts nor ends with white space. *)
Lemma TrimSpace_ends s :
  (forall c, head (TrimSpace s) = Some c -> is_space c = false)
  /\ (forall c, last (TrimSpace s) = Some c -> is_space c = false).
Proof.
  unfold TrimSpace. split; intros c.
  - rewrite head_rev. intros H. apply TrimLeft_last in H.
    rewrite last_rev in H. now apply TrimLeft_head in H.
  - rewrite last_rev. apply TrimLeft_head.
Qed.

Lemma TrimSpace_fixed s :
  (forall c, head s = Some c -> is_space c = false) ->
  (forall c, last s = Some c -> is_space c = false) ->
  TrimSpace s = s.
Proof.
  intros Hh Hl. unfold TrimSpace. rewrite (TrimLeft_fixed s Hh).
  rewrite TrimLeft_fixed; [apply rev_involutive|].
  intros c. rewrite head_rev. apply Hl.
Qed.

Lemma TrimSpace_idempotent s : TrimSpace (TrimSpace s) = TrimSpace s.
Proof. apply TrimSpace_fixed; apply TrimSpace_ends. Qed.

Lemma TrimSpace_leading w s :
  Forall (fun c => is_space c = true) w -> TrimSpace (w ++ s) = TrimSpace s.
Proof. intros H. unfold TrimSpace. now rewrite TrimLeft_blanks. Qed.

End Trim.

(** ** One reference in a text *)

Section OneReference.

Variable sys : System.

(** A text with a single reference, standing where the pattern can match
    it: the result is what the callback makes of that match, between the
    text before and the text after. *)
Lemma parse_one_reference pre pfx ty name post :
  valid_type ty -> valid_name name ->
  Forall (fun c => c <> dollar) pre -> Forall (fun c => c <> dollar) post ->
  (pre = [] /\ pfx = []) \/ (exists c, pfx = [c] /\ c <> nl /\ c <> dollar) ->
  ParseConfigVariables sys (pre ++ pfx ++ placeholder ty name ++ post)
  = match variable_callback sys None (pfx ++ placeholder ty name) with
    | (out, None) => (pre ++ out ++ post, None)
    | (_, Some e) => ([], Some e)
    end.
Proof.
  intros Hty Hn Hpre Hpost Hctx.
  unfold ParseConfigVariables, ReplaceAllFunc, FindAll.
  assert (Hscan :
    scan configVariablePattern None (pre ++ pfx ++ placeholder ty name ++ post) 0
    = ([(pre, pfx ++ placeholder ty name)], post)).
  { destruct Hctx as [[-> ->]|(c & -> & Hc & Hd)].
    - destruct (var_run_head None [] ty name post) as (g & l & Hr & _);
        [left; now split|assumption..|].
      cbn [app] in *. rewrite (scan_match _ _ _ _ _ _ _ Hr) by discriminate.
      now rewrite var_scan_plain.
    - rewrite var_scan_gap; [|assumption|simpl; congruence].
      destruct (var_run_head (prev_after None pre) [c] ty name post)
        as (g & l & Hr & _); [right; eauto|assumption..|].
      rewrite (scan_match _ _ _ _ _ _ _ Hr) by discriminate.
      rewrite var_scan_plain by assumption. cbn [add_gap].
      now rewrite app_nil_r. }
  rewrite Hscan. cbn [replace_matches].
  destruct (variable_callback sys None (pfx ++ placeholder ty name)) as [out [e|]];
    [reflexivity|].
  now rewrite app_nil_r, <- app_assoc.
Qed.

(** The context character of a reference that follows [pre]. *)
Lemma reference_context_split pre :
  Forall (fun c => c <> dollar) pre -> reference_context pre ->
  last pre <> Some backslash ->
  exists pre0 pfx,
    pre = pre0 ++ pfx /\ Forall (fun c => c <> dollar) pre0
    /\ context_ok None pfx /\ pfx <> [backslash]
    /\ ((pre0 = [] /\ pfx = []) \/ (exists c, pfx = [c] /\ c <> nl /\ c <> dollar)).
Proof.
  intros Hpre Hctx Hbs. destruct pre as [|c0 pre0] using rev_ind.
  - exists [], []. repeat split; auto; try (left; now split).
  - clear IHpre0. rewrite last_snoc in Hbs.
    destruct Hctx as [E|(c & Hl & Hc)]; [now destruct pre0|].
    rewrite last_snoc in Hl. injection Hl as ->.
    apply Forall_app in Hpre. destruct Hpre as [Hpre0 Hc0].
    apply Forall_cons in Hc0. destruct Hc0 as [Hc0 _].
    exists pre0, [c]. repeat split; auto.
    + right. eauto.
    + congruence.
    + right. eauto.
Qed.

(** X5. A reference to a set environment variable, written [${NAME}] or
    [${env:NAME}], at the start of the text or after a character that is
    neither a newline nor a backslash, is replaced by the value of the
    variable; the value is put in as it is and is not scanned again. *)
Theorem ParseConfigVariables_substitutes (pre ty name v post : bytes) :
  ty = [] \/ ty = configVarTypeEnv ->
  env_name name -> LookupEnv sys name = Some v ->
  Forall (fun c => c <> dollar) pre -> Forall (fun c => c <> dollar) post ->
  reference_context pre -> last pre <> Some backslash ->
  ParseConfigVariables sys (pre ++ placeholder ty name ++ post)
  = (pre ++ v ++ post, None).
Proof.
  intros Hty Hname Hv Hpre Hpost Hctx Hbs.
  destruct (reference_context_split pre Hpre Hctx Hbs)
    as (pre0 & pfx & -> & Hpre0 & Hok & Hnb & Hcase).
  assert (Hvt : valid_type ty).
  { destruct Hty as [->| ->]; [constructor|repeat constructor]. }
  pose proof (valid_name_of_env name Hname) as Hvn.
  rewrite <- app_assoc.
  rewrite (parse_one_reference pre0 pfx ty name post) by assumption.
  rewrite (variable_callback_plain sys pfx ty name) by assumption.
  assert (Ht : Ternary (bool_decide (ty = [])) configVarTypeEnv ty = configVarTypeEnv).
  { destruct Hty as [->| ->]; reflexivity. }
  rewrite Ht, (env_resolves sys name v Hname Hv).
  now rewrite <- !app_assoc.
Qed.

(** X6. A reference whose type is not one of the three known types is
    left in the text as it is, and is no error. *)
Theorem ParseConfigVariables_unknown_type (pre ty name post : bytes) :
  ty <> [] -> valid_type ty -> ~ known_type ty -> valid_name name ->
  Forall (fun c => c <> dollar) pre -> Forall (fun c => c <> dollar) post ->
  reference_context pre -> last pre <> Some backslash ->
  ParseConfigVariables sys (pre ++ placeholder ty name ++ post)
  = (pre ++ placeholder ty name ++ post, None).
Proof.
  intros Hne Hvt Hunk Hvn Hpre Hpost Hctx Hbs.
  destruct (reference_context_split pre Hpre Hctx Hbs)
    as (pre0 & pfx & -> & Hpre0 & Hok & Hnb & Hcase).
  rewrite <- app_assoc.
  rewrite (parse_one_reference pre0 pfx ty name post) by assumption.
  rewrite (variable_callback_plain sys pfx ty name) by assumption.
  rewrite bool_decide_eq_false_2 by assumption. cbn [Ternary].
  unfold ParseConfigVariableOfType, known_type in *.
  rewrite !bool_decide_eq_false_2 by tauto.
  now rewrite <- !app_assoc.
Qed.

(** X7. A reference to an environment variable of the strict form that is
    not set, at the start of the text or after a character that is
    neither a newline nor a backslash, in a text without another dollar
    sign, makes the whole parse fail, with an error that names the
    variable, and no bytes. *)
Theorem ParseConfigVariables_unset (pre ty name post : bytes) :
  ty = [] \/ ty = configVarTypeEnv ->
  env_name name -> LookupEnv sys name = None ->
  Forall (fun c => c <> dollar) pre -> Forall (fun c => c <> dollar) post ->
  reference_context pre -> last pre <> Some backslash ->
  ParseConfigVariables sys (pre ++ placeholder ty name ++ post)
  = ([], Some ("parsing variable: environment variable " +:+ fmt name
               +:+ " not found")).
Proof.
  intros Hty Hname Hv Hpre Hpost Hctx Hbs.
  destruct (reference_context_split pre Hpre Hctx Hbs)
    as (pre0 & pfx & -> & Hpre0 & Hok & Hnb & Hcase).
  assert (Hvt : valid_type ty).
  { destruct Hty as [->| ->]; [constructor|repeat constructor]. }
  pose proof (valid_name_of_env name Hname) as Hvn.
  rewrite <- app_assoc.
  rewrite (parse_one_reference pre0 pfx ty name post) by assumption.
  rewrite (variable_callback_plain sys pfx ty name) by assumption.
  assert (Ht : Ternary (bool_decide (ty = [])) configVarTypeEnv ty = configVarTypeEnv).
  { destruct Hty as [->| ->]; reflexivity. }
  rewrite Ht. unfold ParseConfigVariableOfType.
  rewrite bool_decide_eq_true_2 by reflexivity.
  apply env_pattern_spec in Hname. now rewrite Hname, Hv.
Qed.

(** X8. A reference at the start of a line other than the first is not
    matched: the text comes back unchanged even when the variable is set
    or missing. *)
Theorem ParseConfigVariables_line_start (pre ty name post : bytes) :
  valid_type ty -> valid_name name ->
  Forall (fun c => c <> dollar) pre -> Forall (fun c => c <> dollar) post ->
  ParseConfigVariables sys (pre ++ nl :: placeholder ty name ++ post)
  = (pre ++ nl :: placeholder ty name ++ post, None).
Proof.
  intros Hvt [_ Hvn] Hpre Hpost.
  unfold ParseConfigVariables, ReplaceAllFunc, FindAll.
  rewrite var_scan_gap; [|assumption|discriminate].
  rewrite scan_no_match.
  - rewrite placeholder_app, var_scan_dollar_tail.
    + cbn [add_gap app replace_matches]. reflexivity.
    + constructor; [discriminate|]. apply Forall_app. split.
      * destruct ty as [|t ty]; simpl typed_name.
        -- eapply Forall_impl; [exact Hvn|]. intros x Hx ->. discriminate.
        -- apply Forall_cons. split; [intros ->; inversion Hvt; discriminate|].
           apply Forall_app. split.
           ++ inversion Hvt as [|? ? _ Hty]; subst.
              eapply Forall_impl; [exact Hty|]. intros x Hx ->. discriminate.
           ++ constructor; [discriminate|].
              eapply Forall_impl; [exact Hvn|]. intros x Hx ->. discriminate.
      * constructor; [discriminate|assumption].
  - apply run_nil. intros m rest g Hm.
    pose proof (matches_split _ _ _ _ _ _ Hm) as E.
    destruct (var_inv _ _ _ _ _ Hm)
      as (pfx & ty' & name' & -> & [[-> _]|(c & -> & Hc)] & _);
      rewrite placeholder_app in E; simpl in E; injection E as E; congruence.
Qed.

(** X9. A text without a dollar sign holds no reference: it comes back
    unchanged. *)
Theorem ParseConfigVariables_plain (contents : bytes) :
  Forall (fun c => c <> dollar) contents ->
  ParseConfigVariables sys contents = (contents, None).
Proof.
  intros H. unfold ParseConfigVariables, ReplaceAllFunc, FindAll.
  now rewrite var_scan_plain.
Qed.

(** X10. A secret reference at the start of the text or after a
    character that is neither a newline nor a backslash, in a text
    without another dollar sign, resolves to the contents of the file
    under /run/secrets, without the white space around them, for any name
    the pattern admits (lower case and dashes included); an unreadable
    file is then an error of the whole parse. *)
Theorem ParseConfigVariables_secret (pre name post : bytes) :
  valid_name name ->
  Forall (fun c => c <> dollar) pre -> Forall (fun c => c <> dollar) post ->
  reference_context pre -> last pre <> Some backslash ->
  ParseConfigVariables sys (pre ++ placeholder configVarTypeSecret name ++ post)
  = match ReadFile sys (Join sys (B "/run/secrets") name) with
    | Ok secret => (pre ++ TrimSpace secret ++ post, None)
    | Err e => ([], Some ("parsing variable: reading secret file: " +:+ e))
    end
  /\ (forall secret c,
        head (TrimSpace secret) = Some c \/ last (TrimSpace secret) = Some c ->
        is_space c = false).
Proof.
  intros Hvn Hpre Hpost Hctx Hbs. split.
  - destruct (reference_context_split pre Hpre Hctx Hbs)
      as (pre0 & pfx & -> & Hpre0 & Hok & Hnb & Hcase).
    assert (Hvt : valid_type configVarTypeSecret) by repeat constructor.
    rewrite <- app_assoc.
    rewrite (parse_one_reference pre0 pfx _ name post) by assumption.
    rewrite (variable_callback_plain sys pfx _ name) by assumption.
    cbn [bool_decide decide_rel Ternary].
    change (Ternary (bool_decide (configVarTypeSecret = [])) configVarTypeEnv
                    configVarTypeSecret) with configVarTypeSecret.
    unfold ParseConfigVariableOfType.
    rewrite bool_decide_eq_false_2 by discriminate.
    rewrite bool_decide_eq_true_2 by reflexivity.
    destruct (ReadFile sys _); [now rewrite <- !app_assoc|reflexivity].
  - intros secret c [H|H].
    + exact (proj1 (TrimSpace_ends secret) c H).
    + exact (proj2 (TrimSpace_ends secret) c H).
Qed.

(** X11. A readFileFromEnv reference only yields a value when its name is
    of the strict form and set to an absolute path of a readable file;
    the value is the contents of that file without the white space around
    them.  A relative path is an error. *)
Theorem ParseConfigVariableOfType_file_from_env (name v : bytes) :
  (ParseConfigVariableOfType sys configVarTypeFileFromEnv name = (v, false, None) ->
   env_name name
   /\ exists filePath fileContents,
        LookupEnv sys name = Some filePath /\ IsAbs sys filePath = true
        /\ ReadFile sys filePath = Ok fileContents
        /\ v = TrimSpace fileContents)
  /\ (forall filePath,
        env_name name -> LookupEnv sys name = Some filePath ->
        IsAbs sys filePath = false ->
        ParseConfigVariableOfType sys configVarTypeFileFromEnv name
        = ([], false, Some ("readFileFromEnv: file path " +:+ fmt filePath
                            +:+ " is not absolute"))).
Proof.
  unfold ParseConfigVariableOfType.
  rewrite bool_decide_eq_false_2 by discriminate.
  rewrite bool_decide_eq_false_2 by discriminate.
  rewrite bool_decide_eq_true_2 by reflexivity.
  split.
  - destruct (MatchString envVariableNamePattern name) eqn:Hm; [|discriminate].
    apply env_pattern_spec in Hm. simpl.
    destruct (LookupEnv sys name) as [filePath|]; [|discriminate].
    destruct (IsAbs sys filePath) eqn:Ha; [|discriminate]. simpl.
    destruct (ReadFile sys filePath) as [fileContents|e] eqn:Hr; [|discriminate].
    intros [= <-]. split; [assumption|]. eauto 6.
  - intros filePath Hname Hl Ha. apply env_pattern_spec in Hname.
    now rewrite Hname, Hl, Ha.
Qed.

End OneReference.

Lemma ParseConfigVariables_substitutes_witness :
  ParseConfigVariables sys_secret (B "v: ${NEST}!") = (B "v: ${A}!", None).
Proof.
  apply (ParseConfigVariables_substitutes sys_secret (B "v: ") [] (B "NEST")
           (B "${A}") (B "!")).
  - now left.
  - split; [discriminate|repeat constructor].
  - reflexivity.
  - repeat constructor; discriminate.
  - repeat constructor; discriminate.
  - right. exists " "%char. split; [reflexivity|discriminate].
  - discriminate.
Defined.

Lemma ParseConfigVariables_unknown_type_witness :
  ParseConfigVariables sys_empty (B "k: ${vault:token}")
  = (B "k: ${vault:token}", None).
Proof.
  apply (ParseConfigVariables_unknown_type sys_empty (B "k: ") (B "vault")
           (B "token") []).
  - discriminate.
  - repeat constructor.
  - intros [H|[H|H]]; discriminate H.
  - split; [discriminate|repeat constructor].
  - repeat constructor; discriminate.
  - constructor.
  - right. exists " "%char. split; [reflexivity|discriminate].
  - discriminate.
Defined.

Lemma ParseConfigVariables_unset_witness :
  ParseConfigVariables sys_empty (B "${env:HOME}/conf")
  = ([], Some "parsing variable: environment variable HOME not found").
Proof.
  apply (ParseConfigVariables_unset sys_empty [] (B "env") (B "HOME") (B "/conf")).
  - now right.
  - split; [discriminate|repeat constructor].
  - reflexivity.
  - constructor.
  - repeat constructor; discriminate.
  - now left.
  - discriminate.
Defined.

Lemma ParseConfigVariables_line_start_witness :
  ParseConfigVariables sys_AB (B "a: 1" ++ nl :: B "${A}")
  = (B "a: 1" ++ nl :: B "${A}", None).
Proof.
  apply (ParseConfigVariables_line_start sys_AB (B "a: 1") [] (B "A") []).
  - constructor.
  - split; [discriminate|repeat constructor].
  - repeat constructor; discriminate.
  - constructor.
Defined.

Lemma ParseConfigVariables_plain_witness :
  ParseConfigVariables sys_AB (B "pages: []") = (B "pages: []", None).
Proof.
  apply (ParseConfigVariables_plain sys_AB (B "pages: []")).
  repeat constructor; discriminate.
Defined.

Lemma ParseConfigVariables_secret_witness :
  ParseConfigVariables sys_secret (B "p: ${secret:db-pass}") = (B "p: s3cr3t", None).
Proof.
  apply (proj1 (ParseConfigVariables_secret sys_secret (B "p: ") (B "db-pass") []
                  ltac:(split; [discriminate|repeat constructor])
                  ltac:(repeat constructor; discriminate)
                  ltac:(constructor)
                  ltac:(right; exists " "%char; split; [reflexivity|discriminate])
                  ltac:(discriminate))).
Defined.

Lemma ParseConfigVariableOfType_file_from_env_witness :
  env_name (B "KEY_FILE")
  /\ ParseConfigVariableOfType sys_secret configVarTypeFileFromEnv (B "REL")
     = ([], false, Some "readFileFromEnv: file path key is not absolute").
Proof.
  split.
  - apply (proj1 (ParseConfigVariableOfType_file_from_env sys_secret
                    (B "KEY_FILE") (B "k3y"))).
    vm_compute. reflexivity.
  - apply (proj2 (ParseConfigVariableOfType_file_from_env sys_secret (B "REL") [])
             (B "key")).
    + split; [discriminate|repeat constructor].
    + reflexivity.
    + reflexivity.
Defined.

(** ** Package common *)

Section Common.

Lemma to_lower_idempotent c : to_lower (to_lower c) = to_lower c.
Proof. destruct c as [[] [] [] [] [] [] [] []]; reflexivity. Qed.

Lemma to_lower_space c : is_space (to_lower c) = is_space c.
Proof. destruct c as [[] [] [] [] [] [] [] []]; reflexivity. Qed.

Lemma ToLower_idempotent s : ToLower (ToLower s) = ToLower s.
Proof.
  unfold ToLower. rewrite map_map. apply map_ext. exact to_lower_idempotent.
Qed.

Lemma TrimLeft_ToLower s : TrimLeft (ToLower s) = ToLower (TrimLeft s).
Proof.
  induction s as [|c s IH]; [reflexivity|]. simpl.
  rewrite to_lower_space. now destruct (is_space c).
Qed.

Lemma TrimSpace_ToLower s : TrimSpace (ToLower s) = ToLower (TrimSpace s).
Proof.
  unfold TrimSpace. rewrite TrimLeft_ToLower. unfold ToLower at 1.
  rewrite <- map_rev. fold (ToLower (rev (TrimLeft s))).
  rewrite TrimLeft_ToLower. unfold ToLower. now rewrite map_rev.
Qed.

Lemma normalize_shape (t : bytes) :
  ToLower t = t -> TrimSpace t = t ->
  forall r,
    r = match t with
        | c :: _ => if negb (Ascii.eqb c "v") then "v"%char :: t else t
        | [] => t
        end ->
    (r = [] \/ head r = Some "v"%char) /\ NormalizeVersionFormat r = r.
Proof.
  intros Hlow Htrim r ->.
  assert (Hends : forall c, last t = Some c -> is_space c = false).
  { intros c. rewrite <- Htrim. apply TrimSpace_ends. }
  destruct t as [|c t']; [split; [now left|reflexivity]|].
  destruct (Ascii.eqb_spec c "v") as [->|Hc]; simpl negb; cbv iota.
  - split; [now right|]. unfold NormalizeVersionFormat.
    rewrite Htrim, Hlow. reflexivity.
  - split; [now right|]. unfold NormalizeVersionFormat.
    rewrite TrimSpace_fixed.
    + change (ToLower ("v"%char :: c :: t')) with ("v"%char :: ToLower (c :: t')).
      rewrite Hlow. simpl. reflexivity.
    + intros d [= <-]. reflexivity.
    + intros d. rewrite last_cons_cons. apply Hends.
Qed.

(** X12. [NormalizeVersionFormat] yields the empty text or a text that
    starts with a lower-case v, and normalising twice changes nothing
    more. *)
Theorem NormalizeVersionFormat_idempotent (version : bytes) :
  (NormalizeVersionFormat version = []
   \/ head (NormalizeVersionFormat version) = Some "v"%char)
  /\ NormalizeVersionFormat (NormalizeVersionFormat version)
     = NormalizeVersionFormat version.
Proof.
  apply (normalize_shape (ToLower (TrimSpace version))).
  - apply ToLower_idempotent.
  - rewrite <- TrimSpace_ToLower. apply TrimSpace_idempotent.
  - reflexivity.
Qed.

(** *** URL schemes *)

Lemma scheme_anchor_scan s : forall c,
  scan urlSchemePattern (Some c) s 0 = ([], s).
Proof.
  induction s as [|d s IH]; intros c; [reflexivity|].
  rewrite scan_no_match by reflexivity. now rewrite IH.
Qed.

Lemma scheme_inv prev s m rest g :
  matches urlSchemePattern prev s m rest g ->
  prev = None
  /\ exists scheme,
       scheme <> [] /\ Forall (fun c => lower_letter c = true) scheme
       /\ m = scheme ++ B "://".
Proof.
  unfold urlSchemePattern. intros H. inv_matches.
  split; [reflexivity|]. eexists. split; [eassumption|]. split; [eassumption|].
  reflexivity.
Qed.

Lemma scheme_intro scheme rest :
  scheme <> [] -> Forall (fun c => lower_letter c = true) scheme ->
  matches urlSchemePattern None (scheme ++ B "://" ++ rest) (scheme ++ B "://")
          rest [].
Proof.
  intros Hne Hs. unfold urlSchemePattern.
  apply (M_Cat_eq _ _ _ _ [] (scheme ++ B "://" ++ rest) [] (scheme ++ B "://")
           rest []); [apply M_BeginText| |reflexivity|reflexivity].
  apply (M_Cat_eq _ _ _ _ scheme (B "://" ++ rest) [] (B "://") rest []);
    [now apply M_Plus| |reflexivity|reflexivity].
  apply (M_Cat_eq _ _ _ _ [":"%char] (B "//" ++ rest) [] (B "//") rest []);
    [apply M_Lit| |reflexivity|reflexivity].
  apply (M_Cat_eq _ _ _ _ ["/"%char] ("/"%char :: rest) [] ["/"%char] rest []);
    [apply M_Lit|apply M_Lit|reflexivity|reflexivity].
Qed.

(** X13. [StripURLScheme] removes a leading lower-case scheme with its
    "://" and nothing else: a URL that does not start that way (an
    upper-case scheme, no scheme) is returned unchanged, and only the
    first scheme of a text is removed. *)
Theorem StripURLScheme_spec (url : bytes) :
  (forall scheme rest,
     scheme <> [] -> Forall (fun c => lower_letter c = true) scheme ->
     url = scheme ++ B "://" ++ rest -> StripURLScheme url = rest)
  /\ ((forall scheme rest,
         scheme <> [] -> Forall (fun c => lower_letter c = true) scheme ->
         url <> scheme ++ B "://" ++ rest) ->
      StripURLScheme url = url).
Proof.
  unfold StripURLScheme, ReplaceAllString, ReplaceAllFunc, FindAll. split.
  - intros scheme rest Hne Hs ->.
    pose proof (scheme_intro scheme rest Hne Hs) as Hm. apply run_matches in Hm.
    destruct (run urlSchemePattern None (scheme ++ B "://" ++ rest))
      as [|[[m' rest'] g'] l] eqn:Hr; [destruct Hm|].
    pose proof (run_head _ _ _ _ _ _ _ Hr) as Hh.
    pose proof (matches_split _ _ _ _ _ _ Hh) as E.
    destruct (scheme_inv _ _ _ _ _ Hh) as (_ & scheme' & Hne' & Hs' & ->).
    rewrite <- app_assoc in E.
    destruct (app_sep_inj (fun c => lower_letter c = true) scheme scheme'
                ":"%char ":"%char _ _ Hs Hs' ltac:(discriminate) ltac:(discriminate) E)
      as (<- & _ & E').
    injection E' as <-.
    rewrite (scan_match _ _ _ _ _ _ _ Hr) by (destruct scheme; discriminate).
    destruct (prev_after None (scheme ++ B "://")) as [c|] eqn:Hp.
    + rewrite scheme_anchor_scan. reflexivity.
    + unfold prev_after in Hp. unfold B in Hp. simpl in Hp.
      change (scheme ++ [":"%char; "/"%char; "/"%char])
        with (scheme ++ [":"%char; "/"%char] ++ ["/"%char]) in Hp.
      rewrite app_assoc, last_snoc in Hp. discriminate.
  - intros Hno. rewrite <- (app_nil_r url) at 1. rewrite scan_gap.
    + simpl. now rewrite !app_nil_r.
    + intros p1 p2 -> Hp2. rewrite app_nil_r. apply run_nil.
      intros m rest g Hm. pose proof (matches_split _ _ _ _ _ _ Hm) as E.
      destruct (scheme_inv _ _ _ _ _ Hm) as (Hprev & scheme & Hne & Hs & ->).
      destruct p1 as [|c p1] using rev_ind.
      * apply (Hno scheme rest Hne Hs). simpl. now rewrite E, <- app_assoc.
      * unfold prev_after in Hprev. rewrite last_snoc in Hprev. discriminate.
Qed.

(** *** Slugs *)

Lemma to_lower_not_upper c : in_range "A" "Z" (to_lower c) = false.
Proof. destruct c as [[] [] [] [] [] [] [] []]; reflexivity. Qed.

Lemma to_lower_fixed c : in_range "A" "Z" c = false -> to_lower c = c.
Proof. unfold to_lower. now intros ->. Qed.

(** What a scan for [p+] leaves outside the matches holds no character
    of [p]. *)
Lemma plus_scan (Q : ascii -> Prop) p s :
  Forall Q s ->
  forall prev skip,
    Forall (fun gm => Forall (fun c => Q c /\ p c = false) (fst gm))
           (fst (scan (Plus p) prev s skip))
    /\ Forall (fun c => Q c /\ p c = false) (snd (scan (Plus p) prev s skip)).
Proof.
  induction 1 as [|c s Hc Hs IH]; intros prev skip.
  - destruct skip; simpl; split; constructor.
  - destruct skip as [|k]; [|exact (IH _ _)].
    cbn [scan].
    destruct (run (Plus p) prev (c :: s)) as [|[[m rest] g] l] eqn:Hr.
    + assert (Hp : p c = false).
      { destruct (p c) eqn:E; [|reflexivity]. exfalso.
        apply (proj1 (run_nil _ _ _) Hr [c] s []).
        apply (M_Plus_eq _ _ _ [c] s); [reflexivity|discriminate|].
        now repeat constructor. }
      destruct (IH (Some c) 0) as [H1 H2].
      destruct (scan (Plus p) (Some c) s 0) as [[|[gap m] ms] tl]; simpl in *.
      * split; [constructor|now constructor].
      * apply Forall_cons in H1. destruct H1 as [Hgap Hms].
        split; [|assumption]. constructor; [|assumption].
        simpl. now constructor.
    + pose proof (run_head _ _ _ _ _ _ _ Hr) as Hm. inversion Hm; subst.
      destruct m as [|d m]; [congruence|].
      destruct (IH (Some c) (length (d :: m) - 1)) as [Hms Htl].
      destruct (scan (Plus p) (Some c) s (length (d :: m) - 1)) as [ms tl].
      simpl in *. split; [|assumption]. constructor; [constructor|assumption].
Qed.

Lemma replace_const_Forall (R : ascii -> Prop) repl ms :
  Forall (fun gm : bytes * bytes => Forall R (fst gm)) ms -> Forall R repl ->
  Forall R (fst (replace_matches (fun (st : unit) (_ : bytes) => (repl, st)) ms tt)).
Proof.
  intros Hms Hrepl. induction Hms as [|[gap m] ms Hg _ IH]; [constructor|].
  cbn [replace_matches]. destruct (replace_matches _ ms tt) as [out st].
  simpl in *. rewrite !Forall_app. auto.
Qed.

Lemma ReplaceAllString_Forall (Q : ascii -> Prop) p s repl :
  Forall Q s -> Forall (fun c => Q c /\ p c = false) repl ->
  Forall (fun c => Q c /\ p c = false) (ReplaceAllString (Plus p) s repl).
Proof.
  intros Hs Hrepl. unfold ReplaceAllString, ReplaceAllFunc, FindAll.
  destruct (plus_scan Q p s Hs None 0) as [H1 H2].
  destruct (scan (Plus p) None s 0) as [ms tl]. simpl in H1, H2.
  pose proof (replace_const_Forall _ repl ms H1 Hrepl) as H3.
  destruct (replace_matches _ ms tt) as [out st]. simpl in *.
  apply Forall_app. now split.
Qed.

(** A text without a character of [p] is left as it is. *)
Lemma ReplaceAllString_fixed p s repl :
  Forall (fun c => p c = false) s -> ReplaceAllString (Plus p) s repl = s.
Proof.
  intros Hs. unfold ReplaceAllString, ReplaceAllFunc, FindAll.
  rewrite <- (app_nil_r s) at 1. rewrite scan_gap.
  - simpl. now rewrite !app_nil_r.
  - intros p1 p2 -> Hp2. rewrite app_nil_r. apply run_nil.
    intros m rest g Hm. apply Forall_app in Hs. destruct Hs as [_ Hs].
    remember (Plus p) as re eqn:Ere. destruct Hm; try discriminate.
    injection Ere as <-.
    match goal with H : _ <> [] |- _ => rename H into Hne end.
    match goal with H : Forall _ m |- _ => rename H into Hall end.
    destruct m as [|d m]; [congruence|].
    apply Forall_cons in Hall. destruct Hall as [Hd _].
    simpl in Hs. apply Forall_cons in Hs. destruct Hs as [Hd' _]. congruence.
Qed.

Lemma TrimLeftChar_head cut s : head (TrimLeftChar cut s) <> Some cut.
Proof.
  induction s as [|d s IH]; simpl; [discriminate|].
  destruct (Ascii.eqb_spec d cut); [exact IH|]. simpl. congruence.
Qed.

Lemma TrimLeftChar_suffix cut s : exists w, s = w ++ TrimLeftChar cut s.
Proof.
  induction s as [|d s (w & E)]; [now exists []|]. simpl.
  destruct (Ascii.eqb d cut).
  - exists (d :: w). now rewrite E at 1.
  - now exists [].
Qed.

Lemma TrimLeftChar_last cut s c :
  last (TrimLeftChar cut s) = Some c -> last s = Some c.
Proof.
  destruct (TrimLeftChar_suffix cut s) as (w & E). intros H. rewrite E.
  destruct (TrimLeftChar cut s) as [|d t]; [discriminate|].
  now rewrite last_app_cons.
Qed.

Lemma TrimLeftChar_fixed cut s : head s <> Some cut -> TrimLeftChar cut s = s.
Proof.
  destruct s as [|c s]; [reflexivity|]. simpl. intros H.
  destruct (Ascii.eqb_spec c cut); [congruence|reflexivity].
Qed.

Lemma Trim_ends s cut :
  head (Trim s cut) <> Some cut /\ last (Trim s cut) <> Some cut.
Proof.
  unfold Trim. split.
  - rewrite head_rev. intros H. apply TrimLeftChar_last in H.
    rewrite last_rev in H. now apply TrimLeftChar_head in H.
  - rewrite last_rev. apply TrimLeftChar_head.
Qed.

Lemma Trim_fixed s cut :
  head s <> Some cut -> last s <> Some cut -> Trim s cut = s.
Proof.
  intros Hh Hl. unfold Trim. rewrite (TrimLeftChar_fixed cut s Hh).
  rewrite TrimLeftChar_fixed; [apply rev_involutive|].
  now rewrite head_rev.
Qed.

Lemma TrimLeftChar_Forall (R : ascii -> Prop) cut s :
  Forall R s -> Forall R (TrimLeftChar cut s).
Proof.
  destruct (TrimLeftChar_suffix cut s) as (w & E). intros H.
  rewrite E in H. now apply Forall_app in H.
Qed.

Lemma Trim_Forall (R : ascii -> Prop) s cut :
  Forall R s -> Forall R (Trim s cut).
Proof.
  intros H. unfold Trim.
  apply List.Forall_rev, TrimLeftChar_Forall, List.Forall_rev, TrimLeftChar_Forall, H.
Qed.

Lemma ToLower_fixed s :
  Forall (fun c => in_range "A" "Z" c = false) s -> ToLower s = s.
Proof.
  induction 1 as [|c s Hc _ IH]; [reflexivity|]. simpl.
  now rewrite to_lower_fixed, IH.
Qed.

Lemma ToLower_not_upper s :
  Forall (fun c => in_range "A" "Z" c = false) (ToLower s).
Proof. apply Forall_map, Forall_forall. intros c _. apply to_lower_not_upper. Qed.

(** X14. A slug holds no upper-case letter and no white space, neither
    starts nor ends with a dash, and is its own slug. *)
Theorem TitleToSlug_spec (s : bytes) :
  Forall (fun c => in_range "A" "Z" c = false /\ re_space c = false)
         (TitleToSlug s)
  /\ head (TitleToSlug s) <> Some "-"%char
  /\ last (TitleToSlug s) <> Some "-"%char
  /\ TitleToSlug (TitleToSlug s) = TitleToSlug s.
Proof.
  assert (Hall : Forall (fun c => in_range "A" "Z" c = false /\ re_space c = false)
                        (TitleToSlug s)).
  { unfold TitleToSlug. apply Trim_Forall.
    apply (ReplaceAllString_Forall (fun c => in_range "A" "Z" c = false)).
    - apply ToLower_not_upper.
    - repeat constructor. }
  destruct (Trim_ends (ReplaceAllString SequentialWhitespacePattern (ToLower s) (B "-"))
              "-"%char) as [Hh Hl].
  fold (TitleToSlug s) in Hh, Hl.
  repeat split; try assumption.
  unfold TitleToSlug at 1.
  rewrite ToLower_fixed
    by (eapply Forall_impl; [exact Hall|]; now intros c [H _]).
  unfold SequentialWhitespacePattern. rewrite ReplaceAllString_fixed
    by (eapply Forall_impl; [exact Hall|]; now intros c [_ H]).
  now apply Trim_fixed.
Qed.

(** *** Cutting a text *)

(** X15. With a limit that is not negative, [LimitStringLength] returns
    a prefix of the text of the smaller of the two lengths, and the flag
    tells exactly whether something was cut off. *)
Theorem LimitStringLength_spec {rune : Type} (s : list rune) (max : Z) :
  (0 <= max)%Z ->
  exists t cut,
    LimitStringLength s max = Some (t, cut)
    /\ (exists rest, s = t ++ rest)
    /\ Z.of_nat (length t) = Z.min (Z.of_nat (length s)) max
    /\ (cut = true <-> t <> s)
    /\ (cut = true <-> (max < Z.of_nat (length s))%Z).
Proof.
  intros Hmax. unfold LimitStringLength.
  destruct (Z.ltb_spec max (Z.of_nat (length s))) as [Hlt|Hge].
  - destruct (Z.ltb_spec max 0) as [?|_]; [lia|].
    exists (take (Z.to_nat max) s), true. split; [reflexivity|].
    assert (Hlen : length (take (Z.to_nat max) s) = Z.to_nat max)
      by (rewrite length_take; lia).
    split; [exists (drop (Z.to_nat max) s); now rewrite take_drop|].
    split; [lia|]. split; [|tauto].
    split; [|reflexivity]. intros _ E. rewrite E in Hlen. lia.
  - exists s, false. split; [reflexivity|].
    split; [exists []; now rewrite app_nil_r|].
    split; [lia|]. split; split; try discriminate; [congruence|lia].
Qed.

(** X16. [LimitStringLength] panics exactly when the limit is negative,
    whatever the text. *)
Theorem LimitStringLength_panics {rune : Type} (s : list rune) (max : Z) :
  LimitStringLength s max = None <-> (max < 0)%Z.
Proof.
  unfold LimitStringLength.
  destruct (Z.ltb_spec max (Z.of_nat (length s)));
    destruct (Z.ltb_spec max 0); split; try discriminate; try reflexivity; lia.
Qed.

(** *** Slices without zeros *)

Lemma append_nonzero_filter values : forall c,
  append_nonzero c values = c ++ List.filter (fun v => negb (v =? 0)%Z) values.
Proof.
  induction values as [|v values IH]; intros c; simpl.
  - now rewrite app_nil_r.
  - rewrite IH. destruct (v =? 0)%Z; simpl; [reflexivity|].
    now rewrite <- app_assoc.
Qed.

Lemma copy_at_first_zero_spec values rest :
  copy_at_first_zero values rest
  = if forallb (fun v => negb (v =? 0)%Z) rest then values
    else List.filter (fun v => negb (v =? 0)%Z) values.
Proof.
  induction rest as [|v rest IH]; simpl; [reflexivity|].
  destruct (v =? 0)%Z; simpl; [|exact IH].
  apply append_nonzero_filter.
Qed.

Lemma filter_all {A : Type} (f : A -> bool) l :
  forallb f l = true -> List.filter f l = l.
Proof.
  induction l as [|a l IH]; simpl; [reflexivity|].
  destruct (f a); simpl; [|discriminate]. intros H. now rewrite IH.
Qed.

(** X17. [MaybeCopySliceWithoutZeroValues] returns the values that are
    not zero, in their order: the early return of the slice itself and
    the copy made at the first zero give the same list. *)
Theorem MaybeCopySliceWithoutZeroValues_filter (values : list Z) :
  MaybeCopySliceWithoutZeroValues values
  = List.filter (fun v => negb (v =? 0)%Z) values.
Proof.
  unfold MaybeCopySliceWithoutZeroValues.
  destruct values as [|v values]; [reflexivity|].
  change (length (v :: values) =? 0) with false. cbv iota.
  rewrite copy_at_first_zero_spec.
  destruct (forallb _ (v :: values)) eqn:E; [|reflexivity].
  symmetry. now apply filter_all.
Qed.

(** *** Prefixed lines *)

(** X18. [PrefixStringLines] with the empty prefix returns the text as
    it is. *)
Theorem PrefixStringLines_empty (s : bytes) : PrefixStringLines [] s = s.
Proof.
  unfold PrefixStringLines.
  rewrite (map_ext _ (fun line => line)) by reflexivity.
  rewrite map_id. apply JoinLines_SplitLines.
Qed.

(** X19. Prefixing the lines twice is prefixing them once with both
    prefixes, the outer one first, when the inner prefix holds no
    newline. *)
Theorem PrefixStringLines_compose (p q s : bytes) :
  Forall (fun c => c <> nl) q ->
  PrefixStringLines p (PrefixStringLines q s) = PrefixStringLines (p ++ q) s.
Proof.
  intros Hq. unfold PrefixStringLines at 1.
  rewrite PrefixStringLines_lines by assumption.
  unfold PrefixStringLines. rewrite map_map. f_equal.
  apply map_ext. intros line. now rewrite app_assoc.
Qed.

End Common.

Lemma LimitStringLength_spec_witness :
  exists t cut,
    LimitStringLength (B "dashboard") 4 = Some (t, cut)
    /\ (exists rest, B "dashboard" = t ++ rest)
    /\ Z.of_nat (length t) = Z.min (Z.of_nat (length (B "dashboard"))) 4
    /\ (cut = true <-> t <> B "dashboard")
    /\ (cut = true <-> (4 < Z.of_nat (length (B "dashboard")))%Z).
Proof. apply (LimitStringLength_spec (B "dashboard") 4). lia. Defined.

Lemma PrefixStringLines_compose_witness :
  PrefixStringLines (B "  ") (PrefixStringLines (B "- ") (B "a" ++ nl :: B "b"))
  = PrefixStringLines (B "  " ++ B "- ") (B "a" ++ nl :: B "b").
Proof.
  apply (PrefixStringLines_compose (B "  ") (B "- ") (B "a" ++ nl :: B "b")).
  repeat constructor; discriminate.
Defined.

(** ** Include directives: errors and forms *)

Section IncludeMore.

Variable sys : System.

(** X20. The first directive of a file whose own expansion fails decides
    the result: when the directives before it expand without error, the
    expansion of the file fails with that directive's error, whatever
    follows it, and returns neither bytes nor an include set. *)
Theorem include_first_error (fuel : nat) (p : bytes) (inc : option (gset bytes))
    (d : nat) (doc abs : bytes) (ms1 : list (bytes * bytes)) (gap m : bytes)
    (ms2 : list (bytes * bytes)) (tl : bytes) (e : error) :
  d <= CONFIG_INCLUDE_RECURSION_DEPTH_LIMIT ->
  S CONFIG_INCLUDE_RECURSION_DEPTH_LIMIT - d <= fuel ->
  ReadFile sys p = Ok doc -> Abs sys p = Ok abs ->
  FindAll configIncludePattern doc = (ms1 ++ (gap, m) :: ms2, tl) ->
  Forall (fun gm => expansion_ok sys (include_target sys (Dir sys abs) (snd gm))
                                 (d + 1)) ms1 ->
  err (RecursiveParseYAMLIncludes sys
         (S CONFIG_INCLUDE_RECURSION_DEPTH_LIMIT - (d + 1))
         (include_target sys (Dir sys abs) m) None (d + 1)) = Some e ->
  let r := RecursiveParseYAMLIncludes sys fuel p inc d in
  err r = Some e /\ contents r = [] /\ includes r = None.
Proof.
  intros Hd Hfuel Hr Ha Hf Hok He r. subst r.
  destruct fuel as [|fuel]; [lia|].
  rewrite (RecursiveParseYAMLIncludes_step _ _ _ _ _ doc abs) by (assumption || lia).
  unfold ReplaceAllFunc. rewrite Hf, replace_matches_app.
  assert (Hgen : forall gap' m', In (gap', m') (ms1 ++ (gap, m) :: ms2) ->
            exists prev rest g,
              matches configIncludePattern prev (m' ++ rest) m' rest g).
  { intros gap' m' Hin.
    assert (Hin2 : In (gap', m') (fst (FindAll configIncludePattern doc)))
      by now rewrite Hf.
    destruct (scan_sound _ _ _ _ _ _ Hin2) as (_ & pr & re & g' & Hm'). eauto. }
  pose proof (replace_matches_no_error sys fuel d (Dir sys abs) ms1 ltac:(lia)
                (fun gap' m' H => Hgen gap' m' (in_or_app _ _ _ (or_introl H)))
                Hok (default ∅ inc)) as Hpre.
  destruct (replace_matches _ ms1 (None, default ∅ inc)) as [o1 [e1 i1]].
  simpl in Hpre. subst e1. cbn [replace_matches].
  destruct (Hgen gap m (in_elt _ _ _)) as (prev & rest & g & Hg).
  rewrite (include_callback_match _ _ _ _ _ _ _ _ Hg). cbn zeta.
  set (q := include_target sys (Dir sys abs) m) in *.
  destruct (expansion_outcome sys fuel
              (S CONFIG_INCLUDE_RECURSION_DEPTH_LIMIT - (d + 1)) q
              (Some ({[q]} ∪ i1)) None (d + 1) ltac:(lia) (Nat.le_refl _))
    as [He' _].
  rewrite He in He'. rewrite He'.
  pose proof (replace_matches_include_failed sys
                (fun p' inc' => RecursiveParseYAMLIncludes sys fuel p' inc' (d + 1))
                (Dir sys abs) ms2 e
                (visited (RecursiveParseYAMLIncludes sys fuel q
                            (Some ({[q]} ∪ i1)) (d + 1)))) as Hpost.
  destruct (replace_matches _ ms2 _) as [o2 [e2 i2]].
  simpl in Hpost. injection Hpost as -> ->. now repeat split.
Qed.

(** *** The preferred thread, piece by piece *)

Lemma head_Cat r1 r2 prev s m1 s1 g1 m2 s2 g2 :
  head_thread r1 prev s (m1, s1, g1) ->
  head_thread r2 (prev_after prev m1) s1 (m2, s2, g2) ->
  head_thread (Cat r1 r2) prev s (m1 ++ m2, s2, g1 ++ g2).
Proof.
  intros [l1 H1] [l2 H2]. unfold head_thread. cbn [run].
  rewrite H1. cbn [flat_map]. rewrite H2. cbn [map app]. eexists. reflexivity.
Qed.

Lemma head_Capture n r prev s m rest g :
  head_thread r prev s (m, rest, g) ->
  head_thread (Capture n r) prev s (m, rest, (n, m) :: g).
Proof.
  intros [l H]. unfold head_thread. cbn [run]. rewrite H. eexists. reflexivity.
Qed.

Lemma head_Quest_some r prev s t :
  head_thread r prev s t -> head_thread (Quest r) prev s t.
Proof.
  intros [l H]. unfold head_thread. cbn [run]. rewrite H. eexists. reflexivity.
Qed.

Lemma head_Quest_none r prev s :
  run r prev s = [] -> head_thread (Quest r) prev s ([], s, []).
Proof.
  intros H. unfold head_thread. cbn [run]. rewrite H. eexists. reflexivity.
Qed.

Lemma head_Lit prev c s : head_thread (Lit c) prev (c :: s) ([c], s, []).
Proof.
  unfold head_thread. cbn [run]. rewrite Ascii.eqb_refl. eexists. reflexivity.
Qed.

Lemma head_mark prev mark s :
  mark = "!"%char \/ mark = "$"%char ->
  head_thread (Alt (Lit "!") (Lit "$")) prev (mark :: s) ([mark], s, []).
Proof. intros [->| ->]; eexists; reflexivity. Qed.

Lemma star_head p w s :
  Forall (fun c => p c = true) w ->
  (forall c, head s = Some c -> p c = false) ->
  exists l, star p (w ++ s) = (w, s) :: l.
Proof.
  intros Hw Hs. induction Hw as [|c w Hc _ [l IH]].
  - destruct s as [|c s]; simpl; [now eexists|].
    rewrite (Hs c eq_refl). now eexists.
  - simpl. rewrite Hc, IH. simpl. now eexists.
Qed.

Lemma head_Star p prev w s :
  Forall (fun c => p c = true) w ->
  (forall c, head s = Some c -> p c = false) ->
  head_thread (Star p) prev (w ++ s) (w, s, []).
Proof.
  intros Hw Hs. destruct (star_head p w s Hw Hs) as [l H].
  unfold head_thread. cbn [run]. rewrite H. eexists. reflexivity.
Qed.

Lemma head_Plus_all p prev w :
  w <> [] -> Forall (fun c => p c = true) w ->
  head_thread (Plus p) prev w (w, [], []).
Proof.
  intros Hne Hw. destruct w as [|c w]; [congruence|].
  apply Forall_cons in Hw. destruct Hw as [Hc Hw].
  destruct (star_head p w [] Hw ltac:(discriminate)) as [l H].
  rewrite app_nil_r in H.
  unfold head_thread. cbn [run plus]. rewrite Hc, H. eexists. reflexivity.
Qed.

Lemma head_EndLine_nil prev : head_thread EndLine prev [] ([], [], []).
Proof. eexists. reflexivity. Qed.

Lemma head_BeginLine s : head_thread BeginLine None s ([], s, []).
Proof. eexists. reflexivity. Qed.

Lemma head_lits cs k s m rest g :
  (forall prev, head_thread k prev s (m, rest, g)) ->
  forall prev, head_thread (lits cs k) prev (cs ++ s) (cs ++ m, rest, g).
Proof.
  intros Hk. induction cs as [|c cs IH]; intros prev; [apply Hk|].
  exact (head_Cat (Lit c) (lits cs k) prev (c :: cs ++ s) [c] (cs ++ s) []
           (cs ++ m) rest g (head_Lit prev c (cs ++ s)) (IH _)).
Qed.

(** The thread the pattern prefers on a directive line: group 1 is the
    indentation, group 2 the path. *)
Lemma directive_head indent dash mark ws path :
  Forall (fun c => blank c = true) indent -> list_dash dash ->
  mark = "!"%char \/ mark = "$"%char ->
  Forall (fun c => blank c = true) ws ->
  path <> [] -> Forall (fun c => c <> nl) path ->
  (forall c, head path = Some c -> blank c = false) ->
  exists m g,
    head_thread configIncludePattern None (directive indent dash mark ws path)
                (m, [], g)
    /\ group g 1 = indent /\ group g 2 = path.
Proof.
  intros Hi Hd Hmark Hw Hne Hp Hhead.
  assert (Hany : Forall (fun c => any_not_nl c = true) path).
  { eapply Forall_impl; [exact Hp|]. intros c Hc. unfold any_not_nl.
    destruct (Ascii.eqb_spec c nl); [contradiction|reflexivity]. }
  assert (H7 : forall prev,
    head_thread (Cat (Capture 2 (Plus any_not_nl)) EndLine) prev path
                (path ++ [], [], [(2, path)] ++ [])).
  { intros prev. apply (head_Cat _ _ _ _ path [] [(2, path)] [] [] []);
      [now apply head_Capture, head_Plus_all|apply head_EndLine_nil]. }
  assert (H6 : forall prev,
    head_thread (Cat (Star blank) (Cat (Capture 2 (Plus any_not_nl)) EndLine))
                prev (ws ++ path)
                (ws ++ path ++ [], [], [] ++ [(2, path)] ++ [])).
  { intros prev.
    apply (head_Cat _ _ _ _ ws path [] (path ++ []) [] ([(2, path)] ++ []));
      [now apply head_Star|apply H7]. }
  pose proof (head_lits (B "include:") _ _ _ _ _ H6) as H5.
  assert (H4 : forall prev,
    head_thread
      (Cat (Alt (Lit "!") (Lit "$"))
           (lits (B "include:")
              (Cat (Star blank) (Cat (Capture 2 (Plus any_not_nl)) EndLine))))
      prev (mark :: B "include:" ++ ws ++ path)
      ([mark] ++ B "include:" ++ ws ++ path ++ [], [],
       [] ++ [] ++ [(2, path)] ++ [])).
  { intros prev.
    apply (head_Cat _ _ _ _ [mark] (B "include:" ++ ws ++ path) []
             (B "include:" ++ ws ++ path ++ []) [] ([] ++ [(2, path)] ++ []));
      [now apply head_mark|apply H5]. }
  assert (Hmb : blank mark = false) by (destruct Hmark; subst; reflexivity).
  destruct Hd as [->|(w & -> & Hw')].
  - eexists _, _. split.
    + unfold directive, configIncludePattern.
      eapply head_Cat; [apply head_BeginLine|].
      eapply head_Cat.
      * apply head_Capture, head_Star; [exact Hi|].
        simpl. now intros c [= <-].
      * eapply head_Cat; [|apply H4].
        apply head_Quest_none. simpl. destruct Hmark; subst; reflexivity.
    + split; reflexivity.
  - eexists _, _. split.
    + unfold directive, configIncludePattern.
      eapply head_Cat; [apply head_BeginLine|].
      eapply head_Cat.
      * apply head_Capture, head_Star; [exact Hi|].
        simpl. now intros c [= <-].
      * eapply head_Cat; [|apply H4].
        apply head_Quest_some.
        apply (head_Cat (Lit "-") (Star blank) _ _ ["-"%char]
                 (w ++ mark :: B "include:" ++ ws ++ path) [] w
                 (mark :: B "include:" ++ ws ++ path) []);
          [apply head_Lit|].
        apply head_Star; [exact Hw'|]. simpl. now intros c [= <-].
    + split; reflexivity.
Qed.

(** X21. The forms of a directive: with [!] or [$], with or without a
    list dash, with any blanks after the colon, a directive line is one
    match, and what the callback makes of it depends on the indentation
    and the path alone.  The dash is not part of the indentation: it is
    dropped with the directive. *)
Theorem include_directive_forms
    (recurse : bytes -> option (gset bytes) -> expansion) (dir : bytes)
    (inc : gset bytes) (indent dash : bytes) (mark : ascii) (ws path : bytes) :
  Forall (fun c => blank c = true) indent -> list_dash dash ->
  mark = "!"%char \/ mark = "$"%char ->
  Forall (fun c => blank c = true) ws ->
  path <> [] -> Forall (fun c => c <> nl) path ->
  (forall c, head path = Some c -> blank c = false) ->
  let line := directive indent dash mark ws path in
  FindAll configIncludePattern line = ([([], line)], [])
  /\ include_callback sys recurse dir (None, inc) line
     = (let q := resolve_include sys dir path in
        let r := recurse q (Some ({[q]} ∪ inc)) in
        match err r with
        | Some e => ([], (Some e, visited r))
        | None => (PrefixStringLines indent (contents r), (None, visited r))
        end).
Proof.
  intros Hi Hd Hmark Hw Hne Hp Hhead line.
  destruct (directive_head indent dash mark ws path Hi Hd Hmark Hw Hne Hp Hhead)
    as (m & g & [l Hrun] & Hg1 & Hg2). fold line in Hrun.
  pose proof (run_head _ _ _ _ _ _ _ Hrun) as Hm.
  pose proof (matches_split _ _ _ _ _ _ Hm) as E. rewrite app_nil_r in E.
  subst m.
  assert (Hline : line <> []).
  { unfold line, directive. destruct indent; [destruct dash|]; discriminate. }
  split; [exact (include_line_scan line g Hm Hline)|].
  assert (Hm' : matches configIncludePattern None (line ++ []) line [] g)
    by now rewrite app_nil_r.
  rewrite (include_callback_match _ _ _ _ _ _ _ _ Hm'). cbn zeta.
  destruct (include_inv _ _ _ _ _ Hm) as (Hlead & _ & _).
  rewrite <- Hlead, Hg1.
  assert (Ht : include_target sys dir line = resolve_include sys dir path).
  { unfold include_target, FindSubmatch.
    rewrite (search_head _ _ _ _ _ Hrun).
    change (submatches configIncludePattern (line, [], g))
      with [line; group g 1; group g 2].
    simpl nth. now rewrite Hg2. }
  rewrite Ht. reflexivity.
Qed.

End IncludeMore.

Lemma include_first_error_witness :
  let r := RecursiveParseYAMLIncludes sys_tree 21 (B "/broken.yml") None 0 in
  err r
  = Some "reading /missing.yml: open /missing.yml: no such file or directory"
  /\ contents r = [] /\ includes r = None.
Proof.
  apply (include_first_error sys_tree 21 (B "/broken.yml") None 0
           (B "a: 1" ++ nl :: B "!include: /missing.yml") (B "/broken.yml")
           [] (B "a: 1" ++ [nl]) (B "!include: /missing.yml") [] []).
  - unfold CONFIG_INCLUDE_RECURSION_DEPTH_LIMIT. lia.
  - unfold CONFIG_INCLUDE_RECURSION_DEPTH_LIMIT. lia.
  - reflexivity.
  - reflexivity.
  - vm_compute. reflexivity.
  - constructor.
  - vm_compute. reflexivity.
Defined.

Lemma include_directive_forms_witness :
  let recurse := fun p inc => RecursiveParseYAMLIncludes sys_tree 20 p inc 1 in
  let line := directive (B "  ") (B "- ") "$" (B " ") (B "b.yml") in
  FindAll configIncludePattern line = ([([], line)], [])
  /\ include_callback sys_tree recurse (B "/") (None, ∅) line
     = (let q := resolve_include sys_tree (B "/") (B "b.yml") in
        let r := recurse q (Some ({[q]} ∪ ∅)) in
        match err r with
        | Some e => ([], (Some e, visited r))
        | None => (PrefixStringLines (B "  ") (contents r), (None, visited r))
        end).
Proof.
  apply (include_directive_forms sys_tree
           (fun p inc => RecursiveParseYAMLIncludes sys_tree 20 p inc 1)
           (B "/") ∅ (B "  ") (B "- ") "$" (B " ") (B "b.yml")).
  - repeat constructor.
  - right. exists (B " "). split; [reflexivity|repeat constructor].
  - now right.
  - repeat constructor.
  - discriminate.
  - repeat constructor; discriminate.
  - intros c [= <-]. reflexivity.
Defined.

(** ** The watcher *)

Section WatcherFacts.

Variable sys : System.
Variable addErr : bytes -> option error.

Lemma updateWatchedFiles_In previousWatched newWatched eff :
  In eff (updateWatchedFiles addErr previousWatched newWatched) ->
  (exists p, eff = Call (WatcherRemove p) /\ (p ∈ previousWatched) /\ (p ∉ newWatched))
  \/ (exists p, (p ∈ newWatched) /\ (p ∉ previousWatched)
                /\ (eff = Call (WatcherAdd p)
                    \/ exists e, addErr p = Some e /\ eff = Log p e)).
Proof.
  unfold updateWatchedFiles. rewrite in_app_iff, in_map_iff, in_flat_map.
  intros [(p & <- & Hp)|(p & Hp & Heff)];
    apply filter_In in Hp; destruct Hp as [Hp Hnot];
    apply list_elem_of_In, elem_of_elements in Hp;
    apply negb_true_iff, bool_decide_eq_false in Hnot.
  - left. now exists p.
  - right. exists p. split; [assumption|]. split; [assumption|].
    destruct Heff as [<-|Heff]; [now left|]. right.
    destruct (addErr p) as [e|]; [|destruct Heff].
    destruct Heff as [<-|[]]. now exists e.
Qed.

Lemma updateWatchedFiles_removes previousWatched newWatched p :
  In (Call (WatcherRemove p)) (updateWatchedFiles addErr previousWatched newWatched)
  <-> (p ∈ previousWatched) /\ (p ∉ newWatched).
Proof.
  split.
  - intros H. apply updateWatchedFiles_In in H.
    destruct H as [(q & [= ->] & H)|(q & _ & _ & [[=]|(e & _ & [=])])]. exact H.
  - unfold updateWatchedFiles. rewrite in_app_iff, in_map_iff.
    intros [Hp Hn]. left. exists p. split; [reflexivity|].
    apply filter_In. split.
    + now apply list_elem_of_In, elem_of_elements.
    + now apply negb_true_iff, bool_decide_eq_false.
Qed.

Lemma updateWatchedFiles_adds previousWatched newWatched p :
  In (Call (WatcherAdd p)) (updateWatchedFiles addErr previousWatched newWatched)
  <-> (p ∈ newWatched) /\ (p ∉ previousWatched).
Proof.
  split.
  - intros H. apply updateWatchedFiles_In in H.
    destruct H as [(q & [=] & _)|(q & Hn & Hp & [[= ->]|(e & _ & [=])])].
    now split.
  - unfold updateWatchedFiles. rewrite in_app_iff, in_flat_map.
    intros [Hn Hp]. right. exists p. split; [|now left].
    apply filter_In. split.
    + now apply list_elem_of_In, elem_of_elements.
    + now apply negb_true_iff, bool_decide_eq_false.
Qed.

(** X22. [updateWatchedFiles] calls the watcher for the difference of
    the two sets and for nothing else: it removes exactly the files that
    are no longer watched and adds exactly the new ones. *)
Theorem updateWatchedFiles_calls (previousWatched newWatched : gset bytes)
    (c : watcher_call) :
  In (Call c) (updateWatchedFiles addErr previousWatched newWatched)
  <-> (exists p, c = WatcherRemove p /\ (p ∈ previousWatched) /\ (p ∉ newWatched))
      \/ (exists p, c = WatcherAdd p /\ (p ∈ newWatched) /\ (p ∉ previousWatched)).
Proof.
  destruct c as [p|p].
  - rewrite updateWatchedFiles_removes. split.
    + intros H. left. now exists p.
    + intros [(q & [= ->] & H)|(q & [=] & _)]. exact H.
  - rewrite updateWatchedFiles_adds. split.
    + intros H. right. now exists p.
    + intros [(q & [=] & _)|(q & [= ->] & H)]. exact H.
Qed.

Lemma parse_failed mainFilePath mainFileAbsPath st e :
  err (ParseYAMLIncludes sys mainFilePath) = Some e ->
  parseAndCompareBeforeCallback sys addErr mainFilePath mainFileAbsPath st
  = (st, [OnErr ("parsing main file contents for comparison: " +:+ e)]).
Proof. intros H. unfold parseAndCompareBeforeCallback. now rewrite H. Qed.

Lemma parse_state mainFilePath mainFileAbsPath st :
  err (ParseYAMLIncludes sys mainFilePath) = None ->
  fst (parseAndCompareBeforeCallback sys addErr mainFilePath mainFileAbsPath st)
  = {| lastContents := contents (ParseYAMLIncludes sys mainFilePath);
       lastIncludes := {[mainFileAbsPath]}
                       ∪ default ∅ (includes (ParseYAMLIncludes sys mainFilePath)) |}.
Proof.
  intros H. unfold parseAndCompareBeforeCallback. rewrite H.
  destruct (bool_decide_reflect
              ({[mainFileAbsPath]}
               ∪ default ∅ (includes (ParseYAMLIncludes sys mainFilePath))
               = lastIncludes st)) as [Ei|_];
    destruct (bool_decide_reflect
                (lastContents st = contents (ParseYAMLIncludes sys mainFilePath)))
      as [Ec|_]; simpl; congruence.
Qed.

(** X23. A reload that parses leaves the state at what was parsed, and a
    second reload of the same files then does nothing: no call on the
    watcher and no callback. *)
Theorem reload_settles (mainFilePath mainFileAbsPath : bytes) (st : watcher_state) :
  err (ParseYAMLIncludes sys mainFilePath) = None ->
  let st1 :=
    fst (parseAndCompareBeforeCallback sys addErr mainFilePath mainFileAbsPath st) in
  lastContents st1 = contents (ParseYAMLIncludes sys mainFilePath)
  /\ parseAndCompareBeforeCallback sys addErr mainFilePath mainFileAbsPath st1
     = (st1, []).
Proof.
  intros H st1. subst st1. rewrite (parse_state _ _ _ H).
  split; [reflexivity|].
  unfold parseAndCompareBeforeCallback. rewrite H. cbn [lastContents lastIncludes].
  rewrite !bool_decide_eq_true_2 by reflexivity. reflexivity.
Qed.

Lemma parse_effects mainFilePath mainFileAbsPath st :
  err (ParseYAMLIncludes sys mainFilePath) = None ->
  let r := ParseYAMLIncludes sys mainFilePath in
  let current := {[mainFileAbsPath]} ∪ default ∅ (includes r) in
  snd (parseAndCompareBeforeCallback sys addErr mainFilePath mainFileAbsPath st)
  = (if negb (bool_decide (current = lastIncludes st))
     then updateWatchedFiles addErr (lastIncludes st) current
     else [])
    ++ (if negb (bool_decide (lastContents st = contents r))
        then [OnChange (contents r)]
        else []).
Proof.
  intros H r current. subst r current. unfold parseAndCompareBeforeCallback.
  rewrite H.
  destruct (bool_decide (_ = lastIncludes st));
    destruct (bool_decide (lastContents st = _)); reflexivity.
Qed.

Lemma updateWatchedFiles_no_callback previousWatched newWatched eff :
  In eff (updateWatchedFiles addErr previousWatched newWatched) ->
  (forall c, eff <> OnChange c) /\ (forall e, eff <> OnErr e).
Proof.
  intros Hin. apply updateWatchedFiles_In in Hin.
  destruct Hin as [(p & -> & _)|(p & _ & _ & [->|(e & _ & ->)])];
    split; intros; discriminate.
Qed.

(** X24. [onChange] is called by a reload exactly when the files parse
    and the bytes differ from the last ones, and then with the new
    bytes; a reload that fails to parse calls [onErr], leaves the state
    as it was and does nothing else. *)
Theorem reload_onChange (mainFilePath mainFileAbsPath : bytes) (st : watcher_state) :
  let r := ParseYAMLIncludes sys mainFilePath in
  let out := parseAndCompareBeforeCallback sys addErr mainFilePath mainFileAbsPath st in
  (forall c, In (OnChange c) (snd out)
             <-> err r = None /\ c = contents r /\ lastContents st <> c)
  /\ (forall e, In (OnErr e) (snd out)
                <-> exists e', err r = Some e'
                     /\ e = "parsing main file contents for comparison: " +:+ e')
  /\ (err r <> None ->
      fst out = st /\ forall eff, In eff (snd out) -> exists e, eff = OnErr e).
Proof.
  intros r out. subst r out.
  destruct (err (ParseYAMLIncludes sys mainFilePath)) as [e0|] eqn:He.
  - rewrite (parse_failed _ _ _ _ He). simpl. split; [|split].
    + intros c. split; [intros [[=]|[]]|intros (? & _ & _); discriminate].
    + intros e. split.
      * intros [[= <-]|[]]. now exists e0.
      * intros (e' & [= <-] & ->). now left.
    + intros _. split; [reflexivity|]. intros eff [<-|[]]. now eexists.
  - rewrite (parse_effects _ _ _ He). cbv zeta.
    split; [|split; [|congruence]].
    + intros c. rewrite in_app_iff. split.
      * intros [H|H].
        -- destruct (negb _); [|destruct H].
           apply updateWatchedFiles_no_callback in H. now destruct (proj1 H c).
        -- destruct (bool_decide_reflect
                       (lastContents st
                        = contents (ParseYAMLIncludes sys mainFilePath)))
             as [Ec|Ec]; [destruct H|].
           destruct H as [[= <-]|[]]. auto.
      * intros (_ & -> & Hne). right.
        rewrite bool_decide_eq_false_2 by assumption. now left.
    + intros e. rewrite in_app_iff. split.
      * intros [H|H].
        -- destruct (negb _); [|destruct H].
           apply updateWatchedFiles_no_callback in H. now destruct (proj2 H e).
        -- destruct (negb _); [|destruct H]. destruct H as [[=]|[]].
      * intros (e' & [=] & _).
Qed.

(** X25. After a rename or a removal of a watched file that the
    configuration still includes, the next reload adds that file to the
    watcher again, and calls the watcher for nothing else when the state
    was settled before the event. *)
Theorem rename_readds (mainFilePath mainFileAbsPath : bytes) (st : watcher_state)
    (event : Event) (a : bytes) :
  let r := ParseYAMLIncludes sys mainFilePath in
  let current := {[mainFileAbsPath]} ∪ default ∅ (includes r) in
  HasWrite event = false -> HasRename event || HasRemove event = true ->
  Abs sys (Name event) = Ok a ->
  err r = None -> a ∈ current -> lastIncludes st = current ->
  snd (handle_event sys st event) = true
  /\ let out := parseAndCompareBeforeCallback sys addErr mainFilePath mainFileAbsPath
                  (fst (handle_event sys st event)) in
     (forall c, In (Call c) (snd out) <-> c = WatcherAdd a)
     /\ lastIncludes (fst out) = current.
Proof.
  intros r current Hw Hrr Ha He Hin Hst. subst r.
  assert (Hev : handle_event sys st event
                = ({| lastContents := lastContents st;
                      lastIncludes := lastIncludes st ∖ {[a]} |}, true)).
  { unfold handle_event, deleteLastInclude. rewrite Hw, Ha.
    destruct (HasRename event); [reflexivity|]. simpl in Hrr. now rewrite Hrr. }
  rewrite Hev. split; [reflexivity|]. cbn [fst].
  split; [|now rewrite (parse_state _ _ _ He)].
  intros c. unfold parseAndCompareBeforeCallback. rewrite He.
  cbn [lastContents lastIncludes]. fold current. rewrite Hst.
  rewrite bool_decide_eq_false_2.
  2:{ intros E. rewrite E in Hin. apply elem_of_difference in Hin.
      destruct Hin as [_ Hn]. now apply Hn, elem_of_singleton. }
  simpl negb. cbv iota.
  assert (Hc : In (Call c) (updateWatchedFiles addErr (current ∖ {[a]}) current)
               <-> c = WatcherAdd a).
  { destruct c as [p|p].
    - rewrite updateWatchedFiles_removes. split; [|discriminate].
      intros [Hp Hn]. apply elem_of_difference in Hp. tauto.
    - rewrite updateWatchedFiles_adds. split.
      + intros [Hp Hn]. f_equal.
        destruct (decide (p = a)) as [|Hpa]; [assumption|].
        exfalso. apply Hn, elem_of_difference.
        split; [assumption|now rewrite elem_of_singleton].
      + intros [= ->]. split; [assumption|].
        rewrite elem_of_difference, elem_of_singleton.
        intros [_ H]. now apply H. }
  destruct (bool_decide (lastContents st = contents (ParseYAMLIncludes sys mainFilePath)));
    simpl; rewrite in_app_iff, Hc; simpl; [tauto|].
  split; [intros [H|[[=]|[]]]; exact H|tauto].
Qed.

(** X26. [ConfigFilesWatcher] starts by watching the main file and
    every include it was given, and by calling [onChange] once, last,
    with the bytes it was given. *)
Theorem ConfigFilesWatcher_start (mainFilePath mainFileAbsPath lastContents0 : bytes)
    (lastIncludes0 : gset bytes) :
  Abs sys mainFilePath = Ok mainFileAbsPath ->
  exists st effects,
    ConfigFilesWatcher sys addErr None mainFilePath lastContents0 lastIncludes0
    = Ok (st, effects)
    /\ lastContents st = lastContents0
    /\ lastIncludes st = {[mainFileAbsPath]} ∪ lastIncludes0
    /\ (forall c, In (Call c) effects
                  <-> exists p, c = WatcherAdd p
                                /\ (p = mainFileAbsPath \/ p ∈ lastIncludes0))
    /\ (forall c, In (OnChange c) effects <-> c = lastContents0)
    /\ last effects = Some (OnChange lastContents0).
Proof.
  intros Ha. unfold ConfigFilesWatcher. rewrite Ha. eexists _, _.
  split; [reflexivity|]. split; [reflexivity|]. split; [reflexivity|].
  split; [|split].
  - intros c. rewrite in_app_iff. simpl. split.
    + intros [H|[[=]|[]]]. destruct c as [p|p].
      * apply updateWatchedFiles_removes in H. destruct H as [Hp _].
        now apply elem_of_empty in Hp.
      * apply updateWatchedFiles_adds in H. destruct H as [Hp _].
        exists p. split; [reflexivity|].
        apply elem_of_union in Hp. now rewrite elem_of_singleton in Hp.
    + intros (p & -> & Hp). left. apply updateWatchedFiles_adds.
      split; [now rewrite elem_of_union, elem_of_singleton|].
      apply not_elem_of_empty.
  - intros c. rewrite in_app_iff. simpl. split.
    + intros [H|[[= <-]|[]]]; [|reflexivity].
      apply updateWatchedFiles_In in H.
      destruct H as [(p & [=] & _)|(p & _ & _ & [[=]|(e & _ & [=])])].
    + intros ->. right. now left.
  - apply last_snoc.
Qed.

End WatcherFacts.

Lemma reload_settles_witness :
  let st1 :=
    fst (parseAndCompareBeforeCallback sys_tree (fun _ => None) (B "/root.yml")
           (B "/root.yml") {| lastContents := []; lastIncludes := ∅ |}) in
  lastContents st1 = contents (ParseYAMLIncludes sys_tree (B "/root.yml"))
  /\ parseAndCompareBeforeCallback sys_tree (fun _ => None) (B "/root.yml")
       (B "/root.yml") st1
     = (st1, []).
Proof.
  apply (reload_settles sys_tree (fun _ => None) (B "/root.yml") (B "/root.yml")
           {| lastContents := []; lastIncludes := ∅ |}).
  vm_compute. reflexivity.
Defined.

Lemma rename_readds_witness :
  let current :=
    {[B "/root.yml"]}
    ∪ default ∅ (includes (ParseYAMLIncludes sys_tree (B "/root.yml"))) in
  let st := {| lastContents := []; lastIncludes := current |} in
  let event := {| Name := B "/root.yml"; HasWrite := false; HasRename := true;
                  HasRemove := false |} in
  snd (handle_event sys_tree st event) = true
  /\ let out := parseAndCompareBeforeCallback sys_tree (fun _ => None)
                  (B "/root.yml") (B "/root.yml")
                  (fst (handle_event sys_tree st event)) in
     (forall c, In (Call c) (snd out) <-> c = WatcherAdd (B "/root.yml"))
     /\ lastIncludes (fst out) = current.
Proof.
  apply (rename_readds sys_tree (fun _ => None) (B "/root.yml") (B "/root.yml")
           {| lastContents := [];
              lastIncludes :=
                {[B "/root.yml"]}
                ∪ default ∅ (includes (ParseYAMLIncludes sys_tree (B "/root.yml"))) |}
           {| Name := B "/root.yml"; HasWrite := false; HasRename := true;
              HasRemove := false |}
           (B "/root.yml")).
  - reflexivity.
  - reflexivity.
  - reflexivity.
  - vm_compute. reflexivity.
  - apply elem_of_union_l, elem_of_singleton. reflexivity.
  - reflexivity.
Defined.

Lemma ConfigFilesWatcher_start_witness :
  exists st effects,
    ConfigFilesWatcher sys_tree (fun _ => None) None (B "/root.yml") (B "a: 1")
                       {[B "/b.yml"]}
    = Ok (st, effects)
    /\ lastContents st = B "a: 1"
    /\ lastIncludes st = {[B "/root.yml"]} ∪ {[B "/b.yml"]}
    /\ (forall c, In (Call c) effects
                  <-> exists p, c = WatcherAdd p
                                /\ (p = B "/root.yml" \/ p ∈ ({[B "/b.yml"]} : gset bytes)))
    /\ (forall c, In (OnChange c) effects <-> c = B "a: 1")
    /\ last effects = Some (OnChange (B "a: 1")).
Proof.
  apply (ConfigFilesWatcher_start sys_tree (fun _ => None) (B "/root.yml")
           (B "/root.yml") (B "a: 1") {[B "/b.yml"]}).
  reflexivity.
Defined.

(** ** Session tokens *)

Section AuthFacts.

Variable hmac_sha256 : bytes -> bytes -> bytes.
Variable EncodeToString : bytes -> bytes.
Variable DecodeString : bytes -> result bytes.

Hypothesis hmac_length : forall key message, length (hmac_sha256 key message) = 32.
Hypothesis decode_encode : forall b, DecodeString (EncodeToString b) = Ok b.

Lemma Z_of_byte_of_Z z : (0 <= z < 256)%Z -> Z_of_byte (byte_of_Z z) = z.
Proof.
  intros H. unfold Z_of_byte, byte_of_Z.
  rewrite N_ascii_embedding by lia. lia.
Qed.

Lemma Uint32_PutUint32 v : (0 <= v < 2 ^ 32)%Z -> Uint32 (PutUint32 v) = v.
Proof.
  intros H. unfold Uint32, PutUint32.
  rewrite !Z_of_byte_of_Z by (apply Z.mod_pos_bound; lia).
  change (2 ^ 8)%Z with 256%Z. change (2 ^ 16)%Z with 65536%Z.
  change (2 ^ 24)%Z with 16777216%Z. change (2 ^ 32)%Z with 4294967296%Z in H.
  Z.div_mod_to_equations. lia.
Qed.

Lemma uint32_range x : (0 <= uint32 x < 2 ^ 32)%Z.
Proof. apply Z.mod_pos_bound. lia. Qed.

(** What verification makes of a token that was just generated with the
    same key. *)
Lemma verify_generated username secret now now' :
  length secret = AUTH_SECRET_KEY_LENGTH ->
  let usernameHash :=
    hmac_sha256 (drop AUTH_TOKEN_SECRET_LENGTH secret) username in
  let expires := uint32 (Unix (now + AUTH_TOKEN_VALID_PERIOD)) in
  exists token,
    GenerateSessionToken hmac_sha256 EncodeToString username secret now = Ok token
    /\ VerifySessionToken hmac_sha256 DecodeString token secret now'
       = if (expires <? Unix now')%Z then Err "token has expired"
         else Ok (usernameHash,
                  (expires * second - AUTH_TOKEN_REGEN_BEFORE <? now')%Z).
Proof using hmac_length decode_encode.
  intros Hlen usernameHash expires.
  unfold GenerateSessionToken, ComputeUsernameHash.
  rewrite Hlen, Nat.eqb_refl. cbn [negb]. fold usernameHash. fold expires.
  assert (Hh : length usernameHash = 32) by apply hmac_length.
  assert (Hdata : take AUTH_USERNAME_HASH_LENGTH
                    (take AUTH_TOKEN_DATA_LENGTH
                       (usernameHash ++ repeat zero_byte AUTH_TOKEN_DATA_LENGTH))
                  = usernameHash).
  { rewrite take_take. apply take_app_length'. now rewrite Hh. }
  rewrite Hdata.
  set (data := usernameHash ++ PutUint32 expires).
  set (signature := hmac_sha256 (take AUTH_TOKEN_SECRET_LENGTH secret) data).
  assert (Hd : length data = AUTH_TOKEN_DATA_LENGTH).
  { unfold data. rewrite length_app, Hh. reflexivity. }
  eexists. split; [reflexivity|].
  unfold VerifySessionToken. rewrite decode_encode.
  rewrite length_app, Hd. unfold signature at 1. rewrite hmac_length.
  rewrite Nat.eqb_refl, Hlen, Nat.eqb_refl. cbn [negb].
  rewrite (take_app_length' data signature) by now rewrite Hd.
  rewrite (drop_app_length' data signature) by now rewrite Hd.
  fold signature.
  rewrite bool_decide_eq_true_2 by reflexivity. cbn [negb].
  assert (Hu : take AUTH_USERNAME_HASH_LENGTH (data ++ signature) = usernameHash).
  { unfold data. rewrite <- app_assoc. apply take_app_length'. now rewrite Hh. }
  assert (Ht : take AUTH_TIMESTAMP_LENGTH
                 (drop AUTH_USERNAME_HASH_LENGTH (data ++ signature))
               = PutUint32 expires).
  { unfold data. rewrite <- app_assoc.
    rewrite drop_app_length' by now rewrite Hh.
    now apply take_app_length'. }
  rewrite Hu, Ht, Uint32_PutUint32 by apply uint32_range. reflexivity.
Qed.

(** X27. A token verifies under the key it was generated with until it
    expires, fourteen days later: verification returns the hash of the
    user name, and asks for a new token once less than seven days are
    left. *)
Theorem token_round_trip (username secret : bytes) (now now' : Z) :
  length secret = AUTH_SECRET_KEY_LENGTH ->
  let expires := Unix (now + AUTH_TOKEN_VALID_PERIOD) in
  (0 <= expires < 2 ^ 32)%Z -> (Unix now' <= expires)%Z ->
  exists token usernameHash,
    GenerateSessionToken hmac_sha256 EncodeToString username secret now = Ok token
    /\ ComputeUsernameHash hmac_sha256 username secret = Ok usernameHash
    /\ VerifySessionToken hmac_sha256 DecodeString token secret now'
       = Ok (usernameHash,
             bool_decide (expires * second - 7 * 24 * 3600 * second < now')%Z).
Proof using hmac_length decode_encode.
  intros Hlen expires Hrange Hnow.
  destruct (verify_generated username secret now now' Hlen) as (token & Hg & Hv).
  exists token, (hmac_sha256 (drop AUTH_TOKEN_SECRET_LENGTH secret) username).
  split; [exact Hg|]. split.
  - unfold ComputeUsernameHash. now rewrite Hlen, Nat.eqb_refl.
  - rewrite Hv. fold expires. unfold uint32. rewrite Z.mod_small by exact Hrange.
    destruct (Z.ltb_spec expires (Unix now')) as [?|_]; [lia|].
    f_equal. f_equal. unfold AUTH_TOKEN_REGEN_BEFORE.
    destruct (Z.ltb_spec (expires * second - 7 * 24 * 3600 * second) now');
      [now rewrite bool_decide_eq_true_2|now rewrite bool_decide_eq_false_2 by lia].
Qed.

(** X28. While the expiry time, fourteen days ahead, fits in 32 bits, a
    token verified at the time it was generated is valid and is not to
    be regenerated. *)
Theorem token_fresh (username secret : bytes) (now : Z) :
  length secret = AUTH_SECRET_KEY_LENGTH ->
  (0 <= Unix (now + AUTH_TOKEN_VALID_PERIOD) < 2 ^ 32)%Z ->
  exists token,
    GenerateSessionToken hmac_sha256 EncodeToString username secret now = Ok token
    /\ VerifySessionToken hmac_sha256 DecodeString token secret now
       = Ok (hmac_sha256 (drop AUTH_TOKEN_SECRET_LENGTH secret) username, false).
Proof using hmac_length decode_encode.
  intros Hlen Hrange.
  destruct (verify_generated username secret now now Hlen) as (token & Hg & Hv).
  exists token. split; [exact Hg|]. rewrite Hv.
  unfold uint32. rewrite Z.mod_small by exact Hrange.
  unfold Unix, AUTH_TOKEN_VALID_PERIOD, AUTH_TOKEN_REGEN_BEFORE, second in *.
  destruct (Z.ltb_spec ((now + 14 * 24 * 3600 * 1000000000) / 1000000000)
                       (now / 1000000000)) as [H|_].
  - exfalso. Z.div_mod_to_equations. lia.
  - f_equal. f_equal. apply Z.ltb_ge. Z.div_mod_to_equations. lia.
Qed.

(** X29. The expiry time is stored in 32 bits: a token generated when
    the expiry time no longer fits (from the year 2106 on) carries the
    wrapped time, and verification refuses it as expired from the
    start. *)
Theorem token_expiry_wraps (username secret : bytes) (now now' : Z) :
  length secret = AUTH_SECRET_KEY_LENGTH ->
  (2 ^ 32 <= Unix (now + AUTH_TOKEN_VALID_PERIOD) < 2 ^ 33)%Z ->
  (now <= now')%Z ->
  exists token,
    GenerateSessionToken hmac_sha256 EncodeToString username secret now = Ok token
    /\ VerifySessionToken hmac_sha256 DecodeString token secret now'
       = Err "token has expired".
Proof using hmac_length decode_encode.
  intros Hlen Hrange Hnow.
  destruct (verify_generated username secret now now' Hlen) as (token & Hg & Hv).
  exists token. split; [exact Hg|]. rewrite Hv.
  assert (Hw : uint32 (Unix (now + AUTH_TOKEN_VALID_PERIOD))
               = (Unix (now + AUTH_TOKEN_VALID_PERIOD) - 2 ^ 32)%Z).
  { unfold uint32. symmetry. apply Z.mod_unique_pos with (q := 1%Z); lia. }
  rewrite Hw.
  unfold Unix, AUTH_TOKEN_VALID_PERIOD, second in *.
  destruct (Z.ltb_spec ((now + 14 * 24 * 3600 * 1000000000) / 1000000000 - 2 ^ 32)
                       (now' / 1000000000)) as [_|H]; [reflexivity|].
  exfalso. change (2 ^ 32)%Z with 4294967296%Z in *.
  change (2 ^ 33)%Z with 8589934592%Z in *.
  Z.div_mod_to_equations. lia.
Qed.

End AuthFacts.

Lemma token_round_trip_witness :
  exists token usernameHash,
    GenerateSessionToken (fun key message => resize 32 zero_byte (key ++ message))
      (fun b => b) (B "admin") (repeat "k"%char 64) 0
    = Ok token
    /\ ComputeUsernameHash (fun key message => resize 32 zero_byte (key ++ message))
         (B "admin") (repeat "k"%char 64)
       = Ok usernameHash
    /\ VerifySessionToken (fun key message => resize 32 zero_byte (key ++ message))
         Ok token (repeat "k"%char 64) (8 * 24 * 3600 * second)
       = Ok (usernameHash,
             bool_decide (Unix (0 + AUTH_TOKEN_VALID_PERIOD) * second
                          - 7 * 24 * 3600 * second
                          < 8 * 24 * 3600 * second)%Z).
Proof.
  apply (token_round_trip (fun key message => resize 32 zero_byte (key ++ message))
           (fun b => b) Ok
           (fun key message => length_resize (key ++ message) 32 zero_byte)
           (fun b => eq_refl)
           (B "admin") (repeat "k"%char 64) 0 (8 * 24 * 3600 * second)).
  - reflexivity.
  - vm_compute. split; [discriminate|reflexivity].
  - vm_compute. discriminate.
Defined.

Lemma token_fresh_witness :
  exists token,
    GenerateSessionToken (fun key message => resize 32 zero_byte (key ++ message))
      (fun b => b) (B "admin") (repeat "k"%char 64) (1700000000 * second)
    = Ok token
    /\ VerifySessionToken (fun key message => resize 32 zero_byte (key ++ message))
         Ok token (repeat "k"%char 64) (1700000000 * second)
       = Ok (resize 32 zero_byte
               (drop AUTH_TOKEN_SECRET_LENGTH (repeat "k"%char 64) ++ B "admin"),
             false).
Proof.
  apply (token_fresh (fun key message => resize 32 zero_byte (key ++ message))
           (fun b => b) Ok
           (fun key message => length_resize (key ++ message) 32 zero_byte)
           (fun b => eq_refl)
           (B "admin") (repeat "k"%char 64) (1700000000 * second)).
  - reflexivity.
  - vm_compute. split; [discriminate|reflexivity].
Defined.

Lemma token_expiry_wraps_witness :
  exists token,
    GenerateSessionToken (fun key message => resize 32 zero_byte (key ++ message))
      (fun b => b) (B "admin") (repeat "k"%char 64) (2 ^ 32 * second)
    = Ok token
    /\ VerifySessionToken (fun key message => resize 32 zero_byte (key ++ message))
         Ok token (repeat "k"%char 64) (2 ^ 32 * second)
       = Err "token has expired".
Proof.
  apply (token_expiry_wraps
           (fun key message => resize 32 zero_byte (key ++ message))
           (fun b => b) Ok
           (fun key message => length_resize (key ++ message) 32 zero_byte)
           (fun b => eq_refl)
           (B "admin") (repeat "k"%char 64) (2 ^ 32 * second) (2 ^ 32 * second)).
  - reflexivity.
  - vm_compute. split; [discriminate|reflexivity].
  - vm_compute. discriminate.
Defined.

Lemma StripURLScheme_spec_witness :
  StripURLScheme (B "https://example.com/a") = B "example.com/a".
Proof.
  apply (proj1 (StripURLScheme_spec (B "https://example.com/a"))
           (B "https") (B "example.com/a")).
  - discriminate.
  - repeat constructor.
  - reflexivity.
Defined.
